(** * SIWA (Sign In With Agent): message codec, verification engine,
      stores and server orchestration

    A shallow embedding of the TypeScript/JavaScript sources of the
    [@siwa/core] and [@siwa/server] packages, and the properties of the
    protocol proved (or refuted) on it.

    Conventions.
    - A JavaScript string is a list of UTF-16 code units ([str]); [js "..."]
      injects an ASCII literal.
    - Code that may [throw] lives in the exception monad [Exc]; [try]/[catch]
      is [catch].
    - [Date] values are milliseconds since the epoch ([Z]); the clock reading
      of [new Date()] / [Date.now()] is an explicit argument [now].
    - A [Map] or a plain object used as a dictionary is a [gmap].
    - Library code outside the repository (base58, Ed25519, [Date] parsing,
      the Redis server, ...) is the interface [Platform] or an explicit
      model, named as such.
    - A call of a store or of the server reads the clock once: it runs at
      one instant [now].
    - The repository holds two builds of the server module: the one of
      [packages/server/dist/index.js] ([LegacyServer], with the stores
      [Memory.Legacy]) and the one with rate limiting and [deleteAndGet],
      whose store interfaces [redis.ts] implements ([Server], [Memory],
      [Redis]). *)

From Stdlib Require Import ZArith NArith List Ascii String Bool Lia.
From Stdlib.Strings Require Import Byte.
From stdpp Require Import base option list gmap strings pretty.

(** ** JavaScript strings *)

Module JS.

Definition char := N.
Definition str := list char.

Definition js (s : string) : str :=
  (fun a => N_of_ascii a) <$> list_ascii_of_string s.

Definition LF : char := 10%N.

(** ECMAScript [LineTerminator]: LF, CR, U+2028, U+2029.  The regex atom [.]
    (no [s] flag) matches every code unit but these. *)
Definition isLineTerminator (c : char) : bool :=
  (c =? 10)%N || (c =? 13)%N || (c =? 8232)%N || (c =? 8233)%N.

(** ECMAScript [WhiteSpace] and [LineTerminator]: what [String.prototype.trim]
    strips and what the regex class [\s] matches. *)
Definition isSpace (c : char) : bool :=
  isLineTerminator c
  || (c =? 9)%N || (c =? 11)%N || (c =? 12)%N || (c =? 32)%N || (c =? 160)%N
  || (c =? 5760)%N || ((8192 <=? c)%N && (c <=? 8202)%N)
  || (c =? 8239)%N || (c =? 8287)%N || (c =? 12288)%N || (c =? 65279)%N.

Definition nonEmpty (s : str) : bool :=
  match s with [] => false | _ :: _ => true end.

(** Truthiness of an optional string: [undefined] and [''] are falsy. *)
Definition truthy (o : option str) : bool :=
  match o with Some s => nonEmpty s | None => false end.

Definition streq (a b : str) : bool := bool_decide (a = b).

Fixpoint startsWith (p s : str) : bool :=
  match p, s with
  | [], _ => true
  | _ :: _, [] => false
  | a :: p', b :: s' => (a =? b)%N && startsWith p' s'
  end.

Definition endsWith (p s : str) : bool := startsWith (rev p) (rev s).

Fixpoint trimStart (s : str) : str :=
  match s with
  | [] => []
  | c :: t => if isSpace c then trimStart t else s
  end.

Definition trimEnd (s : str) : str := rev (trimStart (rev s)).

Definition trim (s : str) : str := trimEnd (trimStart s).

(** [text.split('\n')]: never empty. *)
Fixpoint split_lf (s : str) : list str :=
  match s with
  | [] => [[]]
  | c :: t =>
      if (c =? LF)%N then [] :: split_lf t
      else match split_lf t with
           | l :: ls => (c :: l) :: ls
           | [] => [[c]]
           end
  end.

(** [lines.join('\n')]. *)
Fixpoint join_lf (ls : list str) : str :=
  match ls with
  | [] => []
  | [l] => l
  | l :: ls' => l ++ LF :: join_lf ls'
  end.

(** The tail [(.+)$] of both regexes: the rest of the input, non-empty and
    free of line terminators. *)
Definition dotPlusEnd (s : str) : option str :=
  if nonEmpty s && forallb (fun c => negb (isLineTerminator c)) s
  then Some s else None.

(** [\s*(.+)$] with the greedy star and backtracking: first try to give one
    more space to [\s*], then fall back to starting [(.+)] here. *)
Fixpoint spacesThenDotPlusEnd (s : str) : option str :=
  match s with
  | [] => None
  | c :: t =>
      if isSpace c then
        match spacesThenDotPlusEnd t with
        | Some v => Some v
        | None => dotPlusEnd s
        end
      else dotPlusEnd s
  end.

(** Split at the first [':'], as [^([^:]+):] does: the key is everything
    before the first colon and must not be empty. *)
Fixpoint splitColon (s : str) : option (str * str) :=
  match s with
  | [] => None
  | c :: t =>
      if (c =? 58)%N then Some ([], t)
      else match splitColon t with
           | Some (k, r) => Some (c :: k, r)
           | None => None
           end
  end.

(** [line.match(/^([^:]+):\s*(.+)$/)]: the two capture groups. *)
Definition fieldMatch (line : str) : option (str * str) :=
  match splitColon line with
  | Some (k, r) =>
      if nonEmpty k then
        match spacesThenDotPlusEnd r with
        | Some v => Some (k, v)
        | None => None
        end
      else None
  | None => None
  end.

Definition headerSuffix : str :=
  js " wants you to sign in with your Solana account:".

(** [line.match(/^(.+) wants you to sign in with your Solana account:$/)]:
    capture group 1.  The suffix is anchored at the end of the input, so the
    group is what precedes it; it must be non-empty and free of line
    terminators. *)
Definition headerMatch (line : str) : option str :=
  if endsWith headerSuffix line then
    let d := take (length line - length headerSuffix) line in
    if nonEmpty d && forallb (fun c => negb (isLineTerminator c)) d
    then Some d else None
  else None.

End JS.
Export JS.

(** ** Exceptions *)

Inductive Exc (A : Type) : Type :=
| Val (a : A)
| Throw (msg : str).
Arguments Val {A} a.
Arguments Throw {A} msg.

#[global] Instance Exc_ret : MRet Exc := fun A a => Val a.

#[global] Instance Exc_bind : MBind Exc := fun A B f x =>
  match x with
  | Val a => f a
  | Throw e => Throw e
  end.

#[global] Instance Exc_fmap : FMap Exc := fun A B f x =>
  match x with
  | Val a => Val (f a)
  | Throw e => Throw e
  end.

(** [try { body } catch (error) { handler(error.message) }] *)
Definition catch {A} (body : Exc A) (handler : str -> Exc A) : Exc A :=
  match body with
  | Val a => Val a
  | Throw e => handler e
  end.

(** ** Message codec ([packages/core], message.js) *)

Record SIWAMessage := mkMessage {
  domain : str;
  address : str;
  statement : option str;
  uri : str;
  version : str;
  chainId : str;
  nonce : str;
  issuedAt : str;
  expirationTime : option str;
  notBefore : option str;
  requestId : option str;
  resources : option (list str);
}.

Module Codec.

(** [if (message.f) lines.push(`Label: ${message.f}`)] *)
Definition optionalLine (label : str) (o : option str) : list str :=
  match o with
  | Some v => if nonEmpty v then [label ++ v] else []
  | None => []
  end.

Definition serializeLines (message : SIWAMessage) : list str :=
  [ domain message ++ js " wants you to sign in with your Solana account:";
    address message ]
  ++ match statement message with
     | Some s => if nonEmpty s then [ []; s ] else []
     | None => []
     end
  ++ [ [] ]
  ++ [ js "URI: " ++ uri message;
       js "Version: " ++ version message;
       js "Chain ID: " ++ chainId message;
       js "Nonce: " ++ nonce message;
       js "Issued At: " ++ issuedAt message ]
  ++ optionalLine (js "Expiration Time: ") (expirationTime message)
  ++ optionalLine (js "Not Before: ") (notBefore message)
  ++ optionalLine (js "Request ID: ") (requestId message)
  ++ match resources message with
     | Some (r :: rs) =>
         js "Resources:" :: ((fun resource => js "- " ++ resource) <$> (r :: rs))
     | _ => []
     end.

Definition serializeMessage (message : SIWAMessage) : str :=
  join_lf (serializeLines message).

(** The loop [for (let i = 2; ...)] that looks for the statement, run on
    [lines[2..]].  It returns the statement and, when it breaks on a line
    starting with ['URI:'], the lines from [fieldStartIndex] on. *)
Fixpoint scanStatement (ls : list str) (statement : option str)
  : option str * option (list str) :=
  match ls with
  | [] => (statement, None)
  | line :: rest =>
      if startsWith (js "URI:") line then (statement, Some ls)
      else if nonEmpty (trim line) && negb (truthy statement)
           then scanStatement rest (Some (trim line))
           else scanStatement rest statement
  end.

Record fieldState := mkFieldState {
  fields : gmap str str;
  collected : list str;
  inResources : bool;
}.

(** One iteration of the field loop. *)
Definition fieldStep (st : fieldState) (line : str) : fieldState :=
  if streq line (js "Resources:") then
    mkFieldState (fields st) (collected st) true
  else if inResources st && startsWith (js "- ") line then
    mkFieldState (fields st) (collected st ++ [drop 2 line]) (inResources st)
  else
    match fieldMatch line with
    | Some (k, v) => mkFieldState (<[k := v]> (fields st)) (collected st) false
    | None => st
    end.

Definition parseFields (ls : list str) : fieldState :=
  fold_left fieldStep ls (mkFieldState ∅ [] false).

Definition required : list str :=
  [js "URI"; js "Version"; js "Chain ID"; js "Nonce"; js "Issued At"].

(** [for (const field of required) if (!fields[field]) throw ...] *)
Fixpoint checkRequired (fs : gmap str str) (req : list str) : Exc unit :=
  match req with
  | [] => Val tt
  | field :: rest =>
      if truthy (fs !! field) then checkRequired fs rest
      else Throw (js "Invalid SIWA message: missing " ++ field)
  end.

(** A required field read back after [checkRequired]. *)
Definition getField (fs : gmap str str) (k : str) : str :=
  default [] (fs !! k).

Definition parseMessage (text : str) : Exc SIWAMessage :=
  let lines := split_lf text in
  match headerMatch (default [] (lines !! 0%nat)) with
  | None => Throw (js "Invalid SIWA message: missing header")
  | Some domain =>
      let address := trim <$> (lines !! 1%nat) in
      if negb (truthy address) then
        Throw (js "Invalid SIWA message: missing address")
      else
        let '(statement, found) := scanStatement (drop 2 lines) None in
        let fieldLines := default (drop 2 lines) found in
        let st := parseFields fieldLines in
        _ ← checkRequired (fields st) required;
        Val {| domain := domain;
               address := default [] address;
               statement := statement;
               uri := getField (fields st) (js "URI");
               version := getField (fields st) (js "Version");
               chainId := getField (fields st) (js "Chain ID");
               nonce := getField (fields st) (js "Nonce");
               issuedAt := getField (fields st) (js "Issued At");
               expirationTime := fields st !! js "Expiration Time";
               notBefore := fields st !! js "Not Before";
               requestId := fields st !! js "Request ID";
               resources := match collected st with
                            | [] => None
                            | rs => Some rs
                            end |}
  end.

(** [isValidDomain] of message.js. *)
Definition isAlnum (c : char) : bool :=
  ((97 <=? c)%N && (c <=? 122)%N) || ((65 <=? c)%N && (c <=? 90)%N)
  || ((48 <=? c)%N && (c <=? 57)%N).

(** [/^[a-zA-Z0-9][a-zA-Z0-9.-]*[a-zA-Z0-9]$/.test(domain)] *)
Definition domainPattern (d : str) : bool :=
  match d with
  | [] => false
  | c :: t =>
      isAlnum c &&
      match rev t with
      | [] => false
      | l :: mid =>
          isAlnum l
          && forallb (fun x => isAlnum x || (x =? 46)%N || (x =? 45)%N) mid
      end
  end.

Definition isValidDomain (d : str) : bool :=
  if negb (nonEmpty d) || (253 <? length d)%nat then false
  else if streq d (js "localhost") then true
  else domainPattern d.

(** [[1-9A-HJ-NP-Za-km-z]] *)
Definition isBase58Char (c : char) : bool :=
  ((49 <=? c)%N && (c <=? 57)%N)
  || ((65 <=? c)%N && (c <=? 72)%N) || ((74 <=? c)%N && (c <=? 78)%N)
  || ((80 <=? c)%N && (c <=? 90)%N)
  || ((97 <=? c)%N && (c <=? 107)%N) || ((109 <=? c)%N && (c <=? 122)%N).

(** [isValidSolanaAddress] of message.js (the textual check used by
    [createMessage]): 32 to 44 base58 characters. *)
Definition isValidSolanaAddress (a : str) : bool :=
  if negb (nonEmpty a) || (length a <? 32)%nat || (44 <? length a)%nat then false
  else forallb isBase58Char a.

(** Parse, then serialize again. *)
Definition reserialize (text : str) : Exc str :=
  message ← parseMessage text; Val (serializeMessage message).

End Codec.

(** *** Canonical messages

    The shape of the field values that the serialized layout can carry
    unchanged: this is what the parser gives back. *)

Definition noLF (s : str) : bool := forallb (fun c => negb (c =? LF)%N) s.

Definition noLineTerminator (s : str) : bool :=
  forallb (fun c => negb (isLineTerminator c)) s.

(** A field value after ["Key: "]: non-empty, on one line (no line
    terminator), not starting with white space. *)
Definition valueOk (v : str) : bool :=
  match v with
  | [] => false
  | c :: _ => negb (isSpace c) && noLineTerminator v
  end.

Definition optValueOk (o : option str) : bool :=
  match o with Some v => valueOk v | None => true end.

(** A statement: non-empty, one line, no surrounding white space, and not
    itself starting with ["URI:"]. *)
Definition statementOk (o : option str) : bool :=
  match o with
  | Some s =>
      nonEmpty s && noLF s && streq (trim s) s
      && negb (startsWith (js "URI:") s)
  | None => true
  end.

Definition resourcesOk (o : option (list str)) : bool :=
  match o with
  | Some [] => false
  | Some rs => forallb noLF rs
  | None => true
  end.

Definition canonical (m : SIWAMessage) : bool :=
  nonEmpty (domain m) && noLineTerminator (domain m)
  && nonEmpty (address m) && noLF (address m) && streq (trim (address m)) (address m)
  && statementOk (statement m)
  && valueOk (uri m) && valueOk (version m) && valueOk (chainId m)
  && valueOk (nonce m) && valueOk (issuedAt m)
  && optValueOk (expirationTime m) && optValueOk (notBefore m)
  && optValueOk (requestId m)
  && resourcesOk (resources m).

(** ** Platform

    What the sources import from outside the repository.  A throwing call
    returns [Throw]; an [Invalid Date] is [None]. *)

Class Platform := {
  (** [new Date(text).getTime()] *)
  Date_parse : str -> option Z;
  (** [new Date(ms).toISOString()] *)
  Date_toISOString : Z -> str;
  (** [new URL(uri)] does not throw *)
  URL_parses : str -> bool;
  (** [new PublicKey(address).toBytes()] of @solana/web3.js *)
  PublicKey_new : str -> Exc (list byte);
  (** [PublicKey.isOnCurve(bytes)] *)
  PublicKey_isOnCurve : list byte -> Exc bool;
  (** [bs58.decode(text)] *)
  bs58_decode : str -> Exc (list byte);
  (** [Uint8Array.from(Buffer.from(text, 'base64'))] *)
  Buffer_from_base64 : str -> Exc (list byte);
  (** [new TextEncoder().encode(text)] *)
  TextEncoder_encode : str -> list byte;
  (** [nacl.sign.detached.verify(message, signature, publicKey)] *)
  nacl_sign_detached_verify : list byte -> list byte -> list byte -> Exc bool;
  (** [createHash('sha256').update(text).digest('base64url')] *)
  sha256_base64url : str -> str;
  (** [bytes.toString('base64url')] *)
  base64url : list byte -> str;
}.

(** ** Timing validator (message.js) *)

Module Timing.

Record TimingResult := mkTiming {
  valid : bool;
  error : option str;
}.

Definition maxSkew : Z := 5 * 60 * 1000.

Section WithPlatform.
Context `{Platform}.

(** [now > new Date(text)]: a comparison with an Invalid Date is false. *)
Definition isAfter (now : Z) (text : str) : bool :=
  match Date_parse text with
  | Some t => (t <? now)%Z
  | None => false
  end.

(** [now < new Date(text)] *)
Definition isBefore (now : Z) (text : str) : bool :=
  match Date_parse text with
  | Some t => (now <? t)%Z
  | None => false
  end.

(** [new Date(text).getTime() > now.getTime() + maxSkew] *)
Definition isBeyondSkew (now : Z) (text : str) : bool :=
  match Date_parse text with
  | Some t => (now + maxSkew <? t)%Z
  | None => false
  end.

Definition validateTiming (now : Z) (message : SIWAMessage) : TimingResult :=
  if match expirationTime message with
     | Some e => nonEmpty e && isAfter now e
     | None => false
     end
  then mkTiming false (Some (js "Message has expired"))
  else if match notBefore message with
          | Some nb => nonEmpty nb && isBefore now nb
          | None => false
          end
  then mkTiming false (Some (js "Message not yet valid"))
  else if isBeyondSkew now (issuedAt message)
  then mkTiming false (Some (js "Message issued in the future"))
  else mkTiming true None.

(** The three rules, as the specification words them: a field is present
    when it holds a non-empty string, and instants are compared as [Date]
    compares them. *)
Definition expired (now : Z) (m : SIWAMessage) : Prop :=
  exists e t, expirationTime m = Some e /\ e <> []
              /\ Date_parse e = Some t /\ (now > t)%Z.

Definition notYetValid (now : Z) (m : SIWAMessage) : Prop :=
  exists nb t, notBefore m = Some nb /\ nb <> []
               /\ Date_parse nb = Some t /\ (now < t)%Z.

Definition issuedInFuture (now : Z) (m : SIWAMessage) : Prop :=
  exists t, Date_parse (issuedAt m) = Some t /\ (t > now + 5 * 60 * 1000)%Z.

End WithPlatform.
End Timing.

(** ** Nonce generator (message.js) *)

Module Nonce.

Definition chars : str :=
  js "ABCDEFGHIJKLMNOPQRSTUVWXYZabcdefghijklmnopqrstuvwxyz0123456789".

Definition maxValid : N := 256 - (256 mod N.of_nat (length chars)).

(** The secure random source: the bytes it is going to deliver, and how many
    have been drawn. *)
Record Random := mkRandom {
  stream : nat -> byte;
  drawn : nat;
}.

(** [crypto.getRandomValues(new Uint8Array(k))]: the Web Crypto API refuses
    more than 65536 bytes at a time with a [QuotaExceededError]. *)
Definition quota : N := 65536.

Definition getRandomValues (k : nat) (rnd : Random) : Exc (list byte * Random) :=
  if (quota <? N.of_nat k)%N then
    Throw (js "The requested length exceeds 65,536 bytes")
  else
    Val (stream rnd <$> seq (drawn rnd) k, mkRandom (stream rnd) (drawn rnd + k)).

(** [chars[byte % chars.length]] *)
Definition charOf (b : byte) : char :=
  nth (N.to_nat (Byte.to_N b mod N.of_nat (length chars))) chars 0%N.

(** [for (const byte of array) if (byte < maxValid && result.length < length)
    result.push(...)] *)
Fixpoint pushAccepted (array : list byte) (len : nat) (result : list char)
  : list char :=
  match array with
  | [] => result
  | b :: rest =>
      if (Byte.to_N b <? maxValid)%N && (length result <? len)%nat
      then pushAccepted rest len (result ++ [charOf b])
      else pushAccepted rest len result
  end.

(** The [while (result.length < length)] loop; [fuel] bounds the number of
    iterations ([None]: the loop is still running). *)
Fixpoint generateLoop (fuel : nat) (len : nat) (result : list char) (rnd : Random)
  : option (Exc (list char * Random)) :=
  if (length result <? len)%nat then
    match fuel with
    | O => None
    | S fuel' =>
        match getRandomValues (len - length result) rnd with
        | Throw e => Some (Throw e)
        | Val (array, rnd') =>
            generateLoop fuel' len (pushAccepted array len result) rnd'
        end
    end
  else Some (Val (result, rnd)).

Definition generateNonce (fuel : nat) (len : nat) (rnd : Random)
  : option (Exc (str * Random)) :=
  generateLoop fuel len [] rnd.

(** A byte is kept when it is below [maxValid]. *)
Definition accepted (b : byte) : bool := (Byte.to_N b <? maxValid)%N.

(** The accepted bytes among the first [k] bytes of the stream, in order. *)
Definition acceptedBytes (s : nat -> byte) (k : nat) : list byte :=
  List.filter accepted (s <$> seq 0 k).

End Nonce.

(** ** Signature verifier (verify.js) *)

Record VerifyOptions := mkOptions {
  opt_domain : option str;
  opt_nonce : option str;
  opt_skipTimeCheck : bool;
}.

Record VerificationResult := mkResult {
  success : bool;
  message : option SIWAMessage;
  error : option str;
}.

Module Verify.

Definition failure (e : str) : VerificationResult := mkResult false None (Some e).

(** [options?.domain], [options?.nonce], [options?.skipTimeCheck] *)
Definition option_domain (options : option VerifyOptions) : option str :=
  options ≫= opt_domain.
Definition option_nonce (options : option VerifyOptions) : option str :=
  options ≫= opt_nonce.
Definition option_skipTimeCheck (options : option VerifyOptions) : bool :=
  from_option opt_skipTimeCheck false options.

Section WithPlatform.
Context `{Platform}.

Definition isValidSolanaAddress (address : str) : bool :=
  match (pubkey ← PublicKey_new address; PublicKey_isOnCurve pubkey) with
  | Val b => b
  | Throw _ => false
  end.

Definition verifyEd25519Signature (message signature publicKey : list byte) : bool :=
  match nacl_sign_detached_verify message signature publicKey with
  | Val b => b
  | Throw _ => false
  end.

Definition verify (now : Z) (messageText signature publicKey : str)
    (options : option VerifyOptions) : Exc VerificationResult :=
  catch
    (match Codec.parseMessage messageText with
     | Throw e => Val (failure (js "Failed to parse message: " ++ e))
     | Val message =>
       if negb (isValidSolanaAddress publicKey) then
         Val (failure (js "Invalid Solana public key"))
       else if negb (streq (address message) publicKey) then
         Val (failure (js "Public key does not match message address"))
       else if truthy (option_domain options)
               && negb (streq (domain message) (default [] (option_domain options)))
       then
         Val (failure (js "Domain mismatch: expected "
                       ++ default [] (option_domain options)
                       ++ js ", got " ++ domain message))
       else if truthy (option_nonce options)
               && negb (streq (nonce message) (default [] (option_nonce options)))
       then
         Val (failure (js "Nonce mismatch"))
       else
         let timing :=
           if negb (option_skipTimeCheck options)
           then Timing.validateTiming now message
           else Timing.mkTiming true None in
         if negb (Timing.valid timing) then
           Val (mkResult false None (Timing.error timing))
         else
           let withSignature (signatureBytes : list byte) :=
             if negb (length signatureBytes =? 64)%nat then
               Val (failure (js "Invalid signature length: "
                             ++ js (pretty (N.of_nat (length signatureBytes)))
                             ++ js " (expected 64)"))
             else
               publicKeyBytes ← bs58_decode publicKey;
               let messageBytes := TextEncoder_encode messageText in
               if negb (verifyEd25519Signature messageBytes signatureBytes publicKeyBytes)
               then Val (failure (js "Signature verification failed"))
               else Val (mkResult true (Some message) None) in
           match bs58_decode signature with
           | Val signatureBytes => withSignature signatureBytes
           | Throw _ =>
               match Buffer_from_base64 signature with
               | Val signatureBytes => withSignature signatureBytes
               | Throw _ =>
                   Val (failure (js "Invalid signature encoding (expected base58 or base64)"))
               end
           end
     end)
    (fun e => Val (failure (js "Verification error: " ++ e))).

End WithPlatform.
End Verify.

(** ** The check sequence of [verify], as the specification words it

    Each check is the failure it reports, or [None] when it passes (or is
    switched off); the checks are listed in the specified order and the first
    failure wins. *)
Module VerifySpec.
Import Verify.
Section WithPlatform.
Context `{Platform}.
Variables (now : Z) (messageText signature publicKey : str)
          (options : option VerifyOptions).

Definition checkPublicKey : option VerificationResult :=
  if isValidSolanaAddress publicKey then None
  else Some (failure (js "Invalid Solana public key")).

Definition checkAddress (m : SIWAMessage) : option VerificationResult :=
  if bool_decide (address m = publicKey) then None
  else Some (failure (js "Public key does not match message address")).

Definition checkDomain (m : SIWAMessage) : option VerificationResult :=
  match option_domain options with
  | Some (c :: d) =>
      if bool_decide (domain m = c :: d) then None
      else Some (failure (js "Domain mismatch: expected " ++ (c :: d)
                          ++ js ", got " ++ domain m))
  | _ => None
  end.

Definition checkNonce (m : SIWAMessage) : option VerificationResult :=
  match option_nonce options with
  | Some (c :: n) =>
      if bool_decide (nonce m = c :: n) then None
      else Some (failure (js "Nonce mismatch"))
  | _ => None
  end.

Definition checkTiming (m : SIWAMessage) : option VerificationResult :=
  if option_skipTimeCheck options then None
  else
    let timing := Timing.validateTiming now m in
    if Timing.valid timing then None
    else Some (mkResult false None (Timing.error timing)).

(** Base58 first, base64 as the fallback. *)
Definition decodeSignature : Exc (list byte) :=
  catch (bs58_decode signature) (fun _ => Buffer_from_base64 signature).

Definition encodingError : str :=
  js "Invalid signature encoding (expected base58 or base64)".

Definition checkDecode : option VerificationResult :=
  match decodeSignature with
  | Val _ => None
  | Throw _ => Some (failure encodingError)
  end.

Definition lengthError (n : nat) : str :=
  js "Invalid signature length: " ++ js (pretty (N.of_nat n)) ++ js " (expected 64)".

Definition checkLength : option VerificationResult :=
  match decodeSignature with
  | Val bytes =>
      if bool_decide (length bytes = 64%nat) then None
      else Some (failure (lengthError (length bytes)))
  | Throw _ => None
  end.

(** Decoding the public key for the Ed25519 primitive; an exception here is
    caught by the outer handler. *)
Definition checkKeyBytes : option VerificationResult :=
  match bs58_decode publicKey with
  | Val _ => None
  | Throw e => Some (failure (js "Verification error: " ++ e))
  end.

Definition checkEd25519 : option VerificationResult :=
  match decodeSignature, bs58_decode publicKey with
  | Val signatureBytes, Val publicKeyBytes =>
      if verifyEd25519Signature (TextEncoder_encode messageText)
           signatureBytes publicKeyBytes
      then None
      else Some (failure (js "Signature verification failed"))
  | _, _ => None
  end.

Definition checks : list (option VerificationResult) :=
  match Codec.parseMessage messageText with
  | Throw e => [ Some (failure (js "Failed to parse message: " ++ e)) ]
  | Val m =>
      [ checkPublicKey; checkAddress m; checkDomain m; checkNonce m;
        checkTiming m; checkDecode; checkLength; checkKeyBytes; checkEd25519 ]
  end.

Fixpoint firstFailure (cs : list (option VerificationResult))
  : option VerificationResult :=
  match cs with
  | [] => None
  | Some r :: _ => Some r
  | None :: rest => firstFailure rest
  end.

Definition parsed : option SIWAMessage :=
  match Codec.parseMessage messageText with
  | Val m => Some m
  | Throw _ => None
  end.

Definition outcome : VerificationResult :=
  match firstFailure checks with
  | Some r => r
  | None => mkResult true parsed None
  end.

(** Every check before the signature is decoded passes. *)
Definition reachesDecoding : Prop :=
  exists m,
    Codec.parseMessage messageText = Val m
    /\ checkPublicKey = None
    /\ checkAddress m = None
    /\ checkDomain m = None
    /\ checkNonce m = None
    /\ checkTiming m = None.

(** The results [verify] can produce. *)
Inductive Outcome : VerificationResult -> Prop :=
| OParse e :
    Codec.parseMessage messageText = Throw e ->
    Outcome (failure (js "Failed to parse message: " ++ e))
| OPublicKey :
    Outcome (failure (js "Invalid Solana public key"))
| OAddress :
    Outcome (failure (js "Public key does not match message address"))
| ODomain m c d :
    option_domain options = Some (c :: d) -> domain m <> c :: d ->
    Outcome (failure (js "Domain mismatch: expected " ++ (c :: d) ++ js ", got " ++ domain m))
| ONonce m c n :
    option_nonce options = Some (c :: n) -> nonce m <> c :: n ->
    Outcome (failure (js "Nonce mismatch"))
| OTiming e :
    option_skipTimeCheck options = false ->
    startsWith (js "Message ") e = true ->
    Outcome (failure e)
| ODecode e1 e2 :
    bs58_decode signature = Throw e1 -> Buffer_from_base64 signature = Throw e2 ->
    Outcome (failure encodingError)
| OLength bytes :
    decodeSignature = Val bytes -> length bytes <> 64%nat ->
    Outcome (failure (lengthError (length bytes)))
| OKeyBytes e :
    Outcome (failure (js "Verification error: " ++ e))
| OEd25519 :
    Outcome (failure (js "Signature verification failed"))
| OSuccess m :
    Codec.parseMessage messageText = Val m ->
    Outcome (mkResult true (Some m) None).

End WithPlatform.
End VerifySpec.

(** ** Records kept by the stores ([packages/server], index.d.ts) *)

Record NonceData := mkNonceData {
  nd_pubkey : str;
  nd_message : str;
  nd_expiresAt : Z;
}.

Record SessionData := mkSessionData {
  sd_address : str;
  sd_expiresAt : Z;
  sd_scopes : option (list str);
  sd_message : option SIWAMessage;
}.

Record RateLimitData := mkRateLimitData {
  rl_count : Z;
  rl_windowStart : Z;
  rl_expiresAt : Z;
}.

(** Every stored record carries its [expiresAt]. *)
Class Expiring (V : Type) := expiresAt : V -> Z.
#[global] Instance NonceData_expiring : Expiring NonceData := nd_expiresAt.
#[global] Instance SessionData_expiring : Expiring SessionData := sd_expiresAt.
#[global] Instance RateLimitData_expiring : Expiring RateLimitData := rl_expiresAt.

(** ** In-memory stores

    A store is its [Map] and the [setTimeout] callbacks that are still
    pending, each with the key it will delete and the instant it is due.  The
    event loop runs a callback some time after it is due, never before, and
    never in the middle of a chain of awaited store calls. *)

Module Memory.

Record Store (V : Type) := mkStore {
  entries : gmap str V;
  timers : list (Z * str);
}.
Arguments mkStore {V} entries timers.
Arguments entries {V} s.
Arguments timers {V} s.

Definition empty {V} : Store V := mkStore ∅ [].

(** The delay [setTimeout] really uses: anything outside [1 .. 2^31-1] is
    replaced by 1 (Node.js). *)
Definition timeoutDelay (delay : Z) : Z :=
  if (1 <=? delay)%Z && (delay <=? 2147483647)%Z then delay else 1%Z.

(** [setTimeout(() => this.store.delete(key), delay)] *)
Definition setTimeout_delete {V} (key : str) (delay : Z) (now : Z) (s : Store V)
  : Store V :=
  mkStore (entries s) (timers s ++ [((now + timeoutDelay delay)%Z, key)]).

(** The event loop runs the callbacks that are due at [now]. *)
Definition runTimers {V} (now : Z) (s : Store V) : Store V :=
  mkStore
    (fold_left (fun m t => if (fst t <=? now)%Z then delete (snd t) m else m)
       (timers s) (entries s))
    (List.filter (fun t => negb (fst t <=? now)%Z) (timers s)).

(** [this.store.delete(key)] *)
Definition delete_ {V} (key : str) (s : Store V) : Store V :=
  mkStore (delete key (entries s)) (timers s).

(** *** The stores of [packages/server/dist/index.js] *)
Module Legacy.

(** [set]: store, and schedule the clean-up. *)
Definition set {V} `{Expiring V} (key : str) (data : V) (now : Z) (s : Store V)
  : Store V :=
  setTimeout_delete key (expiresAt data - now) now
    (mkStore (<[key := data]> (entries s)) (timers s)).

(** [InMemoryNonceStore.get]: [this.store.get(nonce) ?? null] *)
Definition nonce_get (nonce : str) (s : Store NonceData) : option NonceData :=
  entries s !! nonce.

(** [InMemorySessionStore.get] *)
Definition session_get (token : str) (now : Z) (s : Store SessionData)
  : option SessionData * Store SessionData :=
  match entries s !! token with
  | Some session =>
      if (sd_expiresAt session <? now)%Z then (None, delete_ token s)
      else (Some session, s)
  | None => (None, s)
  end.

End Legacy.

(** *** The stores of the server module with rate limiting *)

(** [set]: already-expired records are not stored. *)
Definition set {V} `{Expiring V} (key : str) (data : V) (now : Z) (s : Store V)
  : Store V :=
  let delay := (expiresAt data - now)%Z in
  if (delay <=? 0)%Z then s
  else setTimeout_delete key delay now
         (mkStore (<[key := data]> (entries s)) (timers s)).

(** [get] of the three in-memory stores: an expired record is deleted and
    reads as [null]. *)
Definition get {V} `{Expiring V} (key : str) (now : Z) (s : Store V)
  : option V * Store V :=
  match entries s !! key with
  | None => (None, s)
  | Some data =>
      if (expiresAt data <? now)%Z then (None, delete_ key s)
      else (Some data, s)
  end.

(** [InMemoryNonceStore.deleteAndGet] *)
Definition deleteAndGet (nonce : str) (now : Z) (s : Store NonceData)
  : option NonceData * Store NonceData :=
  match entries s !! nonce with
  | None => (None, s)
  | Some data =>
      if (nd_expiresAt data <? now)%Z then (None, delete_ nonce s)
      else (Some data, delete_ nonce s)
  end.

End Memory.

(** ** The Redis server (model)

    The commands of the [RedisClient] interface that the stores use.  A key
    holds a value and the instant at which it expires; an expired key is
    invisible to every command.  Each command is atomic.  A value written by
    a store is the JSON text of a record, identified here with the record
    itself ([JSON.parse] undoes [JSON.stringify] on these records, the dates
    travelling as ISO strings with millisecond precision). *)

Module Redis.

Abbreviation Db V := (gmap str (V * Z)).

Definition GET {V} (key : str) (now : Z) (db : Db V) : option V :=
  match db !! key with
  | Some (v, expiry) => if (now <? expiry)%Z then Some v else None
  | None => None
  end.

Definition EXISTS {V} (key : str) (now : Z) (db : Db V) : bool :=
  match GET key now db with Some _ => true | None => false end.

Definition SETEX {V} (key : str) (seconds : Z) (v : V) (now : Z) (db : Db V) : Db V :=
  <[key := (v, (now + seconds * 1000)%Z)]> db.

Definition DEL {V} (key : str) (db : Db V) : Db V := delete key db.

(** No key outlives the record it holds. *)
Definition wellTimed {V} `{Expiring V} (db : Db V) : Prop :=
  forall key v expiry, db !! key = Some (v, expiry) -> (expiry <= expiresAt v)%Z.

(** *** The Redis-backed stores (redis.ts) *)

Section Store.
Context {V : Type} `{Expiring V}.
Variable keyPrefix : str.

Definition getKey (token : str) : str := keyPrefix ++ token.

(** [Math.floor((expiresAt.getTime() - Date.now()) / 1000)] *)
Definition ttlSeconds (data : V) (now : Z) : Z := ((expiresAt data - now) / 1000)%Z.

Definition set (token : str) (data : V) (now : Z) (db : Db V) : Db V :=
  if (ttlSeconds data now <=? 0)%Z then db
  else SETEX (getKey token) (ttlSeconds data now) data now db.

Definition get (token : str) (now : Z) (db : Db V) : option V :=
  GET (getKey token) now db.

Definition delete_ (token : str) (db : Db V) : Db V := DEL (getKey token) db.

End Store.

(** [RedisNonceStore.deleteAndGet], run without interruption: a [get], then
    a [delete] when something was found. *)
Definition deleteAndGet (keyPrefix : str) (nonce : str) (now : Z) (db : Db NonceData)
  : option NonceData * Db NonceData :=
  match get keyPrefix nonce now db with
  | Some data => (Some data, delete_ keyPrefix nonce db)
  | None => (None, db)
  end.

Record RateLimitResult := mkRateLimitResult {
  allowed : bool;
  count : Z;
  resetTime : Z;
}.

(** [RedisRateLimitStore.increment].  The retry [return this.increment(...)]
    is the recursive call; [fuel] bounds the retries. *)
Fixpoint increment (fuel : nat) (keyPrefix : str) (identifier : str)
    (windowMinutes maxRequests : Z) (now : Z) (db : Db RateLimitData)
  : option (RateLimitResult * Db RateLimitData) :=
  let windowMs := (windowMinutes * 60 * 1000)%Z in
  let windowStart := (now - windowMs)%Z in
  if negb (EXISTS (getKey keyPrefix identifier) now db) then
    let resetTime := (now + windowMs)%Z in
    Some (mkRateLimitResult true 1 resetTime,
          set keyPrefix identifier (mkRateLimitData 1 now resetTime) now db)
  else
    match get keyPrefix identifier now db with
    | None =>
        match fuel with
        | O => None
        | S fuel' =>
            increment fuel' keyPrefix identifier windowMinutes maxRequests now db
        end
    | Some data =>
        if (windowStart <=? rl_windowStart data)%Z then
          if (maxRequests <=? rl_count data)%Z then
            Some (mkRateLimitResult false (rl_count data) (rl_expiresAt data), db)
          else
            let newData :=
              mkRateLimitData (rl_count data + 1) (rl_windowStart data)
                (rl_expiresAt data) in
            Some (mkRateLimitResult true (rl_count newData) (rl_expiresAt data),
                  set keyPrefix identifier newData now db)
        else
          let resetTime := (now + windowMs)%Z in
          Some (mkRateLimitResult true 1 resetTime,
                set keyPrefix identifier (mkRateLimitData 1 now resetTime) now db)
    end.

End Redis.

(** [increment] called at each of the given instants in turn; the results. *)
Fixpoint incrementAt (keyPrefix identifier : str) (windowMinutes maxRequests : Z)
    (times : list Z) (db : Redis.Db RateLimitData)
  : list (option (bool * Z)) :=
  match times with
  | [] => []
  | now :: rest =>
      match Redis.increment 1 keyPrefix identifier windowMinutes maxRequests now db with
      | Some (r, db') =>
          Some (Redis.allowed r, Redis.count r)
          :: incrementAt keyPrefix identifier windowMinutes maxRequests rest db'
      | None => [None]
      end
  end.

(** *** The fixed-window counter, as the specification words it *)

Section FixedWindow.
Variables (keyPrefix identifier : str) (windowMinutes maxRequests : Z).
Variable start : Z.

(** The window opened at [start] is on record with [c] requests counted, and
    its key lives into the last second of the window. *)
Definition windowOpen (c : Z) (db : Redis.Db RateLimitData) : Prop :=
  exists expiry,
    db !! Redis.getKey keyPrefix identifier
    = Some (mkRateLimitData c start (start + windowMinutes * 60 * 1000), expiry)
    /\ (start + windowMinutes * 60 * 1000 - 1000 < expiry)%Z.

(** What the counter answers to one more request once [c] are counted. *)
Definition answer (c : Z) : bool * Z :=
  if (maxRequests <=? c)%Z then (false, c) else (true, (c + 1)%Z).

Definition counted (c : Z) : Z :=
  if (maxRequests <=? c)%Z then c else (c + 1)%Z.

(** The answers to a run of [n] requests. *)
Fixpoint answers (c : Z) (n : nat) : list (option (bool * Z)) :=
  match n with
  | O => []
  | S n' => Some (answer c) :: answers (counted c) n'
  end.

End FixedWindow.

(** ** [createMessage] (message.js) *)

Record MessageParams := mkParams {
  p_domain : str;
  p_address : str;
  p_uri : str;
  p_chainId : option str;
  p_statement : option str;
  p_nonce : str;
  p_expirationMinutes : option Z;
  p_resources : option (list str);
  p_requestId : option str;
}.

Section CreateMessage.
Context `{Platform}.

(** The nonce is always supplied by the callers modelled here, so the
    default [generateNonce()] is not drawn. *)
Definition createMessage (now : Z) (params : MessageParams) : Exc SIWAMessage :=
  if negb (Codec.isValidDomain (p_domain params)) then
    Throw (js "Invalid domain format")
  else if negb (URL_parses (p_uri params)) then
    Throw (js "Invalid URI format")
  else if negb (Codec.isValidSolanaAddress (p_address params)) then
    Throw (js "Invalid Solana address format")
  else
    let expirationMinutes := default 5%Z (p_expirationMinutes params) in
    let expiresAt := (now + expirationMinutes * 60 * 1000)%Z in
    Val {| domain := p_domain params;
           address := p_address params;
           uri := p_uri params;
           version := js "1";
           chainId := default (js "mainnet-beta") (p_chainId params);
           nonce := p_nonce params;
           issuedAt := Date_toISOString now;
           expirationTime := Some (Date_toISOString expiresAt);
           statement := p_statement params;
           resources := p_resources params;
           requestId := p_requestId params;
           notBefore := None |}.

End CreateMessage.

(** ** The server ([SIWAServer]) *)

Record ServerOptions := mkServer {
  srv_domain : str;
  srv_uri : str;
  challengeExpirationMinutes : Z;
  sessionExpirationMinutes : Z;
  srv_statement : option str;
  srv_resources : option (list str);
  rateLimit : bool;
  maxRequests : Z;
  windowMinutes : Z;
}.

Record Challenge := mkChallenge {
  challengeId : str;
  ch_message : str;
  messageHash : str;
  ch_expiresAt : str;
}.

Record Session := mkSession {
  token : str;
  s_address : str;
  s_expiresAt : str;
  scopes : option (list str);
}.

(** The state of a server that runs on the in-memory stores. *)
Record ServerState := mkState {
  nonceStore : Memory.Store NonceData;
  sessionStore : Memory.Store SessionData;
  rateLimitStore : Memory.Store RateLimitData;
}.

Definition initialState : ServerState :=
  mkState Memory.empty Memory.empty Memory.empty.

Section ServerCommon.
Context `{Platform}.
Variable server : ServerOptions.

(** [generateSessionToken]: ["siwa_"] and 32 random bytes in base64url. *)
Definition generateSessionToken (random32 : list byte) : str :=
  js "siwa_" ++ base64url random32.

(** What [createChallenge] does once the nonce is drawn; shared by both
    builds of the server. *)
Definition issueChallenge
    (setNonce : str -> NonceData -> Z -> Memory.Store NonceData -> Memory.Store NonceData)
    (now : Z) (nonce : str) (pubkey : str) (st : ServerState)
  : Exc Challenge * ServerState :=
  match createMessage now
          {| p_domain := srv_domain server;
             p_address := pubkey;
             p_uri := srv_uri server;
             p_chainId := None;
             p_statement := srv_statement server;
             p_resources := srv_resources server;
             p_nonce := nonce;
             p_expirationMinutes := Some (challengeExpirationMinutes server);
             p_requestId := None |} with
  | Throw e => (Throw e, st)
  | Val message =>
      let messageText := Codec.serializeMessage message in
      let expiresAt := (now + challengeExpirationMinutes server * 60 * 1000)%Z in
      let st' :=
        mkState (setNonce nonce (mkNonceData pubkey messageText expiresAt) now
                   (nonceStore st))
                (sessionStore st) (rateLimitStore st) in
      (Val {| challengeId := js "ch_" ++ take 16 (sha256_base64url nonce);
              ch_message := messageText;
              messageHash := sha256_base64url messageText;
              ch_expiresAt := Date_toISOString expiresAt |},
       st')
  end.

(** The session written and returned after the nonce check. *)
Definition openSession
    (setSession : str -> SessionData -> Z -> Memory.Store SessionData
                  -> Memory.Store SessionData)
    (now : Z) (random32 : list byte) (pubkey : str) (siwaMessage : SIWAMessage)
    (st : ServerState) : Exc Session * ServerState :=
  let token := generateSessionToken random32 in
  let expiresAt := (now + sessionExpirationMinutes server * 60 * 1000)%Z in
  let sessionData :=
    mkSessionData pubkey expiresAt (resources siwaMessage) (Some siwaMessage) in
  (Val {| token := token;
          s_address := pubkey;
          s_expiresAt := Date_toISOString expiresAt;
          scopes := resources siwaMessage |},
   mkState (nonceStore st) (setSession token sessionData now (sessionStore st))
     (rateLimitStore st)).

(** [await verify(message, signature, pubkey, { domain: this.domain })] and
    the [throw] on failure. *)
Definition verified (now : Z) (messageText pubkey signature : str)
  : Exc SIWAMessage :=
  result ← Verify.verify now messageText signature pubkey
             (Some (mkOptions (Some (srv_domain server)) None false));
  if negb (success result) then
    Throw (default (js "Verification failed") (error result))
  else
    match message result with
    | Some siwaMessage => Val siwaMessage
    | None => Throw (js "Cannot read properties of undefined (reading 'nonce')")
    end.

(** [revokeSession], the same in both builds. *)
Definition revokeSession (token : str) (st : ServerState) : ServerState :=
  mkState (nonceStore st) (Memory.delete_ token (sessionStore st))
    (rateLimitStore st).

(** The event loop runs the due clean-up callbacks of every store. *)
Definition runTimers (now : Z) (st : ServerState) : ServerState :=
  mkState (Memory.runTimers now (nonceStore st))
    (Memory.runTimers now (sessionStore st))
    (Memory.runTimers now (rateLimitStore st)).

End ServerCommon.

(** *** [packages/server/dist/index.js] *)
Module LegacyServer.
Section WithServer.
Context `{Platform}.
Variable server : ServerOptions.

(** [createChallenge(pubkey)]; [None] while [generateNonce] is still
    drawing. *)
Definition createChallenge (now : Z) (fuel : nat) (rnd : Nonce.Random)
    (pubkey : str) (st : ServerState)
  : option (Exc Challenge * ServerState * Nonce.Random) :=
  if negb (Verify.isValidSolanaAddress pubkey) then
    Some (Throw (js "Invalid Solana public key"), st, rnd)
  else
    match Nonce.generateNonce fuel 32 rnd with
    | None => None
    | Some (Throw e) => Some (Throw e, st, rnd)
    | Some (Val (nonce, rnd')) =>
        let '(r, st') := issueChallenge server Memory.Legacy.set now nonce pubkey st in
        Some (r, st', rnd')
    end.

Definition verifySignature (now : Z) (random32 : list byte)
    (message pubkey signature : str) (st : ServerState)
  : Exc Session * ServerState :=
  match verified server now message pubkey signature with
  | Throw e => (Throw e, st)
  | Val siwaMessage =>
      match Memory.Legacy.nonce_get (nonce siwaMessage) (nonceStore st) with
      | None => (Throw (js "Invalid or expired nonce"), st)
      | Some nonceData =>
          if negb (streq (nd_pubkey nonceData) pubkey) then
            (Throw (js "Public key mismatch"), st)
          else
            let st1 :=
              mkState (Memory.delete_ (nonce siwaMessage) (nonceStore st))
                (sessionStore st) (rateLimitStore st) in
            openSession server Memory.Legacy.set now random32 pubkey siwaMessage st1
      end
  end.

Definition validateSession (now : Z) (token : str) (st : ServerState)
  : option SessionData * ServerState :=
  let '(r, ss) := Memory.Legacy.session_get token now (sessionStore st) in
  (r, mkState (nonceStore st) ss (rateLimitStore st)).

End WithServer.
End LegacyServer.

(** *** The server module with rate limiting and atomic consume *)
Module Server.
Section WithServer.
Context `{Platform}.
Variable server : ServerOptions.

Definition checkRateLimit (now : Z) (identifier : str) (st : ServerState)
  : bool * ServerState :=
  if negb (rateLimit server) then (true, st) else
  let windowStart := (now - windowMinutes server * 60 * 1000)%Z in
  let '(existing, rl) := Memory.get identifier now (rateLimitStore st) in
  let store data :=
    mkState (nonceStore st) (sessionStore st) (Memory.set identifier data now rl) in
  let fresh :=
    mkRateLimitData 1 now (now + windowMinutes server * 60 * 1000)%Z in
  match existing with
  | None => (true, store fresh)
  | Some existing =>
      if (windowStart <=? rl_windowStart existing)%Z then
        if (maxRequests server <=? rl_count existing)%Z then
          (false, mkState (nonceStore st) (sessionStore st) rl)
        else
          (true, store (mkRateLimitData (rl_count existing + 1)
                          (rl_windowStart existing) (rl_expiresAt existing)))
      else (true, store fresh)
  end.

Definition createChallenge (now : Z) (fuel : nat) (rnd : Nonce.Random)
    (pubkey : str) (clientIdentifier : option str) (st : ServerState)
  : option (Exc Challenge * ServerState * Nonce.Random) :=
  let '(allowed, st0) :=
    match clientIdentifier with
    | Some (c :: id) =>
        if rateLimit server then checkRateLimit now (c :: id) st else (true, st)
    | _ => (true, st)
    end in
  if negb allowed then
    Some (Throw (js "Rate limit exceeded: max "
                 ++ js (pretty (maxRequests server)) ++ js " requests per "
                 ++ js (pretty (windowMinutes server)) ++ js " minutes"),
          st0, rnd)
  else if negb (Verify.isValidSolanaAddress pubkey) then
    Some (Throw (js "Invalid Solana public key"), st0, rnd)
  else
    match Nonce.generateNonce fuel 32 rnd with
    | None => None
    | Some (Throw e) => Some (Throw e, st0, rnd)
    | Some (Val (nonce, rnd')) =>
        let '(r, st') := issueChallenge server Memory.set now nonce pubkey st0 in
        Some (r, st', rnd')
    end.

Definition verifySignature (now : Z) (random32 : list byte)
    (message pubkey signature : str) (st : ServerState)
  : Exc Session * ServerState :=
  match verified server now message pubkey signature with
  | Throw e => (Throw e, st)
  | Val siwaMessage =>
      let '(nonceData, ns) :=
        Memory.deleteAndGet (nonce siwaMessage) now (nonceStore st) in
      let st1 := mkState ns (sessionStore st) (rateLimitStore st) in
      match nonceData with
      | None => (Throw (js "Invalid or expired nonce"), st1)
      | Some nonceData =>
          if negb (streq (nd_pubkey nonceData) pubkey) then
            (Throw (js "Public key mismatch"), st1)
          else openSession server Memory.set now random32 pubkey siwaMessage st1
      end
  end.

Definition validateSession (now : Z) (token : str) (st : ServerState)
  : option SessionData * ServerState :=
  let '(r, ss) := Memory.get token now (sessionStore st) in
  (r, mkState (nonceStore st) ss (rateLimitStore st)).

End WithServer.
End Server.

(** ** Runs of a server

    The calls a server receives one after the other, and the turns of the
    event loop in between. *)

Inductive Op :=
| CreateChallenge (now : Z) (fuel : nat) (rnd : Nonce.Random) (pubkey : str)
    (clientIdentifier : option str)
| VerifySignature (now : Z) (random32 : list byte) (message pubkey signature : str)
| ValidateSession (now : Z) (token : str)
| RevokeSession (token : str)
| RunTimers (now : Z).

(** The nonce a call hands out, if it is a [createChallenge] whose nonce
    generator returns. *)
Definition issuedNonce (op : Op) : option str :=
  match op with
  | CreateChallenge _ fuel rnd _ _ =>
      match Nonce.generateNonce fuel 32 rnd with
      | Some (Val (nonce, _)) => Some nonce
      | _ => None
      end
  | _ => None
  end.

Section Runs.
Context `{Platform}.
Variable server : ServerOptions.

Definition legacyStep (st : ServerState) (op : Op) : ServerState :=
  match op with
  | CreateChallenge now fuel rnd pubkey _ =>
      match LegacyServer.createChallenge server now fuel rnd pubkey st with
      | Some (_, st', _) => st'
      | None => st
      end
  | VerifySignature now random32 message pubkey signature =>
      snd (LegacyServer.verifySignature server now random32 message pubkey signature st)
  | ValidateSession now token => snd (LegacyServer.validateSession now token st)
  | RevokeSession token => revokeSession token st
  | RunTimers now => runTimers now st
  end.

Definition serverStep (st : ServerState) (op : Op) : ServerState :=
  match op with
  | CreateChallenge now fuel rnd pubkey clientIdentifier =>
      match Server.createChallenge server now fuel rnd pubkey clientIdentifier st with
      | Some (_, st', _) => st'
      | None => st
      end
  | VerifySignature now random32 message pubkey signature =>
      snd (Server.verifySignature server now random32 message pubkey signature st)
  | ValidateSession now token => snd (Server.validateSession now token st)
  | RevokeSession token => revokeSession token st
  | RunTimers now => runTimers now st
  end.

End Runs.

(** The nonce is absent from the nonce [Map]. *)
Definition consumed (N : str) (st : ServerState) : Prop :=
  Memory.entries (nonceStore st) !! N = None.

(** ** Concurrent calls of [verifySignature]

    JavaScript runs one task at a time, and a call gives way to the others at
    each [await].  A call of [verifySignature] whose signature check has
    passed is a thread; one step of a thread runs it from one [await] on the
    nonce or session store to the next.  A schedule says which thread moves
    next. *)

Module Race.

(** The call: the parsed message, the key presented, and the random bytes of
    its session token. *)
Record Call := mkCall {
  c_message : SIWAMessage;
  c_pubkey : str;
  c_random32 : list byte;
}.

Inductive Thread :=
| Consuming (c : Call)                       (* about to read the nonce *)
| Deleting (c : Call) (nonceData : NonceData) (* read done, delete pending *)
| Writing (c : Call)                         (* nonce accepted, session write pending *)
| Done (result : Exc Session).

(** The Redis server behind the nonce and the session store, with the
    default key prefixes. *)
Record RedisState := mkRedis {
  nonces : Redis.Db NonceData;
  sessions : Redis.Db SessionData;
}.

Definition noncePrefix : str := js "siwa:nonce:".
Definition sessionPrefix : str := js "siwa:session:".

Definition succeeded (t : Thread) : bool :=
  match t with Done (Val _) => true | _ => false end.

Definition rejectedNonce (t : Thread) : bool :=
  match t with
  | Done (Throw e) => streq e (js "Invalid or expired nonce")
  | _ => false
  end.

(** Two calls present the same message under the key the nonce was issued
    to. *)
Record Racing (c1 c2 : Call) (nonceData : NonceData) : Prop := {
  same_nonce : nonce (c_message c1) = nonce (c_message c2);
  key_first : nd_pubkey nonceData = c_pubkey c1;
  key_second : nd_pubkey nonceData = c_pubkey c2;
}.

(** The call has taken the nonce. *)
Definition won (t : Thread) : bool :=
  match t with Writing _ | Done (Val _) => true | _ => false end.

(** Still to read the nonce [N], or turned away because it was gone. *)
Definition waitingOrRejected (N : str) (t : Thread) : Prop :=
  (exists c, t = Consuming c /\ nonce (c_message c) = N)
  \/ t = Done (Throw (js "Invalid or expired nonce")).

(** Either no call has read the nonce yet, or exactly one has taken it. *)
Definition raceInv (c1 c2 : Call) (nonceData : NonceData)
    (w : Thread * Thread * ServerState) : Prop :=
  let '(a, b, st) := w in
  let N := nonce (c_message c1) in
  (a = Consuming c1 /\ b = Consuming c2
   /\ Memory.entries (nonceStore st) !! N = Some nonceData)
  \/ (Memory.entries (nonceStore st) !! N = None
      /\ ((won a = true /\ waitingOrRejected N b)
          \/ (won b = true /\ waitingOrRejected N a))).

Section WithServer.
Context `{Platform}.
Variable server : ServerOptions.

(** [if (!nonceData) throw ...; if (nonceData.pubkey !== pubkey) throw ...] *)
Definition checkNonceData (c : Call) (nonceData : option NonceData) : Thread :=
  match nonceData with
  | None => Done (Throw (js "Invalid or expired nonce"))
  | Some nonceData =>
      if negb (streq (nd_pubkey nonceData) (c_pubkey c))
      then Done (Throw (js "Public key mismatch"))
      else Writing c
  end.

Definition sessionOf (now : Z) (c : Call) : Session * SessionData :=
  let expiresAt := (now + sessionExpirationMinutes server * 60 * 1000)%Z in
  ({| token := generateSessionToken (c_random32 c);
      s_address := c_pubkey c;
      s_expiresAt := Date_toISOString expiresAt;
      scopes := resources (c_message c) |},
   mkSessionData (c_pubkey c) expiresAt (resources (c_message c))
     (Some (c_message c))).

(** *** On the in-memory stores: [deleteAndGet] is one step *)

Definition memoryStep (now : Z) (t : Thread) (st : ServerState)
  : Thread * ServerState :=
  match t with
  | Consuming c =>
      let '(nonceData, ns) :=
        Memory.deleteAndGet (nonce (c_message c)) now (nonceStore st) in
      (checkNonceData c nonceData,
       mkState ns (sessionStore st) (rateLimitStore st))
  | Deleting c _ => (t, st)   (* not a phase of this store *)
  | Writing c =>
      let '(session, sessionData) := sessionOf now c in
      (Done (Val session),
       mkState (nonceStore st)
         (Memory.set (token session) sessionData now (sessionStore st))
         (rateLimitStore st))
  | Done _ => (t, st)
  end.

(** *** On the Redis stores: [deleteAndGet] awaits [get], then [delete] *)

Definition redisStep (now : Z) (t : Thread) (st : RedisState)
  : Thread * RedisState :=
  match t with
  | Consuming c =>
      match Redis.get noncePrefix (nonce (c_message c)) now (nonces st) with
      | Some nonceData => (Deleting c nonceData, st)
      | None => (checkNonceData c None, st)
      end
  | Deleting c nonceData =>
      (checkNonceData c (Some nonceData),
       mkRedis (Redis.delete_ noncePrefix (nonce (c_message c)) (nonces st))
         (sessions st))
  | Writing c =>
      let '(session, sessionData) := sessionOf now c in
      (Done (Val session),
       mkRedis (nonces st)
         (Redis.set sessionPrefix (token session) sessionData now (sessions st)))
  | Done _ => (t, st)
  end.

(** *** Two calls and a schedule *)

(** [true] moves the first call, [false] the second. *)
Definition runTwo {S} (step : Z -> Thread -> S -> Thread * S) (now : Z)
    (schedule : list bool) (a b : Thread) (st : S) : Thread * Thread * S :=
  fold_left
    (fun w (first : bool) =>
       let '(a, b, st) := w in
       if first then let '(a', st') := step now a st in (a', b, st')
       else let '(b', st') := step now b st in (a, b', st'))
    schedule (a, b, st).

End WithServer.
End Race.

(** ** A test double for the platform

    Enough of the platform to run the model on concrete inputs: a few
    instants of [Date], base58 on strings of ['1'] (each ['1'] is a zero
    byte), and an Ed25519 check that accepts exactly the all-zero signature. *)
Module Stub.

Definition dates : list (str * Z) :=
  [ (js "2026-02-01T12:00:00.000Z", 1769947200000%Z);
    (js "2026-02-01T12:05:00.000Z", 1769947500000%Z);
    (js "2026-02-01T12:10:00.000Z", 1769947800000%Z);
    (js "2026-02-01T13:00:00.000Z", 1769950800000%Z);
    (js "2026-02-01T13:00:01.000Z", 1769950801000%Z) ].

Definition parseDate (text : str) : option Z :=
  snd <$> List.find (fun e => streq (fst e) text) dates.

Definition toISOString (ms : Z) : str :=
  default [] (fst <$> List.find (fun e => (snd e =? ms)%Z) dates).

Definition allOnes (text : str) : bool := forallb (fun c => (c =? 49)%N) text.

Definition decode58 (text : str) : Exc (list byte) :=
  if allOnes text then Val (repeat x00 (length text))
  else Throw (js "Non-base58 character").

Definition publicKey (text : str) : Exc (list byte) :=
  if allOnes text && (length text =? 32)%nat then Val (repeat x00 32)
  else Throw (js "Invalid public key input").

#[global] Instance platform : Platform := {|
  Date_parse := parseDate;
  Date_toISOString := toISOString;
  URL_parses := startsWith (js "https://");
  PublicKey_new := publicKey;
  PublicKey_isOnCurve := fun _ => Val true;
  bs58_decode := decode58;
  Buffer_from_base64 := fun _ => Val [];
  TextEncoder_encode := fun text => [];
  nacl_sign_detached_verify := fun _ signature _ =>
    Val (forallb (Byte.eqb x00) signature && (length signature =? 64)%nat);
  sha256_base64url := fun text => text;
  base64url := fun bytes => (fun b => Byte.to_N b) <$> bytes;
|}.

End Stub.

(** ** Concrete inputs

    The data of the examples, witnesses and counterexamples below, run on the
    test double. *)
Module Demo.

(** 2026-02-01T12:00:00.000Z *)
Definition noon : Z := 1769947200000.

Definition pubkey : str := js "11111111111111111111111111111111".

(** 64 zero bytes in base58. *)
Definition signature : str := repeat 49%N 64.

Definition server : ServerOptions :=
  {| srv_domain := js "example.com";
     srv_uri := js "https://example.com/auth";
     challengeExpirationMinutes := 5;
     sessionExpirationMinutes := 60;
     srv_statement := Some (js "Sign in to Example App");
     srv_resources := None;
     rateLimit := true;
     maxRequests := 10;
     windowMinutes := 15 |}.

(** A random source that delivers zero bytes: the nonce is 32 ['A']s. *)
Definition zeros : Nonce.Random := Nonce.mkRandom (fun _ => x00) 0.

Definition nonceA : str := repeat 65%N 32.

(** The message of the challenge issued at noon. *)
Definition challengeMessage : SIWAMessage :=
  {| domain := js "example.com";
     address := pubkey;
     statement := Some (js "Sign in to Example App");
     uri := js "https://example.com/auth";
     version := js "1";
     chainId := js "mainnet-beta";
     nonce := nonceA;
     issuedAt := js "2026-02-01T12:00:00.000Z";
     expirationTime := Some (js "2026-02-01T12:05:00.000Z");
     notBefore := None;
     requestId := None;
     resources := None |}.

Definition challengeText : str := Codec.serializeMessage challengeMessage.

(** The legacy server after it has issued the challenge at noon. *)
Definition issued : ServerState :=
  match LegacyServer.createChallenge server noon 1 zeros pubkey initialState with
  | Some (_, st, _) => st
  | None => initialState
  end.

Definition random32 : list byte := repeat x2a 32.

(** ... and after it has verified the signed challenge one second later. *)
Definition verifiedOnce : Exc Session * ServerState :=
  LegacyServer.verifySignature server (noon + 1000) random32
    challengeText pubkey signature issued.

Definition afterVerify : ServerState := snd verifiedOnce.

Definition session : Session :=
  match fst verifiedOnce with
  | Val s => s
  | Throw _ => mkSession [] [] [] None
  end.

(** A message whose statement ends with a space. *)
Definition paddedStatement : SIWAMessage :=
  {| domain := js "example.com";
     address := js "DRpbCBMxVnDK7maPM5tGv6MvB3v1sRMC86PZ8okm21hy";
     statement := Some (js "Sign in to Example App ");
     uri := js "https://example.com/auth";
     version := js "1";
     chainId := js "mainnet-beta";
     nonce := js "abc123";
     issuedAt := js "2026-02-01T12:00:00.000Z";
     expirationTime := Some (js "2026-02-01T12:05:00.000Z");
     notBefore := None;
     requestId := None;
     resources := None |}.

(** A message with every optional part. *)
Definition fullMessage : SIWAMessage :=
  {| domain := js "example.com";
     address := js "DRpbCBMxVnDK7maPM5tGv6MvB3v1sRMC86PZ8okm21hy";
     statement := Some (js "Sign in to Example App");
     uri := js "https://example.com/auth";
     version := js "1";
     chainId := js "mainnet-beta";
     nonce := js "abc123";
     issuedAt := js "2026-02-01T12:00:00.000Z";
     expirationTime := Some (js "2026-02-01T12:05:00.000Z");
     notBefore := Some (js "2026-02-01T12:00:00.000Z");
     requestId := Some (js "req-123");
     resources := Some [js "https://api.example.com"; js "https://data.example.com"] |}.

End Demo.

(** ** Auxiliary definitions of the proofs *)

Definition noColon (k : str) : bool := forallb (fun c => negb (c =? 58)%N) k.

(** The content of [canonical], field by field. *)
Record Canonical (m : SIWAMessage) : Prop := {
  c_domain_ne : nonEmpty (domain m) = true;
  c_domain_lt : noLineTerminator (domain m) = true;
  c_address_ne : nonEmpty (address m) = true;
  c_address_lf : noLF (address m) = true;
  c_address_trim : trim (address m) = address m;
  c_statement : statementOk (statement m) = true;
  c_uri : valueOk (uri m) = true;
  c_version : valueOk (version m) = true;
  c_chainId : valueOk (chainId m) = true;
  c_nonce : valueOk (nonce m) = true;
  c_issuedAt : valueOk (issuedAt m) = true;
  c_expirationTime : optValueOk (expirationTime m) = true;
  c_notBefore : optValueOk (notBefore m) = true;
  c_requestId : optValueOk (requestId m) = true;
  c_resources : resourcesOk (resources m) = true;
}.

Definition optInsert (k : str) (o : option str) (f : gmap str str) : gmap str str :=
  match o with Some v => <[k := v]> f | None => f end.

(** The field map the parser builds from a canonical message. *)
Definition fieldsOf (m : SIWAMessage) : gmap str str :=
  optInsert (js "Request ID") (requestId m)
    (optInsert (js "Not Before") (notBefore m)
      (optInsert (js "Expiration Time") (expirationTime m)
        (<[js "Issued At" := issuedAt m]>
          (<[js "Nonce" := nonce m]>
            (<[js "Chain ID" := chainId m]>
              (<[js "Version" := version m]>
                (<[js "URI" := uri m]> ∅))))))).

(** The serialized lines from ["URI: ..."] on. *)
Definition fieldBlock (m : SIWAMessage) : list str :=
  [ js "URI: " ++ uri m;
    js "Version: " ++ version m;
    js "Chain ID: " ++ chainId m;
    js "Nonce: " ++ nonce m;
    js "Issued At: " ++ issuedAt m ]
  ++ Codec.optionalLine (js "Expiration Time: ") (expirationTime m)
  ++ Codec.optionalLine (js "Not Before: ") (notBefore m)
  ++ Codec.optionalLine (js "Request ID: ") (requestId m)
  ++ match resources m with
     | Some (r :: rs) =>
         js "Resources:" :: ((fun resource => js "- " ++ resource) <$> (r :: rs))
     | _ => []
     end.

(** ** [verifySignatureOnly] (verify.js) *)

Module SignatureOnly.
Section WithPlatform.
Context `{Platform}.

(** Each argument is a string ([inl]) or a [Uint8Array] ([inr]).  Whatever
    is thrown on the way is caught and gives [false]. *)
Definition verifySignatureOnly (message signature publicKey : str + list byte)
  : bool :=
  match
    (let messageBytes :=
       match message with
       | inl text => TextEncoder_encode text
       | inr bytes => bytes
       end in
     signatureBytes ←
       match signature with
       | inl text => catch (bs58_decode text) (fun _ => Buffer_from_base64 text)
       | inr bytes => Val bytes
       end;
     publicKeyBytes ←
       match publicKey with
       | inl text => bs58_decode text
       | inr bytes => Val bytes
       end;
     Val (Verify.verifyEd25519Signature messageBytes signatureBytes publicKeyBytes))
  with
  | Val isValid => isValid
  | Throw _ => false
  end.

End WithPlatform.
End SignatureOnly.

(** ** [createRedisStores] (redis.ts)

    The key prefixes of the three stores it builds on one Redis client:
    [options?.sessionKeyPrefix] and the like, handed to the constructors,
    whose default is [options?.keyPrefix ?? 'siwa:...:']. *)

Record RedisStoreOptions := mkRedisStoreOptions {
  sessionKeyPrefix : option str;
  nonceKeyPrefix : option str;
  rateLimitKeyPrefix : option str;
}.

Record RedisStores := mkRedisStores {
  sessionStorePrefix : str;
  nonceStorePrefix : str;
  rateLimitStorePrefix : str;
}.

Definition createRedisStores (options : option RedisStoreOptions) : RedisStores :=
  {| sessionStorePrefix := default (js "siwa:session:") (options ≫= sessionKeyPrefix);
     nonceStorePrefix := default (js "siwa:nonce:") (options ≫= nonceKeyPrefix);
     rateLimitStorePrefix :=
       default (js "siwa:ratelimit:") (options ≫= rateLimitKeyPrefix) |}.

(** ** The Redis-backed stores, command by command (redis.ts)

    Every command of the stores is awaited.  Node reads its clock at one
    instant and the Redis server executes the command at another: [set]
    computes the time to live from [Date.now()] and the key's life is counted
    from the instant at which SETEX is executed.  All instants are read off
    Node's clock; Redis only measures the time to live.  [Redis.set] and
    [Redis.increment] are the definitions below with all the instants of a
    call equal. *)

Module Awaited.

Section Store.
Context {V : Type} `{Expiring V}.
Variable keyPrefix : str.

(** [set]: [Date.now()] is read at [now]; [await this.client.setex(...)] is
    executed at [sent]. *)
Definition set (token : str) (data : V) (now sent : Z) (db : Redis.Db V)
  : Redis.Db V :=
  if (Redis.ttlSeconds data now <=? 0)%Z then db
  else Redis.SETEX (Redis.getKey keyPrefix token) (Redis.ttlSeconds data now)
         data sent db.

End Store.

(** The instants of one call of [RedisRateLimitStore.increment]. *)
Record IncrementClock := mkIncrementClock {
  at_now : Z;     (* [const now = new Date()] *)
  at_exists : Z;  (* [await this.client.exists(key)] is executed *)
  at_get : Z;     (* [await this.client.get(key)] is executed *)
  at_setNow : Z;  (* [Date.now()] in [set] *)
  at_setex : Z;   (* [await this.client.setex(...)] is executed *)
}.

(** The instants follow each other. *)
Definition chronological (c : IncrementClock) : Prop :=
  (at_now c <= at_exists c)%Z /\ (at_exists c <= at_get c)%Z
  /\ (at_get c <= at_setNow c)%Z /\ (at_setNow c <= at_setex c)%Z.

(** [RedisRateLimitStore.increment].  The retry [return this.increment(...)]
    is the recursive call, which reads the clock anew: the list holds the
    instants of the call and of its retries, and [None] is a call that would
    retry once more. *)
Fixpoint increment (keyPrefix : str) (identifier : str)
    (windowMinutes maxRequests : Z) (clocks : list IncrementClock)
    (db : Redis.Db RateLimitData)
  : option (Redis.RateLimitResult * Redis.Db RateLimitData) :=
  match clocks with
  | [] => None
  | c :: retries =>
      let windowMs := (windowMinutes * 60 * 1000)%Z in
      let now := at_now c in
      let windowStart := (now - windowMs)%Z in
      let set_ data := set keyPrefix identifier data (at_setNow c) (at_setex c) db in
      if negb (Redis.EXISTS (Redis.getKey keyPrefix identifier) (at_exists c) db) then
        let resetTime := (now + windowMs)%Z in
        Some (Redis.mkRateLimitResult true 1 resetTime,
              set_ (mkRateLimitData 1 now resetTime))
      else
        match Redis.get keyPrefix identifier (at_get c) db with
        | None =>
            increment keyPrefix identifier windowMinutes maxRequests retries db
        | Some data =>
            if (windowStart <=? rl_windowStart data)%Z then
              if (maxRequests <=? rl_count data)%Z then
                Some (Redis.mkRateLimitResult false (rl_count data)
                        (rl_expiresAt data), db)
              else
                let newData :=
                  mkRateLimitData (rl_count data + 1) (rl_windowStart data)
                    (rl_expiresAt data) in
                Some (Redis.mkRateLimitResult true (rl_count newData)
                        (rl_expiresAt data),
                      set_ newData)
            else
              let resetTime := (now + windowMs)%Z in
              Some (Redis.mkRateLimitResult true 1 resetTime,
                    set_ (mkRateLimitData 1 now resetTime))
        end
  end.

(** The calls are made one after the other: each is over before the next
    one reads the clock. *)
Fixpoint oneAfterAnother (calls : list IncrementClock) : Prop :=
  match calls with
  | c :: rest =>
      match rest with
      | d :: _ => (at_setex c <= at_now d)%Z
      | [] => True
      end /\ oneAfterAnother rest
  | [] => True
  end.

(** [increment] called once for each of the clocks in turn; the results. *)
Fixpoint incrementEach (keyPrefix identifier : str)
    (windowMinutes maxRequests : Z) (calls : list IncrementClock)
    (db : Redis.Db RateLimitData) : list (option (bool * Z)) :=
  match calls with
  | [] => []
  | c :: rest =>
      match increment keyPrefix identifier windowMinutes maxRequests [c] db with
      | Some (r, db') =>
          Some (Redis.allowed r, Redis.count r)
          :: incrementEach keyPrefix identifier windowMinutes maxRequests rest db'
      | None => [None]
      end
  end.

End Awaited.

(** A Redis database as the stores can leave it: written by [set] and
    [delete] only, every SETEX executed at most [latency] ms after [set] read
    the clock. *)
Inductive written {V} `{Expiring V} (latency : Z) : Redis.Db V -> Prop :=
| written_empty : written latency ∅
| written_set prefix token data now sent db :
    written latency db -> (now <= sent <= now + latency)%Z ->
    written latency (Awaited.set prefix token data now sent db)
| written_delete prefix token db :
    written latency db -> written latency (Redis.delete_ prefix token db).

(** No key outlives the record it holds by more than [latency] ms. *)
Definition timedWithin {V} `{Expiring V} (latency : Z) (db : Redis.Db V) : Prop :=
  forall key v expiry,
    db !! key = Some (v, expiry) -> (expiry <= expiresAt v + latency)%Z.

(** ** Runs of the rate limiter

    What happens to one identifier: a request checked by [checkRateLimit],
    or a turn of the event loop. *)

Inductive LimiterEvent :=
| Request (now : Z)
| Turn (now : Z).

Definition eventTime (e : LimiterEvent) : Z :=
  match e with Request now | Turn now => now end.

(** The number of requests among the events. *)
Fixpoint requests (events : list LimiterEvent) : nat :=
  match events with
  | [] => O
  | Request _ :: rest => S (requests rest)
  | Turn _ :: rest => requests rest
  end.

Section LimiterRun.
Variable server : ServerOptions.

(** The answers of [checkRateLimit] to the requests, in order. *)
Fixpoint limiterRun (identifier : str) (events : list LimiterEvent)
    (st : ServerState) : list bool :=
  match events with
  | [] => []
  | Request now :: rest =>
      let '(allowed, st') := Server.checkRateLimit server now identifier st in
      allowed :: limiterRun identifier rest st'
  | Turn now :: rest => limiterRun identifier rest (runTimers now st)
  end.

End LimiterRun.

(** ** The message of a challenge

    What [createMessage] returns for the parameters [createChallenge] gives
    it. *)
Section ChallengeMessage.
Context `{Platform}.

Definition challengeMessageOf (server : ServerOptions) (now : Z)
    (issued pubkey : str) : SIWAMessage :=
  {| domain := srv_domain server;
     address := pubkey;
     statement := srv_statement server;
     uri := srv_uri server;
     version := js "1";
     chainId := js "mainnet-beta";
     nonce := issued;
     issuedAt := Date_toISOString now;
     expirationTime :=
       Some (Date_toISOString (now + challengeExpirationMinutes server * 60 * 1000));
     notBefore := None;
     requestId := None;
     resources := srv_resources server |}.

End ChallengeMessage.

(** ** The authentication middleware ([SIWAServer.middleware])

    The handler is run on the [Authorization] header of the request.  It
    answers with a status and an error, or calls [next()], having attached
    the session to the request when there is one. *)

(** [s.split(sep)] for a one-character separator: never empty. *)
Fixpoint split_on (sep : char) (s : str) : list str :=
  match s with
  | [] => [[]]
  | c :: t =>
      if (c =? sep)%N then [] :: split_on sep t
      else match split_on sep t with
           | l :: ls => (c :: l) :: ls
           | [] => [[c]]
           end
  end.

Inductive MiddlewareResult :=
| Respond (status : Z) (error : str)
| Next (siwaSession : option SessionData).

Definition middleware
    (validateSession : Z -> str -> ServerState -> option SessionData * ServerState)
    (required : option bool) (now : Z) (authorization : option str)
    (st : ServerState) : MiddlewareResult * ServerState :=
  let required := default true required in
  if negb (truthy authorization) then
    if required then (Respond 401 (js "Authorization header required"), st)
    else (Next None, st)
  else
    let parts := split_on 32%N (default [] authorization) in
    let type := parts !! 0%nat in
    let token := parts !! 1%nat in
    if negb (streq (default [] type) (js "Bearer")) || negb (truthy token) then
      (Respond 401 (js "Invalid authorization header"), st)
    else
      let '(session, st') := validateSession now (default [] token) st in
      match session with
      | None =>
          if required then (Respond 401 (js "Invalid or expired session"), st')
          else (Next None, st')
      | Some session => (Next (Some session), st')
      end.

(** ** The range of [Date] and the turns of the event loop *)

(** The time values of a valid [Date] (ECMAScript: 8.64e15 ms either side
    of the epoch).  Outside this range [new Date(ms)] is an Invalid Date,
    whose [toISOString()] throws a [RangeError].  The servers above compute
    with unbounded instants: they follow the code for the instants in this
    range, and the properties below that depend on it say so. *)
Definition inDateRange (ms : Z) : Prop :=
  (-8640000000000000 <= ms <= 8640000000000000)%Z.

(** Turns of the event loop at the given instants, one after the other. *)
Definition turnsOf {V} (times : list Z) (s : Memory.Store V) : Memory.Store V :=
  fold_left (fun s t => Memory.runTimers t s) times s.

Definition serverTurns (times : list Z) (st : ServerState) : ServerState :=
  fold_left (fun st t => runTimers t st) times st.

(** No clean-up callback for [key] is pending that is due before
    [deadline]. *)
Definition noTimerBefore {V} (key : str) (deadline : Z) (s : Memory.Store V)
  : Prop :=
  Forall (fun timer => snd timer = key -> (deadline <= fst timer)%Z)
    (Memory.timers s).

(** ** Auxiliary definitions of the further properties *)

(** The first character, if any, is not white space. *)
Definition headNonSpace (s : str) : bool :=
  match s with [] => true | c :: _ => negb (isSpace c) end.

(** The field values a parsed message can hold. *)
Definition oneLine (v : str) : Prop :=
  nonEmpty v = true /\ noLineTerminator v = true.

(** Every value the field loop has recorded is non-empty and on one line;
    every resource is a line without its first two characters. *)
Definition fieldsOk (st : Codec.fieldState) : Prop :=
  map_Forall (fun _ v => oneLine v) (Codec.fields st)
  /\ Forall (fun r => noLF r = true) (Codec.collected st).

(** A statement, once found: the trimmed text of a non-blank line. *)
Definition statementFound (o : option str) : Prop :=
  forall s, o = Some s -> nonEmpty s = true /\ trim s = s /\ noLF s = true.

(** The message with the field that the line ["k: v"] sets replaced; a key
    the parser does not read leaves the message as it is. *)
Definition setField (k v : str) (m : SIWAMessage) : SIWAMessage :=
  let pick (key : str) (old : str) := if streq k key then v else old in
  let pickOptional (key : str) (old : option str) :=
    if streq k key then Some v else old in
  {| domain := domain m;
     address := address m;
     statement := statement m;
     uri := pick (js "URI") (uri m);
     version := pick (js "Version") (version m);
     chainId := pick (js "Chain ID") (chainId m);
     nonce := pick (js "Nonce") (nonce m);
     issuedAt := pick (js "Issued At") (issuedAt m);
     expirationTime := pickOptional (js "Expiration Time") (expirationTime m);
     notBefore := pickOptional (js "Not Before") (notBefore m);
     requestId := pickOptional (js "Request ID") (requestId m);
     resources := resources m |}.

(** A character the domain pattern admits inside a name. *)
Definition isDomainChar (c : char) : bool :=
  Codec.isAlnum c || (c =? 46)%N || (c =? 45)%N.

(** The 256 values of a byte, in order. *)
Definition allBytes : list byte :=
  omap (fun n => Byte.of_N (N.of_nat n)) (seq 0 256).

(** The bytes that [generateNonce] keeps and turns into the character [c]. *)
Definition preimages (c : char) : list byte :=
  List.filter (fun b => Nonce.accepted b && (Nonce.charOf b =? c)%N) allBytes.

Section VerifiedMessage.
Context `{Platform}.

(** The instant an optional date field denotes: none when the field is
    absent, empty, or not a date. *)
Definition instant (o : option str) : option Z :=
  match o with
  | Some text => if nonEmpty text then Date_parse text else None
  | None => None
  end.

(** The signature bytes [verify] works on: base58, or base64 when base58
    throws. *)
Definition decoded (signature : str) (signatureBytes : list byte) : Prop :=
  bs58_decode signature = Val signatureBytes
  \/ (exists e, bs58_decode signature = Throw e)
     /\ Buffer_from_base64 signature = Val signatureBytes.

(** Everything [verify] has checked when it reports success. *)
Record Verified (now : Z) (messageText signature publicKey : str)
    (options : option VerifyOptions) (m : SIWAMessage) : Prop := {
  v_parsed : Codec.parseMessage messageText = Val m;
  v_key : Verify.isValidSolanaAddress publicKey = true;
  v_address : address m = publicKey;
  v_domain : forall d, Verify.option_domain options = Some d -> d <> [] ->
                       domain m = d;
  v_nonce : forall n, Verify.option_nonce options = Some n -> n <> [] ->
                      nonce m = n;
  v_timing : Verify.option_skipTimeCheck options = false ->
             Timing.valid (Timing.validateTiming now m) = true;
  v_signature : exists signatureBytes publicKeyBytes,
      decoded signature signatureBytes
      /\ length signatureBytes = 64%nat
      /\ bs58_decode publicKey = Val publicKeyBytes
      /\ nacl_sign_detached_verify (TextEncoder_encode messageText)
           signatureBytes publicKeyBytes = Val true;
}.

End VerifiedMessage.

(** A clean-up callback for [key] is due at [now]. *)
Definition dueFor (key : str) (now : Z) (timer : Z * str) : bool :=
  (fst timer <=? now)%Z && streq (snd timer) key.

(** Every record of the store has a clean-up callback pending. *)
Definition covered {V} (s : Memory.Store V) : Prop :=
  forall key, is_Some (Memory.entries s !! key) ->
    exists due, In (due, key) (Memory.timers s).

Definition coveredState (st : ServerState) : Prop :=
  covered (nonceStore st) /\ covered (sessionStore st)
  /\ covered (rateLimitStore st).

(** The latest instant at which a pending callback is due. *)
Definition latest (timers : list (Z * str)) : Z :=
  fold_right Z.max 0%Z (fst <$> timers).

(** The three [Map]s are empty. *)
Definition drained (st : ServerState) : Prop :=
  Memory.entries (nonceStore st) = ∅
  /\ Memory.entries (sessionStore st) = ∅
  /\ Memory.entries (rateLimitStore st) = ∅.

Section LimiterWindow.
Variables (server : ServerOptions) (identifier : str) (start : Z).

(** The window opened at [start] is on record with [c] requests counted,
    and no clean-up callback for the identifier is due before it ends. *)
Definition windowOn (c : Z) (st : ServerState) : Prop :=
  Memory.entries (rateLimitStore st) !! identifier
  = Some (mkRateLimitData c start (start + windowMinutes server * 60 * 1000))
  /\ Forall (fun timer => snd timer = identifier ->
                          (start + windowMinutes server * 60 * 1000 <= fst timer)%Z)
       (Memory.timers (rateLimitStore st)).

(** After [j] requests of which the window has counted [c]. *)
Definition countedSoFar (j : nat) (c : Z) : Prop :=
  (1 <= j)%nat
  /\ ((Z.of_nat j < maxRequests server)%Z -> c = Z.of_nat j)
  /\ ((maxRequests server <= Z.of_nat j)%Z -> (maxRequests server <= c)%Z).

End LimiterWindow.

Section SessionOrigin.
Context `{Platform}.
Variable server : ServerOptions.

(** The session was opened by one of the calls: a [verifySignature] whose
    message passed [verify] under the session's address. *)
Definition openedBy (calls : list Op) (token : str) (session : SessionData)
  : Prop :=
  exists now random32 messageText signature m,
    In (VerifySignature now random32 messageText (sd_address session) signature)
      calls
    /\ verified server now messageText (sd_address session) signature = Val m
    /\ token = generateSessionToken random32
    /\ session
       = mkSessionData (sd_address session)
           (now + sessionExpirationMinutes server * 60 * 1000)
           (resources m) (Some m).

(** Every session on record was opened by one of the calls. *)
Definition sessionsOpenedBy (calls : list Op) (st : ServerState) : Prop :=
  forall token session,
    Memory.entries (sessionStore st) !! token = Some session ->
    openedBy calls token session.

End SessionOrigin.

(* ================================================================== *)
(** * Properties *)

(** ** The message codec *)

Section CodecProps.
Import Codec.

Lemma noLF_cons c s : noLF (c :: s) = true -> (c =? LF)%N = false /\ noLF s = true.
Proof.
  unfold noLF; simpl. intros H. apply andb_true_iff in H as [H1 H2].
  split; [by apply negb_true_iff|done].
Qed.

Lemma split_lf_noLF l : noLF l = true -> split_lf l = [l].
Proof.
  induction l as [|c l IH]; [done|].
  intros H. apply noLF_cons in H as [Hc Hl].
  simpl. rewrite Hc, (IH Hl). done.
Qed.

Lemma split_lf_app l r : noLF l = true -> split_lf (l ++ LF :: r) = l :: split_lf r.
Proof.
  induction l as [|c l IH]; intros H.
  - done.
  - apply noLF_cons in H as [Hc Hl].
    simpl. rewrite Hc, (IH Hl). done.
Qed.

Lemma split_join ls :
  ls <> [] -> forallb noLF ls = true -> split_lf (join_lf ls) = ls.
Proof.
  induction ls as [|l ls IH]; [done|].
  intros _ H. simpl in H. apply andb_true_iff in H as [Hl Hls].
  destruct ls as [|l' ls'].
  - simpl. by apply split_lf_noLF.
  - change (join_lf (l :: l' :: ls')) with (l ++ LF :: join_lf (l' :: ls')).
    rewrite split_lf_app by done. f_equal. by apply IH.
Qed.

Lemma startsWith_app p s : startsWith p (p ++ s) = true.
Proof.
  induction p as [|a p IH]; [done|].
  simpl. by rewrite N.eqb_refl.
Qed.

Lemma headerMatch_app d :
  nonEmpty d = true -> noLineTerminator d = true ->
  headerMatch (d ++ headerSuffix) = Some d.
Proof.
  intros Hne Hlt. unfold headerMatch, endsWith.
  rewrite rev_app_distr, startsWith_app.
  rewrite length_app, Nat.add_sub, take_app_length.
  unfold noLineTerminator in Hlt. by rewrite Hne, Hlt.
Qed.

Lemma splitColon_app k r :
  noColon k = true -> splitColon (k ++ 58%N :: r) = Some (k, r).
Proof.
  induction k as [|c k IH]; intros H; [done|].
  unfold noColon in H. simpl in H. apply andb_true_iff in H as [Hc Hk].
  apply negb_true_iff in Hc. simpl. rewrite Hc, (IH Hk). done.
Qed.

Lemma dotPlusEnd_valueOk v : valueOk v = true -> dotPlusEnd v = Some v.
Proof.
  destruct v as [|c v]; [done|]. unfold valueOk, dotPlusEnd, noLineTerminator.
  intros H. apply andb_true_iff in H as [_ H]. by rewrite H.
Qed.

Lemma spaces_valueOk v :
  valueOk v = true -> spacesThenDotPlusEnd (32%N :: v) = Some v.
Proof.
  intros H. pose proof (dotPlusEnd_valueOk _ H) as Hd.
  destruct v as [|c v]; [done|].
  unfold valueOk in H. apply andb_true_iff in H as [Hc _].
  apply negb_true_iff in Hc.
  change (spacesThenDotPlusEnd (32%N :: c :: v))
    with (match spacesThenDotPlusEnd (c :: v) with
          | Some v0 => Some v0 | None => dotPlusEnd (32%N :: c :: v) end).
  change (spacesThenDotPlusEnd (c :: v))
    with (if isSpace c then match spacesThenDotPlusEnd v with
          | Some v0 => Some v0 | None => dotPlusEnd (c :: v) end else dotPlusEnd (c :: v)).
  by rewrite Hc, Hd.
Qed.

Lemma fieldMatch_line k v :
  nonEmpty k = true -> noColon k = true -> valueOk v = true ->
  fieldMatch (k ++ 58%N :: 32%N :: v) = Some (k, v).
Proof.
  intros Hk Hc Hv. unfold fieldMatch.
  by rewrite splitColon_app, Hk, spaces_valueOk.
Qed.

Lemma noLF_app a b : noLF (a ++ b) = noLF a && noLF b.
Proof. unfold noLF. apply forallb_app. Qed.

Lemma noLineTerminator_noLF s : noLineTerminator s = true -> noLF s = true.
Proof.
  unfold noLineTerminator, noLF. rewrite !forallb_forall. intros H c Hc.
  specialize (H c Hc). unfold isLineTerminator in H.
  rewrite !negb_orb in H. rewrite !andb_true_iff in H. tauto.
Qed.

Lemma valueOk_noLF v : valueOk v = true -> noLF v = true.
Proof.
  destruct v as [|c v]; [done|]. unfold valueOk. intros H.
  apply andb_true_iff in H as [_ H]. by apply noLineTerminator_noLF.
Qed.

Lemma valueOk_nonEmpty v : valueOk v = true -> nonEmpty v = true.
Proof. by destruct v. Qed.

Lemma optionalLine_noLF label o :
  noLF label = true -> optValueOk o = true ->
  forallb noLF (optionalLine label o) = true.
Proof.
  intros Hl Ho. destruct o as [v|]; [|done]. simpl in *.
  rewrite (valueOk_nonEmpty _ Ho). simpl.
  by rewrite noLF_app, Hl, (valueOk_noLF _ Ho).
Qed.

Lemma resourceLines_noLF rs :
  forallb noLF rs = true ->
  forallb noLF ((fun resource => js "- " ++ resource) <$> rs) = true.
Proof.
  induction rs as [|r rs IH]; [done|]. cbn [forallb]. intros H.
  apply andb_true_iff in H as [Hr Hrs].
  rewrite fmap_cons. cbn [forallb]. rewrite IH by done.
  by rewrite noLF_app, Hr.
Qed.

Lemma canonical_Canonical m : canonical m = true -> Canonical m.
Proof.
  unfold canonical. rewrite !andb_true_iff.
  intros [[[[[[[[[[[[[[? ?] ?] ?] Ht] ?] ?] ?] ?] ?] ?] ?] ?] ?] ?].
  apply bool_decide_eq_true in Ht. by constructor.
Qed.

Lemma serializeLines_noLF m :
  Canonical m -> forallb noLF (serializeLines m) = true.
Proof.
  intros C. unfold serializeLines.
  rewrite !forallb_app. rewrite !andb_true_iff. repeat split.
  - cbn [forallb]. rewrite noLF_app, (noLineTerminator_noLF _ (c_domain_lt _ C)).
    rewrite (c_address_lf _ C). reflexivity.
  - pose proof (c_statement _ C) as Hs. destruct (statement m) as [s|]; [|done].
    simpl in Hs. rewrite !andb_true_iff in Hs. destruct Hs as [[[Hne Hlf] _] _].
    rewrite Hne. simpl. by rewrite Hlf.
  - cbn [forallb]. rewrite !noLF_app.
    rewrite (valueOk_noLF _ (c_uri _ C)), (valueOk_noLF _ (c_version _ C)),
      (valueOk_noLF _ (c_chainId _ C)), (valueOk_noLF _ (c_nonce _ C)),
      (valueOk_noLF _ (c_issuedAt _ C)). reflexivity.
  - apply optionalLine_noLF; [reflexivity|apply C].
  - apply optionalLine_noLF; [reflexivity|apply C].
  - apply optionalLine_noLF; [reflexivity|apply C].
  - pose proof (c_resources _ C) as Hr.
    destruct (resources m) as [[|r rs]|]; [done| |done].
    change (forallb noLF (js "Resources:" :: ((fun resource => js "- " ++ resource) <$> (r :: rs))) = true).
    cbn [forallb]. rewrite resourceLines_noLF by done. done.
Qed.

(** A colon that is followed by more text cannot be the final colon of a
    string with no other colon. *)
Lemma colon_not_last (l : str) : forall k r,
  k ++ 58%N :: r = l ++ [58%N] -> noColon l = true -> r = [].
Proof.
  induction l as [|c l IH]; intros k r E Hc.
  - destruct k as [|? [|? ?]]; simpl in E; by inversion E.
  - unfold noColon in Hc. simpl in Hc. apply andb_true_iff in Hc as [Hc1 Hc2].
    destruct k as [|c' k]; simpl in E; inversion E; subst.
    + done.
    + by eapply IH.
Qed.

Lemma line_not_Resources k v : k ++ 58%N :: 32%N :: v <> js "Resources:".
Proof.
  intros H.
  assert (E : 32%N :: v = []); [|done].
  apply (colon_not_last (js "Resources") k); [exact H|reflexivity].
Qed.

Lemma fieldStep_field st k v :
  inResources st = false ->
  nonEmpty k = true -> noColon k = true -> valueOk v = true ->
  fieldStep st (k ++ 58%N :: 32%N :: v)
  = mkFieldState (<[k := v]> (fields st)) (collected st) false.
Proof.
  intros Hin Hk Hc Hv. unfold fieldStep, streq.
  rewrite bool_decide_eq_false_2 by apply line_not_Resources.
  rewrite Hin. cbn [andb]. by rewrite fieldMatch_line.
Qed.

Lemma parseOptional st k o rest :
  inResources st = false ->
  nonEmpty k = true -> noColon k = true -> optValueOk o = true ->
  fold_left fieldStep (optionalLine (k ++ [58%N; 32%N]) o ++ rest) st
  = fold_left fieldStep rest
      (mkFieldState (optInsert k o (fields st)) (collected st) false).
Proof.
  intros Hin Hk Hc Ho. destruct o as [v|]; cbn [optionalLine optInsert].
  - cbn [optValueOk] in Ho. rewrite (valueOk_nonEmpty _ Ho).
    cbn [app fold_left]. rewrite <- app_assoc. cbn [app].
    by rewrite fieldStep_field.
  - cbn [app]. destruct st; simpl in *; by subst.
Qed.

Lemma parseResourceLines f rs : forall acc,
  fold_left fieldStep ((fun resource => js "- " ++ resource) <$> rs)
    (mkFieldState f acc true)
  = mkFieldState f (acc ++ rs) true.
Proof.
  induction rs as [|r rs IH]; intros acc.
  - by rewrite app_nil_r.
  - rewrite fmap_cons. cbn [fold_left].
    assert (Hstep : fieldStep (mkFieldState f acc true) (js "- " ++ r)
                    = mkFieldState f (acc ++ [r]) true).
    { unfold fieldStep, streq.
      rewrite bool_decide_eq_false_2; [|intros H; vm_compute in H; discriminate H].
      cbn [inResources andb]. rewrite startsWith_app. reflexivity. }
    rewrite Hstep, IH. by rewrite <- app_assoc.
Qed.

Lemma scanStatement_blank rest stmt :
  scanStatement ([] :: rest) stmt = scanStatement rest stmt.
Proof. reflexivity. Qed.

Lemma scanStatement_uri v rest stmt :
  scanStatement ((js "URI: " ++ v) :: rest) stmt
  = (stmt, Some ((js "URI: " ++ v) :: rest)).
Proof. reflexivity. Qed.

Lemma scanStatement_text s rest :
  statementOk (Some s) = true ->
  scanStatement (s :: rest) None = scanStatement rest (Some s).
Proof.
  cbn [statementOk]. rewrite !andb_true_iff. intros [[[Hne _] Ht] Hu].
  apply bool_decide_eq_true in Ht. apply negb_true_iff in Hu.
  cbn [scanStatement]. rewrite Hu, Ht, Hne. reflexivity.
Qed.

Lemma lookup_optInsert_ne (k k' : str) (o : option str) (f : gmap str str) :
  k <> k' -> optInsert k o f !! k' = f !! k'.
Proof. intros H. destruct o; [by apply lookup_insert_ne|done]. Qed.

Lemma lookup_optInsert_eq (k : str) (o : option str) (f : gmap str str) :
  f !! k = None -> optInsert k o f !! k = o.
Proof. intros H. destruct o; [by apply lookup_insert_eq|done]. Qed.

Ltac key_neq := let H := fresh in intros H; vm_compute in H; discriminate H.

Ltac lookup_field :=
  unfold fieldsOf;
  repeat first
    [ rewrite lookup_optInsert_ne by key_neq
    | rewrite lookup_insert_ne by key_neq ];
  first [ apply lookup_insert_eq | apply lookup_empty | idtac ].

Lemma fieldsOf_uri m : fieldsOf m !! js "URI" = Some (uri m).
Proof. lookup_field. Qed.
Lemma fieldsOf_version m : fieldsOf m !! js "Version" = Some (version m).
Proof. lookup_field. Qed.
Lemma fieldsOf_chainId m : fieldsOf m !! js "Chain ID" = Some (chainId m).
Proof. lookup_field. Qed.
Lemma fieldsOf_nonce m : fieldsOf m !! js "Nonce" = Some (nonce m).
Proof. lookup_field. Qed.
Lemma fieldsOf_issuedAt m : fieldsOf m !! js "Issued At" = Some (issuedAt m).
Proof. lookup_field. Qed.
Lemma fieldsOf_expirationTime m :
  fieldsOf m !! js "Expiration Time" = expirationTime m.
Proof. lookup_field. apply lookup_optInsert_eq. lookup_field. Qed.
Lemma fieldsOf_notBefore m : fieldsOf m !! js "Not Before" = notBefore m.
Proof. lookup_field. apply lookup_optInsert_eq. lookup_field. Qed.
Lemma fieldsOf_requestId m : fieldsOf m !! js "Request ID" = requestId m.
Proof. lookup_field. apply lookup_optInsert_eq. lookup_field. Qed.

Lemma parseFields_block m :
  Canonical m ->
  parseFields (fieldBlock m)
  = mkFieldState (fieldsOf m) (default [] (resources m))
      (bool_decide (resources m <> None)).
Proof.
  intros C. unfold parseFields, fieldBlock. cbn [app fold_left].
  change (js "URI: " ++ uri m) with (js "URI" ++ 58%N :: 32%N :: uri m).
  change (js "Version: " ++ version m) with (js "Version" ++ 58%N :: 32%N :: version m).
  change (js "Chain ID: " ++ chainId m) with (js "Chain ID" ++ 58%N :: 32%N :: chainId m).
  change (js "Nonce: " ++ nonce m) with (js "Nonce" ++ 58%N :: 32%N :: nonce m).
  change (js "Issued At: " ++ issuedAt m) with (js "Issued At" ++ 58%N :: 32%N :: issuedAt m).
  rewrite (fieldStep_field _ (js "URI")) by (first [reflexivity | apply C]).
  rewrite (fieldStep_field _ (js "Version")) by (first [reflexivity | apply C]).
  rewrite (fieldStep_field _ (js "Chain ID")) by (first [reflexivity | apply C]).
  rewrite (fieldStep_field _ (js "Nonce")) by (first [reflexivity | apply C]).
  rewrite (fieldStep_field _ (js "Issued At")) by (first [reflexivity | apply C]).
  cbn [fields collected inResources].
  change (js "Expiration Time: ") with (js "Expiration Time" ++ [58%N; 32%N]).
  change (js "Not Before: ") with (js "Not Before" ++ [58%N; 32%N]).
  change (js "Request ID: ") with (js "Request ID" ++ [58%N; 32%N]).
  rewrite parseOptional by (first [reflexivity | apply C]).
  rewrite parseOptional by (first [reflexivity | apply C]).
  rewrite <- (app_nil_r (optionalLine _ (requestId m))), <- app_assoc.
  rewrite parseOptional by (first [reflexivity | apply C]).
  cbn [fields collected inResources app].
  fold (fieldsOf m).
  pose proof (c_resources _ C) as Hr.
  destruct (resources m) as [[|r rs]|]; [done| |reflexivity].
  cbn [fold_left].
  assert (Hstep : forall f, fieldStep (mkFieldState f [] false) (js "Resources:")
                   = mkFieldState f [] true) by reflexivity.
  rewrite Hstep. rewrite parseResourceLines. reflexivity.
Qed.

Lemma serializeLines_shape m :
  serializeLines m
  = (domain m ++ headerSuffix) :: address m
      :: (match statement m with
          | Some s => if nonEmpty s then [ []; s ] else []
          | None => []
          end ++ [] :: fieldBlock m).
Proof. reflexivity. Qed.

Lemma scanStatement_serialized m :
  Canonical m ->
  scanStatement (match statement m with
                 | Some s => if nonEmpty s then [ []; s ] else []
                 | None => []
                 end ++ [] :: fieldBlock m) None
  = (statement m, Some (fieldBlock m)).
Proof.
  intros C. pose proof (c_statement _ C) as Hs.
  destruct (statement m) as [s|].
  - assert (Hne : nonEmpty s = true).
    { cbn [statementOk] in Hs. rewrite !andb_true_iff in Hs. tauto. }
    rewrite Hne. cbn [app].
    rewrite scanStatement_blank, scanStatement_text, scanStatement_blank by done.
    apply scanStatement_uri.
  - cbn [app]. rewrite scanStatement_blank. apply scanStatement_uri.
Qed.

Lemma checkRequired_fieldsOf m :
  Canonical m -> checkRequired (fieldsOf m) required = Val tt.
Proof.
  intros C. unfold required. cbn [checkRequired].
  rewrite fieldsOf_uri, fieldsOf_version, fieldsOf_chainId, fieldsOf_nonce,
    fieldsOf_issuedAt.
  cbn [truthy].
  by rewrite (valueOk_nonEmpty _ (c_uri _ C)), (valueOk_nonEmpty _ (c_version _ C)),
    (valueOk_nonEmpty _ (c_chainId _ C)), (valueOk_nonEmpty _ (c_nonce _ C)),
    (valueOk_nonEmpty _ (c_issuedAt _ C)).
Qed.

Lemma parse_serialize m :
  Canonical m -> parseMessage (serializeMessage m) = Val m.
Proof.
  intros C. unfold parseMessage, serializeMessage.
  rewrite split_join; [|by rewrite serializeLines_shape|by apply serializeLines_noLF].
  rewrite serializeLines_shape.
  cbn [lookup list_lookup from_option id drop].
  rewrite headerMatch_app by apply C.
  cbn [fmap option_fmap option_map truthy].
  rewrite (c_address_trim _ C), (c_address_ne _ C). cbn [negb].
  rewrite !drop_0. rewrite scanStatement_serialized by done. cbn [from_option id].
  rewrite parseFields_block by done. cbn [fields collected].
  rewrite checkRequired_fieldsOf by done. cbn [mbind Exc_bind].
  unfold getField.
  rewrite fieldsOf_uri, fieldsOf_version, fieldsOf_chainId, fieldsOf_nonce,
    fieldsOf_issuedAt, fieldsOf_expirationTime, fieldsOf_notBefore,
    fieldsOf_requestId.
  cbn [from_option id].
  pose proof (c_resources _ C) as Hr.
  destruct m as [d a s u v c n i e nb rq [[|r rs]|]]; cbn in *; done.
Qed.

(** Claim C1, amended.  For every message in canonical form (a non-empty
    domain without line terminator; a non-empty address without line feed or
    surrounding white space; a statement that is absent, or non-empty, on one
    line, without surrounding white space and not starting with ["URI:"];
    [uri], [version], [chainId], [nonce] and [issuedAt] non-empty, on one line
    and not starting with white space; [expirationTime], [notBefore] and
    [requestId] absent or of that shape; resources absent or a non-empty list
    of strings without line feed), parsing the serialized text gives the
    message back field for field, and serializing that again gives the same
    text. *)
Theorem roundtrip_canonical m :
  canonical m = true ->
  parseMessage (serializeMessage m) = Val m
  /\ reserialize (serializeMessage m) = Val (serializeMessage m).
Proof.
  intros H. apply canonical_Canonical in H.
  unfold reserialize. rewrite parse_serialize by done. done.
Qed.

Lemma roundtrip_canonical_witness :
  parseMessage (serializeMessage Demo.fullMessage) = Val Demo.fullMessage
  /\ reserialize (serializeMessage Demo.fullMessage)
     = Val (serializeMessage Demo.fullMessage).
Proof. apply (roundtrip_canonical Demo.fullMessage). vm_compute. reflexivity. Defined.

(** Claim C1 as stated fails: [createMessage] accepts the domain and the
    address of this message and does not look at the statement, whose final
    space the parser trims away. *)
Lemma roundtrip_fails_on_padded_statement :
  isValidDomain (domain Demo.paddedStatement) = true
  /\ isValidSolanaAddress (address Demo.paddedStatement) = true
  /\ (statement <$> parseMessage (serializeMessage Demo.paddedStatement))
     = Val (Some (js "Sign in to Example App"))
  /\ parseMessage (serializeMessage Demo.paddedStatement) <> Val Demo.paddedStatement
  /\ reserialize (serializeMessage Demo.paddedStatement)
     <> Val (serializeMessage Demo.paddedStatement).
Proof.
  split; [reflexivity|]. split; [reflexivity|]. split; [vm_compute; reflexivity|].
  split; vm_compute; intros E; inversion E.
Qed.

End CodecProps.

(** ** The nonce generator *)

Section NonceProps.
Import Nonce.

Lemma maxValid_248 : maxValid = 248%N.
Proof. reflexivity. Qed.

Lemma charOf_in_chars b : In (charOf b) chars.
Proof.
  unfold charOf. apply nth_In.
  assert (Hlen : length chars = 62%nat) by reflexivity.
  rewrite Hlen.
  pose proof (N.mod_lt (Byte.to_N b) (N.of_nat 62)) as Hlt.
  lia.
Qed.

Lemma pushAccepted_fits array : forall len result,
  (length result + length array <= len)%nat ->
  pushAccepted array len result = result ++ (charOf <$> List.filter accepted array).
Proof.
  induction array as [|b rest IH]; intros len result Hfit.
  - by rewrite app_nil_r.
  - cbn [length] in Hfit. cbn [pushAccepted List.filter].
    fold (accepted b).
    assert (Hlt : (length result <? len)%nat = true) by (apply Nat.ltb_lt; lia).
    rewrite Hlt, andb_true_r.
    destruct (accepted b).
    + rewrite IH by (rewrite length_app; cbn [length]; lia).
      rewrite fmap_cons, <- app_assoc. reflexivity.
    + apply IH. lia.
Qed.

Lemma acceptedBytes_add s i d :
  acceptedBytes s (i + d)
  = acceptedBytes s i ++ List.filter accepted (s <$> seq i d).
Proof.
  unfold acceptedBytes. rewrite seq_app, fmap_app, List.filter_app. reflexivity.
Qed.

Lemma length_filter_le {A} (f : A -> bool) l :
  (length (List.filter f l) <= length l)%nat.
Proof.
  induction l as [|x l IH]; cbn [List.filter length]; [lia|].
  destruct (f x); cbn [length]; lia.
Qed.

Lemma acceptedBytes_take s i j n :
  length (acceptedBytes s i) = n -> (n <= length (acceptedBytes s j))%nat ->
  take n (acceptedBytes s j) = acceptedBytes s i.
Proof.
  intros Hi Hj. destruct (Nat.le_ge_cases i j) as [Hle|Hle].
  - replace j with (i + (j - i))%nat by lia.
    rewrite acceptedBytes_add. rewrite <- Hi. apply take_app_length.
  - replace i with (j + (i - j))%nat in * by lia.
    rewrite acceptedBytes_add in *. rewrite length_app in Hi.
    assert (Hnil : List.filter accepted (s <$> seq j (i - j)) = []).
    { apply length_zero_iff_nil. lia. }
    rewrite Hnil, app_nil_r in *. cbn [length] in Hi. rewrite Nat.add_0_r in Hi.
    rewrite <- Hi. apply firstn_all.
Qed.

Lemma getRandomValues_within k rnd :
  (N.of_nat k <= quota)%N ->
  getRandomValues k rnd
  = Val (stream rnd <$> seq (drawn rnd) k, mkRandom (stream rnd) (drawn rnd + k)).
Proof.
  intros Hk. unfold getRandomValues.
  destruct (quota <? N.of_nat k)%N eqn:Hq; [apply N.ltb_lt in Hq; lia|done].
Qed.

Lemma generateLoop_returns s k len : forall fuel result drawn,
  (N.of_nat len <= quota)%N ->
  result = charOf <$> acceptedBytes s drawn ->
  (length result <= len)%nat ->
  (len <= length (acceptedBytes s k))%nat ->
  (k <= drawn + fuel)%nat ->
  exists rnd',
    generateLoop fuel len result (mkRandom s drawn)
    = Some (Val (charOf <$> take len (acceptedBytes s k), rnd')).
Proof.
  induction fuel as [|fuel IH]; intros result drawn Hq Hres Hlen Hk Hfuel.
  - (* all of the first [k] bytes are drawn: the result is complete *)
    assert (Hfull : length result = len).
    { replace drawn with (k + (drawn - k))%nat in Hres by lia.
      rewrite acceptedBytes_add in Hres. subst result.
      rewrite length_fmap, length_app in *. lia. }
    cbn [generateLoop]. rewrite <- Hfull, Nat.ltb_irrefl.
    eexists. do 3 f_equal. subst result. rewrite length_fmap.
    f_equal. symmetry. apply acceptedBytes_take; [done|].
    rewrite length_fmap in Hfull. lia.
  - cbn [generateLoop].
    destruct (length result <? len)%nat eqn:Hlt.
    + apply Nat.ltb_lt in Hlt.
      rewrite getRandomValues_within by lia. cbn [stream Nonce.drawn].
      apply IH.
      * done.
      * rewrite pushAccepted_fits by (rewrite length_fmap, length_seq; lia).
        rewrite acceptedBytes_add, fmap_app. by subst result.
      * rewrite pushAccepted_fits by (rewrite length_fmap, length_seq; lia).
        rewrite length_app, length_fmap.
        pose proof (length_filter_le accepted (s <$> seq drawn (len - length result))) as Hf.
        rewrite length_fmap, length_seq in Hf. lia.
      * done.
      * lia.
    + apply Nat.ltb_ge in Hlt.
      assert (Hfull : length result = len) by lia.
      eexists. do 3 f_equal. subst result. rewrite length_fmap in Hfull.
      f_equal. symmetry. apply acceptedBytes_take; [done|lia].
Qed.

Lemma generateLoop_starved fuel : forall drawn,
  generateLoop fuel 1 [] (mkRandom (fun _ => xff) drawn) = None.
Proof.
  induction fuel as [|fuel IH]; intros drawn; [reflexivity|].
  cbn [generateLoop length Nat.ltb Nat.leb].
  rewrite getRandomValues_within by (unfold quota; cbn [length]; lia).
  cbn [stream Nonce.drawn Nat.sub length]. apply IH.
Qed.

(** More fuel does not change a result. *)
Lemma generateLoop_more_fuel fuel : forall len result rnd out extra,
  generateLoop fuel len result rnd = Some out ->
  generateLoop (fuel + extra) len result rnd = Some out.
Proof.
  induction fuel as [|fuel IH]; intros len result rnd out extra.
  - cbn [generateLoop]. destruct (length result <? len)%nat eqn:Hlt; [discriminate|].
    intros <-. destruct extra; cbn [Nat.add generateLoop]; by rewrite Hlt.
  - cbn [Nat.add generateLoop]. destruct (length result <? len)%nat; [|done].
    destruct (getRandomValues _ _) as [[array rnd']|e]; [apply IH|done].
Qed.

(** Claim C8, amended.  [maxValid] is 248.  For every length [n] up to
    65536 (the most [crypto.getRandomValues] delivers at a time) and every
    stream of random bytes that holds at least [n] bytes below 248 (among its
    first [k] bytes, for some [k]), [generateNonce n] returns: its result is
    the first [n] bytes below 248 of the stream, in the order drawn, each
    mapped to the character at position [byte mod 62] of the alphabet; it has
    exactly [n] characters, all of the 62-symbol alphabet; and a run that
    ends at all ends with this string. *)
Theorem generateNonce_rejection_sampling (s : nat -> byte) (n k : nat) :
  (N.of_nat n <= 65536)%N ->
  (n <= length (acceptedBytes s k))%nat ->
  let nonce := charOf <$> take n (acceptedBytes s k) in
  maxValid = 248%N
  /\ (exists fuel rnd',
        generateNonce fuel n (mkRandom s 0) = Some (Val (nonce, rnd')))
  /\ (forall fuel out,
        generateNonce fuel n (mkRandom s 0) = Some out ->
        fst <$> out = Val nonce)
  /\ length nonce = n
  /\ Forall (fun c => In c chars) nonce
  /\ Forall (fun b => (Byte.to_N b < 248)%N) (take n (acceptedBytes s k)).
Proof.
  intros Hq Hn nonce.
  destruct (generateLoop_returns s k n (S k) [] 0) as [rnd' Hret];
    [done|reflexivity|cbn [length]; lia|done|lia|].
  split; [reflexivity|]. split; [by exists (S k), rnd'|]. split; [|split; [|split]].
  - intros fuel out Hout. unfold generateNonce in Hout.
    apply (generateLoop_more_fuel _ _ _ _ _ (S k)) in Hout.
    apply (generateLoop_more_fuel _ _ _ _ _ fuel) in Hret.
    rewrite Nat.add_comm, Hout in Hret. by injection Hret as ->.
  - unfold nonce. rewrite length_fmap, length_take. lia.
  - unfold nonce. apply Forall_fmap, Forall_forall. intros b _.
    apply charOf_in_chars.
  - apply Forall_forall. intros b Hb.
    apply elem_of_take in Hb as (i & Hb & _).
    apply list_elem_of_lookup_2, list_elem_of_In in Hb. unfold acceptedBytes in Hb.
    apply filter_In in Hb as [_ Hb]. unfold accepted in Hb.
    apply N.ltb_lt in Hb. exact Hb.
Qed.

Lemma generateNonce_rejection_sampling_witness :
  exists fuel rnd',
    generateNonce fuel 32 Demo.zeros = Some (Val (Demo.nonceA, rnd')).
Proof.
  apply (generateNonce_rejection_sampling (fun _ => x00) 32 32).
  - lia.
  - vm_compute. lia.
Defined.

(** Claim C8 as stated fails: on the stream of bytes 255, every one of which
    is discarded, [generateNonce 1] never returns; and a request for 65537
    characters ends in the [QuotaExceededError] of [crypto.getRandomValues]. *)
Lemma generateNonce_starved :
  (~ exists fuel out,
       generateNonce fuel 1 (mkRandom (fun _ => xff) 0) = Some out)
  /\ generateNonce 1 (N.to_nat 65537) Demo.zeros
     = Some (Throw (js "The requested length exceeds 65,536 bytes")).
Proof.
  split.
  - intros (fuel & out & Hout). unfold generateNonce in Hout.
    by rewrite generateLoop_starved in Hout.
  - unfold generateNonce. cbn [generateLoop length].
    assert (Hlt : (0 <? N.to_nat 65537)%nat = true) by (apply Nat.ltb_lt; lia).
    rewrite Hlt. unfold getRandomValues, quota.
    assert (Hq : (65536 <? N.of_nat (N.to_nat 65537 - 0))%N = true)
      by (apply N.ltb_lt; lia).
    by rewrite Hq.
Qed.

End NonceProps.

(** ** The signature verifier *)

Section VerifyProps.
Context `{Platform}.
Import Verify VerifySpec.

Lemma streq_decide (a b : str) : streq a b = bool_decide (a = b).
Proof. reflexivity. Qed.

Lemma verify_outcome now messageText signature publicKey options :
  verify now messageText signature publicKey options
  = Val (outcome now messageText signature publicKey options).
Proof.
  unfold verify, outcome, checks, parsed.
  destruct (Codec.parseMessage messageText) as [m|e]; [|reflexivity].
  cbn [firstFailure].
  unfold checkPublicKey. destruct (isValidSolanaAddress publicKey); [|reflexivity].
  cbn [negb firstFailure].
  unfold checkAddress. rewrite streq_decide.
  destruct (bool_decide (address m = publicKey)); [|reflexivity].
  cbn [negb firstFailure].
  unfold checkDomain, checkNonce, checkTiming.
  destruct (option_domain options) as [[|c d]|]; cbn [truthy nonEmpty andb from_option id].
  all: try rewrite streq_decide.
  2: destruct (bool_decide (domain m = c :: d)); [|reflexivity].
  all: cbn [negb andb firstFailure].
  all: destruct (option_nonce options) as [[|c' n]|]; cbn [truthy nonEmpty andb from_option id].
  all: try rewrite streq_decide.
  all: try (destruct (bool_decide (nonce m = c' :: n)); [|reflexivity]).
  all: cbn [negb andb firstFailure].
  all: destruct (option_skipTimeCheck options); cbn [negb Timing.valid].
  all: try (destruct (Timing.valid (Timing.validateTiming now m)); [|reflexivity]).
  all: cbn [negb firstFailure].
  all: unfold checkDecode, checkLength, checkKeyBytes, checkEd25519, decodeSignature, catch.
  all: destruct (bs58_decode signature) as [sb|e1];
       [|destruct (Buffer_from_base64 signature) as [sb|e2]; [|reflexivity]].
  all: cbn [firstFailure].
  all: destruct (length sb =? 64)%nat eqn:Hlen;
       [ rewrite bool_decide_eq_true_2 by (by apply Nat.eqb_eq)
       | rewrite bool_decide_eq_false_2 by (by apply Nat.eqb_neq); reflexivity ].
  all: cbn [negb firstFailure].
  all: destruct (bs58_decode publicKey) as [pk|e3]; [|reflexivity].
  all: cbn [mbind Exc_bind firstFailure].
  all: destruct (verifyEd25519Signature _ sb pk); reflexivity.
Qed.

Lemma firstFailure_Forall (P : VerificationResult -> Prop) cs r :
  Forall (fun c => forall r, c = Some r -> P r) cs ->
  firstFailure cs = Some r -> P r.
Proof.
  induction cs as [|[r'|] cs IH]; intros Hall; [discriminate| |];
    inversion Hall; subst; cbn [firstFailure]; [|by apply IH].
  intros [= <-]. auto.
Qed.

Lemma checks_fail now messageText signature publicKey options r :
  firstFailure (checks now messageText signature publicKey options) = Some r ->
  success r = false.
Proof.
  apply (firstFailure_Forall (fun r => success r = false)).
  unfold checks. destruct (Codec.parseMessage messageText) as [m|e].
  - repeat match goal with
           | |- Forall _ (_ :: _) => apply List.Forall_cons
           | |- Forall _ [] => apply List.Forall_nil
           end; intros r'.
    + unfold checkPublicKey. destruct (isValidSolanaAddress _); [done|by intros [= <-]].
    + unfold checkAddress. destruct (bool_decide _); [done|by intros [= <-]].
    + unfold checkDomain. destruct (option_domain _) as [[|? ?]|]; try done.
      destruct (bool_decide _); [done|by intros [= <-]].
    + unfold checkNonce. destruct (option_nonce _) as [[|? ?]|]; try done.
      destruct (bool_decide _); [done|by intros [= <-]].
    + unfold checkTiming. destruct (option_skipTimeCheck _); [done|].
      destruct (Timing.valid _); [done|by intros [= <-]].
    + unfold checkDecode. destruct (decodeSignature _); [done|by intros [= <-]].
    + unfold checkLength. destruct (decodeSignature _); [|done].
      destruct (bool_decide _); [done|by intros [= <-]].
    + unfold checkKeyBytes. destruct (bs58_decode _); [done|by intros [= <-]].
    + unfold checkEd25519. destruct (decodeSignature _); [|done].
      destruct (bs58_decode _); [|done].
      destruct (verifyEd25519Signature _ _ _); [done|by intros [= <-]].
  - apply List.Forall_cons; [|apply List.Forall_nil]. by intros r' [= <-].
Qed.

(** Claim C5.  [verify] never throws: for every input it returns a result,
    and that result is the failure of the first check that fails, the checks
    taken in the order message parse, public key, address, domain (when the
    option is given), nonce (when the option is given), timing (unless
    [skipTimeCheck]), signature decoding, signature length, Ed25519; when no
    check fails it is [{success: true, message}] with the parsed message. *)
Theorem verify_total_and_ordered now messageText signature publicKey options :
  verify now messageText signature publicKey options
  = Val (outcome now messageText signature publicKey options)
  /\ match firstFailure (checks now messageText signature publicKey options) with
     | Some r =>
         outcome now messageText signature publicKey options = r
         /\ success r = false
     | None =>
         exists m,
           Codec.parseMessage messageText = Val m
           /\ outcome now messageText signature publicKey options
              = mkResult true (Some m) None
     end.
Proof.
  split; [apply verify_outcome|].
  pose proof (checks_fail now messageText signature publicKey options) as Hf.
  unfold outcome, parsed.
  destruct (firstFailure _) as [r|] eqn:Hc; [by split; [|apply Hf]|].
  unfold checks in Hc.
  destruct (Codec.parseMessage messageText) as [m|e]; [by exists m|discriminate].
Qed.

Lemma startsWith_distinguishes (p a b : str) :
  startsWith p a = true -> startsWith p b = false -> a <> b.
Proof. intros Ha Hb ->. congruence. Qed.

(** The errors of the timing validator all start with ["Message "]. *)
Lemma timing_error_prefix now m e :
  Timing.error (Timing.validateTiming now m) = Some e ->
  startsWith (js "Message ") e = true.
Proof.
  unfold Timing.validateTiming.
  repeat match goal with |- context [if ?b then _ else _] => destruct b end;
    cbn [Timing.error]; intros [= <-]; reflexivity.
Qed.

Section Fixed.
Variables (now : Z) (messageText signature publicKey : str)
          (options : option VerifyOptions).

Local Abbreviation outcome := (outcome now messageText signature publicKey options).
Local Abbreviation reachesDecoding := (reachesDecoding now messageText publicKey options).

Lemma outcome_encodingError :
  outcome = failure encodingError ->
  (exists e, bs58_decode signature = Throw e)
  /\ (exists e, Buffer_from_base64 signature = Throw e).
Proof.
  unfold VerifySpec.outcome, VerifySpec.checks, parsed.
  destruct (Codec.parseMessage messageText) as [m|e].
  2: (cbn [firstFailure]; intros [= Hf]; exfalso; revert Hf;
      apply (startsWith_distinguishes (js "F")); reflexivity).
  cbn [firstFailure].
  unfold checkPublicKey. destruct (isValidSolanaAddress publicKey).
  2: (intros [= Hf]; vm_compute in Hf; discriminate Hf).
  unfold checkAddress. destruct (bool_decide (address m = publicKey)).
  2: (intros [= Hf]; vm_compute in Hf; discriminate Hf).
  unfold checkDomain.
  destruct (option_domain options) as [[|c d]|];
    [| destruct (bool_decide (domain m = c :: d)) |].
  3: (intros [= Hf]; exfalso; revert Hf;
      apply (startsWith_distinguishes (js "D")); reflexivity).
  all: unfold checkNonce.
  all: destruct (option_nonce options) as [[|c' n]|];
    [| destruct (bool_decide (nonce m = c' :: n)) |].
  all: try (intros [= Hf]; vm_compute in Hf; discriminate Hf).
  all: unfold checkTiming.
  all: destruct (option_skipTimeCheck options);
    [| destruct (Timing.valid (Timing.validateTiming now m)) ].
  all: try (intros [= Hf]; apply timing_error_prefix in Hf; discriminate Hf).
  all: unfold checkDecode, checkLength, checkKeyBytes, checkEd25519, decodeSignature, catch.
  all: destruct (bs58_decode signature) as [sb|e1];
       [|destruct (Buffer_from_base64 signature) as [sb|e2]; [|by eauto]].
  all: destruct (bool_decide (length sb = 64%nat)).
  all: try (intros [= Hf]; exfalso; revert Hf;
            apply (startsWith_distinguishes (js "Invalid signature l")); reflexivity).
  all: destruct (bs58_decode publicKey) as [pk|e3].
  all: try (intros [= Hf]; exfalso; revert Hf;
            apply (startsWith_distinguishes (js "V")); reflexivity).
  all: destruct (verifyEd25519Signature _ sb pk).
  all: intros [= Hf]; try discriminate; vm_compute in Hf; discriminate Hf.
Qed.

Lemma outcome_reachesDecoding :
  reachesDecoding ->
  outcome = match firstFailure [ checkDecode signature; checkLength signature;
                                 checkKeyBytes publicKey;
                                 checkEd25519 messageText signature publicKey ] with
            | Some r => r
            | None => mkResult true (parsed messageText) None
            end.
Proof.
  intros (m & Hp & H1 & H2 & H3 & H4 & H5).
  unfold VerifySpec.outcome, VerifySpec.checks, parsed. rewrite Hp.
  cbn [firstFailure]. by rewrite H1, H2, H3, H4, H5.
Qed.

(** Claim C6.  The signature is decoded as base58 first and as base64 when
    that throws.  [verify] answers ['Invalid signature encoding (expected
    base58 or base64)'] only if both decodings throw, and does answer it then
    whenever the earlier checks pass; when a decoding succeeds with a number
    of bytes other than 64 (and the earlier checks pass), [verify] answers
    ['Invalid signature length: N (expected 64)'], [N] the decoded length. *)
Theorem verify_signature_decoding :
  (forall bytes, bs58_decode signature = Val bytes ->
     decodeSignature signature = Val bytes)
  /\ (forall e, bs58_decode signature = Throw e ->
        decodeSignature signature = Buffer_from_base64 signature)
  /\ (verify now messageText signature publicKey options
        = Val (failure encodingError) ->
      (exists e, bs58_decode signature = Throw e)
      /\ (exists e, Buffer_from_base64 signature = Throw e))
  /\ (reachesDecoding ->
      (exists e, bs58_decode signature = Throw e) ->
      (exists e, Buffer_from_base64 signature = Throw e) ->
      verify now messageText signature publicKey options
      = Val (failure encodingError))
  /\ (reachesDecoding -> forall bytes,
        decodeSignature signature = Val bytes -> length bytes <> 64%nat ->
        verify now messageText signature publicKey options
        = Val (failure (lengthError (length bytes)))).
Proof.
  split; [|split; [|split; [|split]]].
  - intros bytes Hb. unfold decodeSignature. by rewrite Hb.
  - intros e Hb. unfold decodeSignature. by rewrite Hb.
  - rewrite verify_outcome. intros [= Ho]. by apply outcome_encodingError.
  - intros Hr [e1 H1] [e2 H2]. rewrite verify_outcome.
    rewrite (outcome_reachesDecoding Hr).
    unfold checkDecode, decodeSignature. by rewrite H1; cbn [catch]; rewrite H2.
  - intros Hr bytes Hd Hlen. rewrite verify_outcome.
    rewrite (outcome_reachesDecoding Hr).
    unfold checkDecode, checkLength. rewrite Hd. cbn [firstFailure].
    by rewrite bool_decide_eq_false_2.
Qed.

End Fixed.

Lemma timing_invalid_error now m :
  Timing.valid (Timing.validateTiming now m) = false ->
  exists e, Timing.error (Timing.validateTiming now m) = Some e
            /\ startsWith (js "Message ") e = true.
Proof.
  unfold Timing.validateTiming.
  repeat match goal with |- context [if ?b then _ else _] => destruct b end;
    cbn [Timing.valid Timing.error]; intros Hv; try discriminate Hv;
    eexists; (split; [reflexivity|reflexivity]).
Qed.

Lemma startsWith_exclusive (p q a : str) :
  startsWith p a = true ->
  match p, q with
  | c1 :: _, c2 :: _ => negb (c1 =? c2)%N
  | _, _ => false
  end = true ->
  startsWith q a = false.
Proof.
  destruct p as [|c1 p], q as [|c2 q]; try discriminate.
  destruct a as [|x a]; [discriminate|]. cbn [startsWith].
  intros Hp Hne. apply andb_true_iff in Hp as [Hp _]. apply N.eqb_eq in Hp.
  subst x. apply negb_true_iff in Hne. rewrite N.eqb_sym in Hne. by rewrite Hne.
Qed.

Lemma outcome_Outcome now messageText signature publicKey options :
  Outcome messageText signature options
    (outcome now messageText signature publicKey options).
Proof.
  unfold outcome, checks, parsed.
  destruct (Codec.parseMessage messageText) as [m|e] eqn:Hp;
    [|by apply OParse].
  cbn [firstFailure].
  unfold checkPublicKey. destruct (isValidSolanaAddress publicKey);
    [|by apply OPublicKey].
  unfold checkAddress. destruct (bool_decide (address m = publicKey));
    [|by apply OAddress].
  unfold checkDomain.
  destruct (option_domain options) as [[|c d]|] eqn:Hd;
    [| destruct (bool_decide (domain m = c :: d)) eqn:Hdm;
       [| apply bool_decide_eq_false in Hdm; by eapply ODomain] |].
  all: unfold checkNonce.
  all: destruct (option_nonce options) as [[|c' n]|] eqn:Hn;
    [| destruct (bool_decide (nonce m = c' :: n)) eqn:Hnm;
       [| apply bool_decide_eq_false in Hnm; by eapply ONonce] |].
  all: unfold checkTiming.
  all: destruct (option_skipTimeCheck options) eqn:Hsk;
    [| destruct (Timing.valid (Timing.validateTiming now m)) eqn:Hv;
       [| destruct (timing_invalid_error _ _ Hv) as (e & -> & He);
          by apply OTiming ] ].
  all: unfold checkDecode, checkLength, checkKeyBytes, checkEd25519.
  all: destruct (decodeSignature signature) as [sb|e0] eqn:Hdec;
    [| unfold decodeSignature, catch in Hdec;
       destruct (bs58_decode signature) as [?|e1] eqn:H1; [discriminate Hdec|];
       by eapply ODecode ].
  all: destruct (bool_decide (length sb = 64%nat)) eqn:Hlen;
    [| apply bool_decide_eq_false in Hlen; by apply OLength ].
  all: destruct (bs58_decode publicKey) as [pk|e3]; [|by apply OKeyBytes].
  all: destruct (verifyEd25519Signature _ sb pk); [by apply OSuccess|by apply OEd25519].
Qed.

(** Claim C10.  An empty string as [options.domain] (or [options.nonce])
    switches the check off: [verify] returns what it returns without the
    option, so no ['Domain mismatch'] (or ['Nonce mismatch']) error ever comes
    out. *)
Theorem verify_empty_option_disables_check
    now messageText signature publicKey d n sk :
  verify now messageText signature publicKey (Some (mkOptions (Some []) None false))
  = verify now messageText signature publicKey None
  /\ verify now messageText signature publicKey (Some (mkOptions (Some []) n sk))
     = verify now messageText signature publicKey (Some (mkOptions None n sk))
  /\ verify now messageText signature publicKey (Some (mkOptions d (Some []) sk))
     = verify now messageText signature publicKey (Some (mkOptions d None sk))
  /\ (forall r e,
        verify now messageText signature publicKey (Some (mkOptions (Some []) n sk))
        = Val r ->
        error r = Some e -> startsWith (js "Domain mismatch") e = false)
  /\ (forall r,
        verify now messageText signature publicKey (Some (mkOptions d (Some []) sk))
        = Val r ->
        error r <> Some (js "Nonce mismatch")).
Proof.
  split; [reflexivity|split; [reflexivity|split; [reflexivity|split]]].
  - intros r e. rewrite verify_outcome. intros [= <-].
    pose proof (outcome_Outcome now messageText signature publicKey
                  (Some (mkOptions (Some []) n sk))) as Ho.
    remember (outcome now messageText signature publicKey _) as o eqn:Eo.
    clear Eo. inversion Ho; subst; cbn [error failure]; intros [= <-];
      try reflexivity; try discriminate.
    eapply startsWith_exclusive; [eassumption|reflexivity].
  - intros r. rewrite verify_outcome. intros [= <-].
    pose proof (outcome_Outcome now messageText signature publicKey
                  (Some (mkOptions d (Some []) sk))) as Ho.
    remember (outcome now messageText signature publicKey _) as o eqn:Eo.
    clear Eo. inversion Ho; subst; cbn [error failure]; intros Hf;
      try discriminate;
      injection Hf as Hf; revert Hf;
      first [ apply (startsWith_distinguishes (js "F")); reflexivity
            | apply (startsWith_distinguishes (js "I")); reflexivity
            | apply (startsWith_distinguishes (js "P")); reflexivity
            | apply (startsWith_distinguishes (js "D")); reflexivity
            | apply (startsWith_distinguishes (js "V")); reflexivity
            | apply (startsWith_distinguishes (js "S")); reflexivity
            | idtac ].
    intros ->. discriminate.
Qed.

End VerifyProps.

Lemma verify_signature_decoding_witness :
  Verify.verify Demo.noon Demo.challengeText (js "not-valid!!!") Demo.pubkey None
  = Val (Verify.failure (VerifySpec.lengthError 0)).
Proof.
  refine (proj2 (proj2 (proj2 (proj2
            (verify_signature_decoding (H := Stub.platform) Demo.noon
               Demo.challengeText (js "not-valid!!!") Demo.pubkey None))))
            _ [] _ _).
  - exists Demo.challengeMessage. vm_compute. repeat split.
  - vm_compute. reflexivity.
  - vm_compute. discriminate.
Defined.

Lemma verify_empty_option_disables_check_witness :
  let late := (Demo.noon + 600000)%Z in
  let run options :=
    Verify.verify late Demo.challengeText Demo.signature Demo.pubkey options in
  let expired := mkResult false None (Some (js "Message has expired")) in
  run (Some (mkOptions (Some (js "evil.example")) None false))
  = Val (Verify.failure
           (js "Domain mismatch: expected evil.example, got example.com"))
  /\ run (Some (mkOptions None (Some (js "zzz")) false))
     = Val (Verify.failure (js "Nonce mismatch"))
  /\ run None = Val expired
  /\ run (Some (mkOptions (Some []) None false)) = Val expired
  /\ run (Some (mkOptions (Some []) (Some (js "zzz")) false))
     = Val (Verify.failure (js "Nonce mismatch"))
  /\ run (Some (mkOptions (Some (js "evil.example")) (Some []) false))
     = Val (Verify.failure
              (js "Domain mismatch: expected evil.example, got example.com"))
  /\ run (Some (mkOptions (Some []) (Some []) false)) = Val expired
  /\ startsWith (js "Domain mismatch") (js "Message has expired") = false
  /\ Some (js "Message has expired") <> Some (js "Nonce mismatch").
Proof.
  intros late run expired.
  assert (Hd : run (Some (mkOptions (Some (js "evil.example")) None false))
               = Val (Verify.failure
                        (js "Domain mismatch: expected evil.example, got example.com")))
    by (vm_compute; reflexivity).
  assert (Hn : run (Some (mkOptions None (Some (js "zzz")) false))
               = Val (Verify.failure (js "Nonce mismatch")))
    by (vm_compute; reflexivity).
  assert (H0 : run None = Val expired) by (vm_compute; reflexivity).
  pose proof (verify_empty_option_disables_check (H := Stub.platform) late
                Demo.challengeText Demo.signature Demo.pubkey
                (Some (js "evil.example")) (Some (js "zzz")) false)
    as (E1 & E2 & E3 & _ & _).
  pose proof (verify_empty_option_disables_check (H := Stub.platform) late
                Demo.challengeText Demo.signature Demo.pubkey
                (Some []) (Some []) false)
    as (_ & F2 & F3 & Fd & Fn).
  fold (run (Some (mkOptions (Some []) None false))) in E1.
  fold (run None) in E1.
  fold (run (Some (mkOptions (Some []) (Some (js "zzz")) false))) in E2.
  fold (run (Some (mkOptions None (Some (js "zzz")) false))) in E2.
  fold (run (Some (mkOptions (Some (js "evil.example")) (Some []) false))) in E3.
  fold (run (Some (mkOptions (Some (js "evil.example")) None false))) in E3.
  fold (run (Some (mkOptions (Some []) (Some []) false))) in F2, F3, Fd, Fn.
  fold (run (Some (mkOptions None (Some []) false))) in F2.
  fold (run (Some (mkOptions (Some []) None false))) in F3.
  assert (Hboth : run (Some (mkOptions (Some []) (Some []) false)) = Val expired)
    by (rewrite F3, E1; exact H0).
  split; [exact Hd|]. split; [exact Hn|]. split; [exact H0|].
  split; [rewrite E1; exact H0|]. split; [rewrite E2; exact Hn|].
  split; [rewrite E3; exact Hd|]. split; [exact Hboth|].
  split.
  - exact (Fd expired (js "Message has expired") Hboth eq_refl).
  - exact (Fn expired Hboth).
Defined.

(** ** The timing validator *)

Section TimingProps.
Context `{Platform}.
Import Timing.

Lemma expired_check now m :
  match expirationTime m with
  | Some e => nonEmpty e && isAfter now e
  | None => false
  end = true <-> expired now m.
Proof.
  unfold expired, isAfter. split.
  - destruct (expirationTime m) as [e|] eqn:Hx; [|discriminate].
    intros Hc. apply andb_true_iff in Hc as [Hne Ha].
    destruct (Date_parse e) as [t|] eqn:Hd; [|discriminate].
    exists e, t. split; [done|]. split; [by destruct e|]. split; [done|].
    apply Z.ltb_lt in Ha. lia.
  - intros (e & t & -> & Hne & -> & Hgt).
    apply andb_true_iff. split; [by destruct e|]. apply Z.ltb_lt. lia.
Qed.

Lemma notYetValid_check now m :
  match notBefore m with
  | Some nb => nonEmpty nb && isBefore now nb
  | None => false
  end = true <-> notYetValid now m.
Proof.
  unfold notYetValid, isBefore. split.
  - destruct (notBefore m) as [e|] eqn:Hx; [|discriminate].
    intros Hc. apply andb_true_iff in Hc as [Hne Ha].
    destruct (Date_parse e) as [t|] eqn:Hd; [|discriminate].
    exists e, t. split; [done|]. split; [by destruct e|]. split; [done|].
    by apply Z.ltb_lt in Ha.
  - intros (e & t & -> & Hne & -> & Hgt).
    apply andb_true_iff. split; [by destruct e|]. by apply Z.ltb_lt.
Qed.

Lemma issuedInFuture_check now m :
  isBeyondSkew now (issuedAt m) = true <-> issuedInFuture now m.
Proof.
  unfold issuedInFuture, isBeyondSkew, maxSkew. split.
  - destruct (Date_parse (issuedAt m)) as [t|]; [|discriminate].
    intros Ha. exists t. split; [done|]. apply Z.ltb_lt in Ha. lia.
  - intros (t & -> & Hgt). apply Z.ltb_lt. lia.
Qed.

(** Claim C7.  [validateTiming] applies its rules in order and the first
    failure wins: an expiration time that is present and earlier than now
    gives ['Message has expired']; else a not-before time that is present and
    later than now gives ['Message not yet valid']; else an issue time more
    than five minutes after now gives ['Message issued in the future']; else
    the message is valid, in particular when it has neither an expiration nor
    a not-before time and is not issued in the future. *)
Theorem validateTiming_rules now m :
  (expired now m ->
     validateTiming now m = mkTiming false (Some (js "Message has expired")))
  /\ (~ expired now m -> notYetValid now m ->
        validateTiming now m = mkTiming false (Some (js "Message not yet valid")))
  /\ (~ expired now m -> ~ notYetValid now m -> issuedInFuture now m ->
        validateTiming now m
        = mkTiming false (Some (js "Message issued in the future")))
  /\ (~ expired now m -> ~ notYetValid now m -> ~ issuedInFuture now m ->
        validateTiming now m = mkTiming true None)
  /\ (expirationTime m = None -> notBefore m = None -> ~ issuedInFuture now m ->
        validateTiming now m = mkTiming true None).
Proof.
  pose proof (expired_check now m) as He.
  pose proof (notYetValid_check now m) as Hn.
  pose proof (issuedInFuture_check now m) as Hf.
  unfold validateTiming.
  destruct (match expirationTime m with Some _ => _ | None => _ end) eqn:E1;
  destruct (match notBefore m with Some _ => _ | None => _ end) eqn:E2;
  destruct (isBeyondSkew now (issuedAt m)) eqn:E3.
  all: repeat split; intros; try reflexivity; exfalso.
  all: try (destruct (expirationTime m); discriminate).
  all: try (destruct (notBefore m); discriminate).
  all: intuition (try discriminate; eauto).
Qed.

End TimingProps.

Lemma validateTiming_rules_witness :
  Timing.validateTiming (Demo.noon + 600000) Demo.challengeMessage
  = Timing.mkTiming false (Some (js "Message has expired")).
Proof.
  apply (validateTiming_rules (H := Stub.platform) (Demo.noon + 600000)
           Demo.challengeMessage).
  exists (js "2026-02-01T12:05:00.000Z"), 1769947500000%Z.
  split; [reflexivity|]. split; [discriminate|]. split; [reflexivity|].
  unfold Demo.noon. lia.
Defined.

(** ** The stores: what [get] returns *)

Section StoreProps.

(** The in-memory stores of the server module with rate limiting: a record
    that [get] returns has not expired. *)
Lemma memory_get_fresh {V} `{Expiring V} (key : str) (now : Z)
    (s s' : Memory.Store V) (data : V) :
  Memory.get key now s = (Some data, s') -> (now <= expiresAt data)%Z.
Proof.
  unfold Memory.get. destruct (Memory.entries s !! key) as [d|]; [|discriminate].
  destruct (expiresAt d <? now)%Z eqn:Hlt; [discriminate|].
  intros [= <- _]. apply Z.ltb_ge in Hlt. lia.
Qed.

Lemma memory_deleteAndGet_fresh nonce now (s s' : Memory.Store NonceData) data :
  Memory.deleteAndGet nonce now s = (Some data, s') ->
  (now <= nd_expiresAt data)%Z.
Proof.
  unfold Memory.deleteAndGet.
  destruct (Memory.entries s !! nonce) as [d|]; [|discriminate].
  destruct (nd_expiresAt d <? now)%Z eqn:Hlt; [discriminate|].
  intros [= <- _]. apply Z.ltb_ge in Hlt. lia.
Qed.

(** The session store of [packages/server/dist/index.js] checks as well. *)
Lemma legacy_session_get_fresh token now (s s' : Memory.Store SessionData) data :
  Memory.Legacy.session_get token now s = (Some data, s') ->
  (now <= sd_expiresAt data)%Z.
Proof.
  unfold Memory.Legacy.session_get.
  destruct (Memory.entries s !! token) as [d|]; [|discriminate].
  destruct (sd_expiresAt d <? now)%Z eqn:Hlt; [discriminate|].
  intros [= <- _]. apply Z.ltb_ge in Hlt. lia.
Qed.

(** The Redis stores leave the check to the server: a key never outlives the
    record it holds. *)
Lemma redis_set_wellTimed {V} `{Expiring V} (prefix token : str) (data : V)
    (now : Z) (db : Redis.Db V) :
  Redis.wellTimed db -> Redis.wellTimed (Redis.set prefix token data now db).
Proof.
  intros Hdb key v expiry. unfold Redis.set.
  destruct (Redis.ttlSeconds data now <=? 0)%Z; [apply Hdb|].
  unfold Redis.SETEX. destruct (decide (Redis.getKey prefix token = key)) as [->|Hne].
  - rewrite lookup_insert_eq. intros [= <- <-]. unfold Redis.ttlSeconds.
    pose proof (Z.mod_pos_bound (expiresAt data - now) 1000).
    pose proof (Z.div_mod (expiresAt data - now) 1000). lia.
  - rewrite lookup_insert_ne by done. apply Hdb.
Qed.

Lemma redis_delete_wellTimed {V} `{Expiring V} (prefix token : str)
    (db : Redis.Db V) :
  Redis.wellTimed db -> Redis.wellTimed (Redis.delete_ prefix token db).
Proof.
  intros Hdb key v expiry. unfold Redis.delete_, Redis.DEL.
  destruct (decide (Redis.getKey prefix token = key)) as [->|Hne].
  - by rewrite lookup_delete_eq.
  - rewrite lookup_delete_ne by done. apply Hdb.
Qed.

Lemma redis_get_fresh {V} `{Expiring V} (prefix token : str) (now : Z)
    (db : Redis.Db V) (data : V) :
  Redis.wellTimed db ->
  Redis.get prefix token now db = Some data -> (now < expiresAt data)%Z.
Proof.
  intros Hdb. unfold Redis.get, Redis.GET.
  destruct (db !! Redis.getKey prefix token) as [[v expiry]|] eqn:Hk; [|discriminate].
  destruct (now <? expiry)%Z eqn:Hlt; [|discriminate].
  intros [= <-]. apply Z.ltb_lt in Hlt. specialize (Hdb _ _ _ Hk). lia.
Qed.

(** Claim C4, on the nonce store of [packages/server/dist/index.js], whose
    [get] does not look at [expiresAt].
    - A record that has already expired is stored at noon and read back at
      once: [get] returns it (its clean-up callback is due a millisecond
      later and cannot run between the two awaited calls).
    - The record of a challenge issued at noon expires at 12:05; its clean-up
      callback is due then, but the event loop has not run it yet when [get]
      is called a second later: [get] returns the expired record.
    The store with the read-time check answers [null] in both cases. *)
Theorem legacy_nonce_get_returns_expired :
  let stale := mkNonceData Demo.pubkey Demo.challengeText (Demo.noon - 1000) in
  let s := Memory.Legacy.set Demo.nonceA stale Demo.noon Memory.empty in
  let data := mkNonceData Demo.pubkey Demo.challengeText (Demo.noon + 300000) in
  let readAt := (Demo.noon + 301000)%Z in
  let s' := Memory.Legacy.set Demo.nonceA data Demo.noon Memory.empty in
  (Memory.Legacy.nonce_get Demo.nonceA s = Some stale
   /\ (nd_expiresAt stale < Demo.noon)%Z
   /\ Memory.timers s = [((Demo.noon + 1)%Z, Demo.nonceA)]
   /\ fst (Memory.get Demo.nonceA Demo.noon s) = None)
  /\ (Memory.Legacy.nonce_get Demo.nonceA s' = Some data
      /\ (nd_expiresAt data < readAt)%Z
      /\ Memory.timers s' = [((Demo.noon + 300000)%Z, Demo.nonceA)]
      /\ fst (Memory.get Demo.nonceA readAt s') = None).
Proof. vm_compute. repeat split. Qed.

End StoreProps.

(** ** The Redis rate limiter *)

Section RateLimitProps.
Variables (keyPrefix identifier : str) (windowMinutes maxRequests : Z).
Variable start : Z.

Local Abbreviation windowMs := (windowMinutes * 60 * 1000)%Z.
Local Abbreviation key := (Redis.getKey keyPrefix identifier).
Local Abbreviation isOpen := (windowOpen keyPrefix identifier windowMinutes start).
Local Abbreviation answerTo := (answer maxRequests).
Local Abbreviation countedAfter := (counted maxRequests).

(** A request that finds no record opens a window with count 1. *)
Lemma increment_new_window (now : Z) (db : Redis.Db RateLimitData) :
  (1000 <= windowMs)%Z ->
  Redis.GET key now db = None ->
  exists db',
    Redis.increment 1 keyPrefix identifier windowMinutes maxRequests now db
    = Some (Redis.mkRateLimitResult true 1 (now + windowMs), db')
    /\ (now = start -> isOpen 1 db').
Proof.
  intros HW Hget. cbn [Redis.increment]. unfold Redis.EXISTS.
  rewrite Hget. cbn [negb]. eexists. split; [reflexivity|].
  intros ->. unfold Redis.set, Redis.ttlSeconds, expiresAt, RateLimitData_expiring.
  cbn [rl_expiresAt].
  replace (start + windowMs - start)%Z with windowMs by lia.
  assert (1 <= windowMs / 1000)%Z by (apply Z.div_le_lower_bound; lia).
  destruct (windowMs / 1000 <=? 0)%Z eqn:Hle; [apply Z.leb_le in Hle; lia|].
  unfold windowOpen, Redis.SETEX. rewrite lookup_insert_eq.
  eexists. split; [reflexivity|].
  pose proof (Z.mod_pos_bound windowMs 1000).
  pose proof (Z.div_mod windowMs 1000). lia.
Qed.

(** A request at least one second before the end of the open window is
    counted, and refused once [maxRequests] are counted. *)
Lemma increment_in_window (c now : Z) (db : Redis.Db RateLimitData) :
  isOpen c db ->
  (start <= now <= start + windowMs - 1000)%Z ->
  exists db',
    Redis.increment 1 keyPrefix identifier windowMinutes maxRequests now db
    = Some (Redis.mkRateLimitResult (fst (answerTo c)) (snd (answerTo c))
              (start + windowMs), db')
    /\ isOpen (countedAfter c) db'.
Proof.
  intros (expiry & Hdb & Hexp) Hnow.
  assert (Hget : Redis.GET key now db
                 = Some (mkRateLimitData c start (start + windowMs))).
  { unfold Redis.GET. rewrite Hdb.
    destruct (now <? expiry)%Z eqn:Hlt; [done|]. apply Z.ltb_ge in Hlt. lia. }
  cbn [Redis.increment]. unfold Redis.EXISTS, Redis.get.
  rewrite Hget. cbn [negb rl_windowStart rl_count rl_expiresAt].
  destruct (now - windowMs <=? start)%Z eqn:Hw; [|apply Z.leb_gt in Hw; lia].
  unfold answer, counted.
  destruct (maxRequests <=? c)%Z eqn:Hmax.
  - eexists. split; [reflexivity|]. by exists expiry.
  - eexists. split; [reflexivity|].
    unfold Redis.set, Redis.ttlSeconds, expiresAt, RateLimitData_expiring.
    cbn [rl_expiresAt].
    assert (1 <= (start + windowMs - now) / 1000)%Z
      by (apply Z.div_le_lower_bound; lia).
    destruct (_ <=? 0)%Z eqn:Hle; [apply Z.leb_le in Hle; lia|].
    unfold windowOpen, Redis.SETEX. rewrite lookup_insert_eq.
    eexists. split; [reflexivity|].
    pose proof (Z.mod_pos_bound (start + windowMs - now) 1000).
    pose proof (Z.div_mod (start + windowMs - now) 1000). lia.
Qed.

Lemma incrementAt_in_window (times : list Z) :
  forall (c : Z) (db : Redis.Db RateLimitData),
  isOpen c db ->
  Forall (fun now => (start <= now <= start + windowMs - 1000)%Z) times ->
  incrementAt keyPrefix identifier windowMinutes maxRequests times db
  = answers maxRequests c (length times).
Proof.
  induction times as [|now times IH]; intros c db Hopen Htimes; [done|].
  inversion Htimes; subst.
  destruct (increment_in_window c now db Hopen) as (db' & Hinc & Hopen'); [done|].
  cbn [incrementAt length answers]. rewrite Hinc. cbn [Redis.allowed Redis.count].
  rewrite <- surjective_pairing. f_equal. by apply IH.
Qed.

End RateLimitProps.

(** With [maxRequests = 10] and [windowMinutes = 15]: eleven requests a
    second apart are counted 1 to 10 and the eleventh is refused; a request
    after the window has rolled over is counted 1 again. *)
Example increment_spaced :
  incrementAt (js "siwa:ratelimit:") (js "203.0.113.7") 15 10
    ((fun i => (Demo.noon + Z.of_nat i * 1000)%Z) <$> seq 0 11) ∅
  = ((fun i => Some (true, Z.of_nat i)) <$> seq 1 10) ++ [Some (false, 10%Z)].
Proof. vm_compute. reflexivity. Qed.

Example increment_rollover :
  incrementAt (js "siwa:ratelimit:") (js "203.0.113.7") 15 10
    [Demo.noon; (Demo.noon + 1000)%Z; (Demo.noon + 900001)%Z] ∅
  = [Some (true, 1%Z); Some (true, 2%Z); Some (true, 1%Z)].
Proof. vm_compute. reflexivity. Qed.

(** Claim C9, on [RedisRateLimitStore.increment] with [maxRequests = 10] and
    [windowMinutes = 15].  A first request at noon opens the window; ten more
    arrive 899.5 s later, inside the window.  Each of them is answered
    [allowed = true] with [count = 2]: with less than a second of the window
    left, [set] computes [ttlSeconds = 0] and returns without writing the
    incremented count.  The eleventh request of the window is not refused. *)
Theorem increment_last_second_not_counted :
  incrementAt (js "siwa:ratelimit:") (js "203.0.113.7") 15 10
    (Demo.noon :: repeat (Demo.noon + 899500)%Z 10) ∅
  = Some (true, 1%Z) :: repeat (Some (true, 2%Z)) 10.
Proof. vm_compute. reflexivity. Qed.

(** ** Replay protection *)

Section ReplayProps.
Context `{Platform}.
Variable server : ServerOptions.

Lemma verified_parses now messageText pubkey signature m :
  verified server now messageText pubkey signature = Val m ->
  Codec.parseMessage messageText = Val m.
Proof.
  unfold verified. rewrite verify_outcome. cbn [mbind Exc_bind].
  pose proof (outcome_Outcome now messageText signature pubkey
                (Some (mkOptions (Some (srv_domain server)) None false))) as Ho.
  destruct Ho; cbn [success Verify.failure negb message]; try discriminate.
  by intros [= <-].
Qed.

(** *** Timers and deletions only remove entries *)

Lemma runTimers_entries_None {V} now (s : Memory.Store V) k :
  Memory.entries s !! k = None ->
  Memory.entries (Memory.runTimers now s) !! k = None.
Proof.
  unfold Memory.runTimers. cbn [Memory.entries].
  generalize (Memory.entries s). induction (Memory.timers s) as [|t ts IH];
    intros m Hm; [done|].
  cbn [fold_left]. apply IH. destruct (fst t <=? now)%Z; [|done].
  destruct (decide (snd t = k)) as [->|Hne];
    [apply lookup_delete_eq|by rewrite lookup_delete_ne].
Qed.

Lemma delete_entries_None {V} k' (s : Memory.Store V) k :
  Memory.entries s !! k = None ->
  Memory.entries (Memory.delete_ k' s) !! k = None.
Proof.
  intros Hk. cbn [Memory.delete_ Memory.entries].
  destruct (decide (k' = k)) as [->|Hne];
    [apply lookup_delete_eq|by rewrite lookup_delete_ne].
Qed.

(** *** [packages/server/dist/index.js] *)

Lemma legacy_verify_consumes now rb messageText pubkey signature st session st1 :
  LegacyServer.verifySignature server now rb messageText pubkey signature st
  = (Val session, st1) ->
  exists m, Codec.parseMessage messageText = Val m /\ consumed (nonce m) st1.
Proof.
  unfold LegacyServer.verifySignature.
  destruct (verified server now messageText pubkey signature) as [m|e] eqn:Hv;
    [|discriminate].
  destruct (Memory.Legacy.nonce_get _ _) as [nd|]; [|discriminate].
  destruct (negb _); [discriminate|].
  unfold openSession. intros [= _ <-].
  exists m. split; [by eapply verified_parses|].
  unfold consumed. cbn. apply lookup_delete_eq.
Qed.

Lemma legacy_verify_keeps_consumed N now rb messageText pubkey signature st :
  consumed N st ->
  consumed N (snd (LegacyServer.verifySignature server now rb messageText pubkey signature st)).
Proof.
  intros Hc. unfold LegacyServer.verifySignature.
  destruct (verified server now messageText pubkey signature) as [m|e]; [|done].
  destruct (Memory.Legacy.nonce_get _ _) as [nd|]; [|done].
  destruct (negb _); [done|].
  unfold openSession, consumed. cbn. by apply (delete_entries_None _ (nonceStore st)).
Qed.

Lemma issueChallenge_keeps_consumed_legacy N now nonce pubkey st :
  nonce <> N -> consumed N st ->
  consumed N (snd (issueChallenge server Memory.Legacy.set now nonce pubkey st)).
Proof.
  intros Hne Hc. unfold issueChallenge.
  destruct (createMessage _ _); [|done].
  unfold consumed. cbn. by rewrite lookup_insert_ne.
Qed.

Lemma legacyStep_keeps_consumed N op st :
  issuedNonce op <> Some N -> consumed N st -> consumed N (legacyStep server st op).
Proof.
  intros Hop Hc. destruct op as [now fuel rnd pk cid|now rb msg pk sig|now tok|tok|now];
    cbn [legacyStep].
  - unfold LegacyServer.createChallenge.
    destruct (negb _); [done|].
    cbn [issuedNonce] in Hop.
    destruct (Nonce.generateNonce fuel 32 rnd) as [[[nonce rnd']|e]|]; [|done|done].
    pose proof (issueChallenge_keeps_consumed_legacy N now nonce pk st) as Hi.
    destruct (issueChallenge _ _ _ _ _ _) as [r st']. cbn [snd] in Hi.
    apply Hi; [|done]. intros ->. by apply Hop.
  - by apply legacy_verify_keeps_consumed.
  - unfold LegacyServer.validateSession.
    destruct (Memory.Legacy.session_get _ _ _) as [r ss]. done.
  - done.
  - unfold consumed, runTimers. cbn [nonceStore]. by apply runTimers_entries_None.
Qed.

Lemma legacy_run_keeps_consumed N ops : forall st,
  Forall (fun op => issuedNonce op <> Some N) ops ->
  consumed N st -> consumed N (fold_left (legacyStep server) ops st).
Proof.
  induction ops as [|op ops IH]; intros st Hops Hc; [done|].
  inversion Hops; subst. cbn [fold_left]. apply IH; [done|].
  by apply legacyStep_keeps_consumed.
Qed.

Lemma legacy_verify_rejects_consumed now rb messageText pubkey signature st m :
  Codec.parseMessage messageText = Val m -> consumed (nonce m) st ->
  LegacyServer.verifySignature server now rb messageText pubkey signature st
  = (Throw (match verified server now messageText pubkey signature with
            | Val _ => js "Invalid or expired nonce"
            | Throw e => e
            end), st).
Proof.
  intros Hp Hc. unfold LegacyServer.verifySignature.
  destruct (verified server now messageText pubkey signature) as [m'|e] eqn:Hv;
    [|done].
  apply verified_parses in Hv. rewrite Hp in Hv. injection Hv as <-.
  unfold Memory.Legacy.nonce_get. by rewrite Hc.
Qed.

(** *** The server module with atomic consume *)

Lemma deleteAndGet_consumes N now (s : Memory.Store NonceData) :
  Memory.entries (snd (Memory.deleteAndGet N now s)) !! N = None.
Proof.
  unfold Memory.deleteAndGet.
  destruct (Memory.entries s !! N) as [d|] eqn:Hd; [|done].
  destruct (nd_expiresAt d <? now)%Z; cbn; apply lookup_delete_eq.
Qed.

Lemma deleteAndGet_keeps_None N N' now (s : Memory.Store NonceData) :
  Memory.entries s !! N = None ->
  Memory.entries (snd (Memory.deleteAndGet N' now s)) !! N = None.
Proof.
  intros Hn. unfold Memory.deleteAndGet.
  destruct (Memory.entries s !! N') as [d|] eqn:Hd; [|done].
  destruct (nd_expiresAt d <? now)%Z; cbn [snd]; by apply delete_entries_None.
Qed.

Lemma server_verify_consumes now rb messageText pubkey signature st session st1 :
  Server.verifySignature server now rb messageText pubkey signature st
  = (Val session, st1) ->
  exists m, Codec.parseMessage messageText = Val m /\ consumed (nonce m) st1.
Proof.
  unfold Server.verifySignature.
  destruct (verified server now messageText pubkey signature) as [m|e] eqn:Hv;
    [|discriminate].
  pose proof (deleteAndGet_consumes (nonce m) now (nonceStore st)) as Hd.
  destruct (Memory.deleteAndGet _ _ _) as [[nd|] ns]; [|discriminate].
  destruct (negb _); [discriminate|].
  unfold openSession. intros [= _ <-].
  exists m. split; [by eapply verified_parses|]. exact Hd.
Qed.

Lemma server_verify_keeps_consumed N now rb messageText pubkey signature st :
  consumed N st ->
  consumed N (snd (Server.verifySignature server now rb messageText pubkey signature st)).
Proof.
  intros Hc. unfold Server.verifySignature.
  destruct (verified server now messageText pubkey signature) as [m|e]; [|done].
  pose proof (deleteAndGet_keeps_None N (nonce m) now (nonceStore st) Hc) as Hd.
  destruct (Memory.deleteAndGet _ _ _) as [[nd|] ns]; [|done].
  destruct (negb _); [done|]. done.
Qed.

Lemma memory_set_keeps_None {V} `{Expiring V} k (d : V) now (s : Memory.Store V) k' :
  k <> k' -> Memory.entries s !! k' = None ->
  Memory.entries (Memory.set k d now s) !! k' = None.
Proof.
  intros Hne Hk. unfold Memory.set. destruct (_ <=? 0)%Z; [done|].
  cbn. by rewrite lookup_insert_ne.
Qed.

Lemma checkRateLimit_nonceStore now id st :
  nonceStore (snd (Server.checkRateLimit server now id st)) = nonceStore st.
Proof.
  unfold Server.checkRateLimit. destruct (negb _); [done|].
  destruct (Memory.get id now (rateLimitStore st)) as [[ex|] rl]; [|done].
  destruct (_ <=? _)%Z; [destruct (_ <=? _)%Z|]; done.
Qed.

Lemma serverStep_keeps_consumed N op st :
  issuedNonce op <> Some N -> consumed N st -> consumed N (serverStep server st op).
Proof.
  intros Hop Hc. destruct op as [now fuel rnd pk cid|now rb msg pk sig|now tok|tok|now];
    cbn [serverStep].
  - unfold Server.createChallenge.
    set (rl := match cid with Some (c :: id) => _ | _ => _ end).
    assert (Hrl : consumed N (snd rl)).
    { unfold rl. destruct cid as [[|c id]|]; try done.
      destruct (rateLimit server); [|done].
      unfold consumed. by rewrite checkRateLimit_nonceStore. }
    destruct rl as [allowed st0]. cbn [snd] in Hrl.
    destruct (negb allowed); [done|]. destruct (negb _); [done|].
    cbn [issuedNonce] in Hop.
    destruct (Nonce.generateNonce fuel 32 rnd) as [[[nonce rnd']|e]|]; [|done|done].
    unfold issueChallenge. destruct (createMessage _ _); [|done].
    unfold consumed. cbn. apply memory_set_keeps_None; [|done].
    intros ->. by apply Hop.
  - by apply server_verify_keeps_consumed.
  - unfold Server.validateSession.
    destruct (Memory.get _ _ _) as [r ss]. done.
  - done.
  - unfold consumed, runTimers. cbn [nonceStore]. by apply runTimers_entries_None.
Qed.

Lemma server_run_keeps_consumed N ops : forall st,
  Forall (fun op => issuedNonce op <> Some N) ops ->
  consumed N st -> consumed N (fold_left (serverStep server) ops st).
Proof.
  induction ops as [|op ops IH]; intros st Hops Hc; [done|].
  inversion Hops; subst. cbn [fold_left]. apply IH; [done|].
  by apply serverStep_keeps_consumed.
Qed.

Lemma server_verify_rejects_consumed now rb messageText pubkey signature st m :
  Codec.parseMessage messageText = Val m -> consumed (nonce m) st ->
  Server.verifySignature server now rb messageText pubkey signature st
  = (Throw (match verified server now messageText pubkey signature with
            | Val _ => js "Invalid or expired nonce"
            | Throw e => e
            end), st).
Proof.
  intros Hp Hc. unfold Server.verifySignature.
  destruct (verified server now messageText pubkey signature) as [m'|e] eqn:Hv;
    [|done].
  apply verified_parses in Hv. rewrite Hp in Hv. injection Hv as <-.
  unfold Memory.deleteAndGet. rewrite Hc. by destruct st.
Qed.

(** Claim C2, amended.  Once [verifySignature] has succeeded for a signed
    message, the nonce [N] of that message is gone from the nonce store, and
    every later [verifySignature] call with the same message, key and
    signature throws, whatever calls and timer runs come in between, as long
    as no [createChallenge] hands out [N] again: it throws ['Invalid or
    expired nonce'] when the message still passes [verify] at that time, and
    the error of [verify] (such as ['Message has expired']) when it does not.
    This holds for the server of [packages/server/dist/index.js] and for the
    server module with atomic consume. *)
Theorem replay_rejected (now : Z) (rb : list byte)
    (messageText pubkey signature : str) (st st1 : ServerState)
    (session : Session) :
  (LegacyServer.verifySignature server now rb messageText pubkey signature st
   = (Val session, st1) ->
   exists m,
     Codec.parseMessage messageText = Val m
     /\ consumed (nonce m) st1
     /\ forall (ops : list Op) (now' : Z) (rb' : list byte),
          Forall (fun op => issuedNonce op <> Some (nonce m)) ops ->
          let st2 := fold_left (legacyStep server) ops st1 in
          LegacyServer.verifySignature server now' rb' messageText pubkey signature st2
          = (Throw (match verified server now' messageText pubkey signature with
                    | Val _ => js "Invalid or expired nonce"
                    | Throw e => e
                    end), st2))
  /\ (Server.verifySignature server now rb messageText pubkey signature st
      = (Val session, st1) ->
      exists m,
        Codec.parseMessage messageText = Val m
        /\ consumed (nonce m) st1
        /\ forall (ops : list Op) (now' : Z) (rb' : list byte),
             Forall (fun op => issuedNonce op <> Some (nonce m)) ops ->
             let st2 := fold_left (serverStep server) ops st1 in
             Server.verifySignature server now' rb' messageText pubkey signature st2
             = (Throw (match verified server now' messageText pubkey signature with
                       | Val _ => js "Invalid or expired nonce"
                       | Throw e => e
                       end), st2)).
Proof.
  split.
  - intros Hv.
    destruct (legacy_verify_consumes _ _ _ _ _ _ _ _ Hv) as (m & Hp & Hc).
    exists m. split; [done|]. split; [done|]. intros ops now' rb' Hops st2.
    apply (legacy_verify_rejects_consumed _ _ _ _ _ _ m); [done|].
    by apply legacy_run_keeps_consumed.
  - intros Hv.
    destruct (server_verify_consumes _ _ _ _ _ _ _ _ Hv) as (m & Hp & Hc).
    exists m. split; [done|]. split; [done|]. intros ops now' rb' Hops st2.
    apply (server_verify_rejects_consumed _ _ _ _ _ _ m); [done|].
    by apply server_run_keeps_consumed.
Qed.

End ReplayProps.

Lemma replay_rejected_witness :
  LegacyServer.verifySignature Demo.server (Demo.noon + 2000) Demo.random32
    Demo.challengeText Demo.pubkey Demo.signature Demo.afterVerify
  = (Throw (js "Invalid or expired nonce"), Demo.afterVerify).
Proof.
  assert (Hv : LegacyServer.verifySignature Demo.server (Demo.noon + 1000)
                 Demo.random32 Demo.challengeText Demo.pubkey Demo.signature
                 Demo.issued
               = (Val Demo.session, Demo.afterVerify))
    by (vm_compute; reflexivity).
  destruct (proj1 (replay_rejected (H := Stub.platform) Demo.server
                     (Demo.noon + 1000) Demo.random32 Demo.challengeText
                     Demo.pubkey Demo.signature Demo.issued Demo.afterVerify
                     Demo.session) Hv) as (m & _ & _ & Hreplay).
  refine (eq_trans
            (Hreplay [] (Demo.noon + 2000)%Z Demo.random32 (List.Forall_nil _)) _).
  vm_compute. reflexivity.
Defined.

(** Claim C2 as stated fails.  The server issues a challenge at noon, with
    nonce [N] and expiry 12:05, and verifies the signed message a second
    later.  The same message, key and signature presented again at 12:10 are
    refused with ['Message has expired'], not with ['Invalid or expired
    nonce']: [verify] runs before the nonce is looked up. *)
Lemma replay_after_expiry_reports_expiry :
  (exists challenge rnd',
     LegacyServer.createChallenge Demo.server Demo.noon 1 Demo.zeros Demo.pubkey
       initialState
     = Some (Val challenge, Demo.issued, rnd')
     /\ ch_message challenge = Demo.challengeText
     /\ (nonce <$> Codec.parseMessage (ch_message challenge)) = Val Demo.nonceA)
  /\ LegacyServer.verifySignature Demo.server (Demo.noon + 1000) Demo.random32
       Demo.challengeText Demo.pubkey Demo.signature Demo.issued
     = (Val Demo.session, Demo.afterVerify)
  /\ LegacyServer.verifySignature Demo.server (Demo.noon + 600000) Demo.random32
       Demo.challengeText Demo.pubkey Demo.signature Demo.afterVerify
     = (Throw (js "Message has expired"), Demo.afterVerify)
  /\ fst (Server.verifySignature Demo.server (Demo.noon + 600000) Demo.random32
            Demo.challengeText Demo.pubkey Demo.signature Demo.afterVerify)
     = Throw (js "Message has expired")
  /\ js "Message has expired" <> js "Invalid or expired nonce".
Proof.
  split; [|split; [|split; [|split]]].
  - eexists _, _. vm_compute. repeat split.
  - vm_compute. reflexivity.
  - vm_compute. reflexivity.
  - vm_compute. reflexivity.
  - vm_compute. discriminate.
Qed.

(** ** Concurrent verification *)

Section RaceProps.
Context `{Platform}.
Variable server : ServerOptions.
Import Race.

(** *** Redis: both calls of a race can succeed *)

Lemma streq_refl (a : str) : streq a a = true.
Proof. unfold streq. by apply bool_decide_eq_true. Qed.

(** Left alone, the two steps of a call on the Redis nonce store are
    [RedisNonceStore.deleteAndGet] followed by the checks. *)
Lemma redisStep_uninterrupted (now : Z) (c : Call) (st : RedisState) :
  let '(t1, st1) := redisStep server now (Consuming c) st in
  let '(t2, st2) := redisStep server now t1 st1 in
  let '(nonceData, db) :=
    Redis.deleteAndGet noncePrefix (nonce (c_message c)) now (nonces st) in
  match nonceData with
  | Some _ => t2 = checkNonceData c nonceData /\ nonces st2 = db
  | None => t1 = checkNonceData c None /\ nonces st1 = db
  end.
Proof.
  cbn [redisStep]. unfold Redis.deleteAndGet.
  destruct (Redis.get noncePrefix (nonce (c_message c)) now (nonces st)) as [d|];
    cbn [redisStep nonces]; [|done].
  destruct (checkNonceData c (Some d)) eqn:Hc; cbn [redisStep nonces];
    try (destruct (sessionOf _ _ _)); done.
Qed.

(** On the Redis nonce store, whose [deleteAndGet] is a [get] followed by a
    [delete]: when the two calls alternate, both read the nonce before either
    deletes it, and both succeed. *)
Lemma redis_race_both_succeed (now : Z) (c1 c2 : Call) (st : RedisState)
    (nonceData : NonceData) :
  Racing c1 c2 nonceData ->
  Redis.get noncePrefix (nonce (c_message c1)) now (nonces st) = Some nonceData ->
  let '(a, b, _) :=
    runTwo (redisStep server) now [true; false; true; false; true; false]
      (Consuming c1) (Consuming c2) st in
  succeeded a = true /\ succeeded b = true.
Proof.
  intros [Hn H1 H2] Hget.
  unfold runTwo. cbn [fold_left redisStep].
  rewrite Hget. cbn [fold_left redisStep nonces].
  rewrite <- Hn, Hget. cbn [fold_left redisStep nonces sessions checkNonceData].
  rewrite H1, streq_refl. cbn [negb].
  rewrite <- H1, H2, streq_refl. cbn [negb].
  unfold sessionOf. cbn [succeeded]. done.
Qed.

(** *** In memory: exactly one call of a race succeeds *)

Lemma memoryStep_won now t st :
  won t = true ->
  won (fst (memoryStep server now t st)) = true
  /\ nonceStore (snd (memoryStep server now t st)) = nonceStore st.
Proof.
  destruct t as [c|c d|c|[s|e]]; try discriminate; intros _; cbn; done.
Qed.

Lemma memoryStep_waiting now N t st :
  waitingOrRejected N t ->
  Memory.entries (nonceStore st) !! N = None ->
  waitingOrRejected N (fst (memoryStep server now t st))
  /\ Memory.entries (nonceStore (snd (memoryStep server now t st))) !! N = None.
Proof.
  intros [(c & -> & Hc)| -> ] Hgone; [|by split; [right|]].
  cbn [memoryStep]. unfold Memory.deleteAndGet. rewrite Hc, Hgone.
  cbn. split; [by right|done].
Qed.

Lemma memoryStep_first now c nonceData st :
  Memory.entries (nonceStore st) !! nonce (c_message c) = Some nonceData ->
  (now <= nd_expiresAt nonceData)%Z ->
  nd_pubkey nonceData = c_pubkey c ->
  won (fst (memoryStep server now (Consuming c) st)) = true
  /\ Memory.entries (nonceStore (snd (memoryStep server now (Consuming c) st)))
       !! nonce (c_message c) = None.
Proof.
  intros Hd Hexp Hpk. cbn [memoryStep]. unfold Memory.deleteAndGet. rewrite Hd.
  destruct (nd_expiresAt nonceData <? now)%Z eqn:Hlt;
    [apply Z.ltb_lt in Hlt; lia|].
  cbn. rewrite Hpk, streq_refl. cbn. split; [done|apply lookup_delete_eq].
Qed.

Lemma raceInv_step now c1 c2 nonceData (first : bool) a b st :
  Racing c1 c2 nonceData ->
  (now <= nd_expiresAt nonceData)%Z ->
  raceInv c1 c2 nonceData (a, b, st) ->
  raceInv c1 c2 nonceData
    (if first then let '(a', st') := memoryStep server now a st in (a', b, st')
     else let '(b', st') := memoryStep server now b st in (a, b', st')).
Proof.
  intros [Hn H1 H2] Hexp Hinv. unfold raceInv in Hinv.
  destruct Hinv as [(-> & -> & Hd)|(Hgone & [[Hw Hr]|[Hw Hr]])].
  - destruct first.
    + destruct (memoryStep_first now c1 nonceData st Hd Hexp H1) as [Hw Hg].
      destruct (memoryStep server now (Consuming c1) st) as [a' st'].
      right. split; [done|]. left. split; [done|]. left. by exists c2.
    + rewrite Hn in Hd.
      destruct (memoryStep_first now c2 nonceData st Hd Hexp H2) as [Hw Hg].
      destruct (memoryStep server now (Consuming c2) st) as [b' st'].
      right. rewrite Hn. split; [done|]. right. split; [done|]. left. by exists c1.
  - destruct first.
    + destruct (memoryStep_won now a st Hw) as [Hw' Hs].
      destruct (memoryStep server now a st) as [a' st'].
      right. cbn [fst snd] in *. rewrite Hs. split; [done|]. by left.
    + destruct (memoryStep_waiting now _ b st Hr Hgone) as [Hr' Hg].
      destruct (memoryStep server now b st) as [b' st'].
      right. split; [done|]. by left.
  - destruct first.
    + destruct (memoryStep_waiting now _ a st Hr Hgone) as [Hr' Hg].
      destruct (memoryStep server now a st) as [a' st'].
      right. split; [done|]. by right.
    + destruct (memoryStep_won now b st Hw) as [Hw' Hs].
      destruct (memoryStep server now b st) as [b' st'].
      right. cbn [fst snd] in *. rewrite Hs. split; [done|]. by right.
Qed.

Lemma raceInv_run now c1 c2 nonceData schedule : forall w,
  Racing c1 c2 nonceData ->
  (now <= nd_expiresAt nonceData)%Z ->
  raceInv c1 c2 nonceData w ->
  raceInv c1 c2 nonceData
    (fold_left
       (fun w (first : bool) =>
          let '(a, b, st) := w in
          if first then let '(a', st') := memoryStep server now a st in (a', b, st')
          else let '(b', st') := memoryStep server now b st in (a, b', st'))
       schedule w).
Proof.
  induction schedule as [|first schedule IH]; intros [[a b] st] HR Hexp Hinv; [done|].
  cbn [fold_left]. apply IH; [done|done|]. by apply raceInv_step.
Qed.

(** On the in-memory nonce store, whose [deleteAndGet] runs in one step: under
    every schedule at most one of the two calls succeeds, and once both have
    finished one has succeeded and the other was refused with ['Invalid or
    expired nonce']. *)
Lemma memory_race_exactly_one (now : Z) (c1 c2 : Call) (st : ServerState)
    (nonceData : NonceData) (schedule : list bool) :
  Racing c1 c2 nonceData ->
  Memory.entries (nonceStore st) !! nonce (c_message c1) = Some nonceData ->
  (now <= nd_expiresAt nonceData)%Z ->
  let '(a, b, _) :=
    runTwo (memoryStep server) now schedule (Consuming c1) (Consuming c2) st in
  (succeeded a && succeeded b = false)
  /\ (forall ra rb, a = Done ra -> b = Done rb ->
        (succeeded a = true /\ rejectedNonce b = true)
        \/ (succeeded b = true /\ rejectedNonce a = true)).
Proof.
  intros HR Hd Hexp.
  pose proof (raceInv_run now c1 c2 nonceData schedule
                (Consuming c1, Consuming c2, st) HR Hexp) as Hinv.
  unfold runTwo.
  destruct (fold_left _ schedule _) as [[a b] st'].
  specialize (Hinv (or_introl (conj eq_refl (conj eq_refl Hd)))).
  unfold raceInv in Hinv.
  destruct Hinv as [(-> & -> & _)|(_ & [[Hw Hr]|[Hw Hr]])].
  - split; [done|]. intros ra rb [=].
  - destruct Hr as [(c & -> & _)| ->].
    + split; [by rewrite andb_false_r|]. intros ra rb _ [=].
    + split; [by rewrite andb_false_r|]. intros ra rb -> _. left.
      destruct ra; [done|discriminate].
  - destruct Hr as [(c & -> & _)| ->].
    + split; [done|]. intros ra rb [=].
    + split; [done|]. intros ra rb _ ->. right.
      destruct rb; [done|discriminate].
Qed.

End RaceProps.

(** Claim C3, on [RedisNonceStore.deleteAndGet].  The nonce of the challenge
    is on record in Redis; two [verifySignature] calls present the signed
    message at the same time and take turns at each [await].  Both find the
    nonce, both delete it, and both return a session. *)
Theorem redis_race_double_spend :
  let nonceData :=
    mkNonceData Demo.pubkey Demo.challengeText (Demo.noon + 300000) in
  let st :=
    Race.mkRedis
      (Redis.set Race.noncePrefix Demo.nonceA nonceData Demo.noon ∅) ∅ in
  let first := Race.mkCall Demo.challengeMessage Demo.pubkey Demo.random32 in
  let second := Race.mkCall Demo.challengeMessage Demo.pubkey (repeat x2b 32) in
  let '(a, b, st') :=
    Race.runTwo (Race.redisStep Demo.server) (Demo.noon + 1000)
      [true; false; true; false; true; false]
      (Race.Consuming first) (Race.Consuming second) st in
  Race.succeeded a = true /\ Race.succeeded b = true
  /\ Redis.get Race.noncePrefix Demo.nonceA (Demo.noon + 1000) (Race.nonces st)
     = Some nonceData
  /\ Redis.get Race.noncePrefix Demo.nonceA (Demo.noon + 1000) (Race.nonces st')
     = None.
Proof. vm_compute. repeat split. Qed.

(* ================================================================== *)
(** * Further properties *)

(** ** The message codec: what the parser returns *)

Section ParserProps.
Import Codec.

Lemma trimStart_head s : headNonSpace (trimStart s) = true.
Proof.
  induction s as [|c t IH]; [done|]. simpl.
  destruct (isSpace c) eqn:E; [done|]. simpl. by rewrite E.
Qed.

Lemma trimStart_fix s : headNonSpace s = true -> trimStart s = s.
Proof. destruct s as [|c t]; [done|]. simpl. by intros ->%negb_true_iff. Qed.

Lemma trimStart_suffix s : exists pre, s = pre ++ trimStart s.
Proof.
  induction s as [|c t [pre IH]]; [by exists []|]. simpl.
  destruct (isSpace c); [|by exists []].
  exists (c :: pre). simpl. by rewrite <- IH.
Qed.

Lemma trimEnd_prefix s : exists suf, s = trimEnd s ++ suf.
Proof.
  unfold trimEnd. destruct (trimStart_suffix (rev s)) as [pre E].
  exists (rev pre). rewrite <- rev_app_distr, <- E. by rewrite rev_involutive.
Qed.

Lemma trimEnd_head s : headNonSpace s = true -> headNonSpace (trimEnd s) = true.
Proof.
  intros Hs. destruct (trimEnd_prefix s) as [suf E].
  destruct (trimEnd s) as [|c t]; [done|]. rewrite E in Hs. done.
Qed.

Lemma trimEnd_last s : headNonSpace (rev (trimEnd s)) = true.
Proof. unfold trimEnd. rewrite rev_involutive. apply trimStart_head. Qed.

Lemma trim_fix s :
  headNonSpace s = true -> headNonSpace (rev s) = true -> trim s = s.
Proof.
  intros H1 H2. unfold trim, trimEnd. rewrite (trimStart_fix s H1).
  rewrite (trimStart_fix _ H2). apply rev_involutive.
Qed.

Lemma trim_idempotent s : trim (trim s) = trim s.
Proof.
  apply trim_fix.
  - unfold trim. apply trimEnd_head, trimStart_head.
  - unfold trim. apply trimEnd_last.
Qed.

Lemma noLF_trimStart s : noLF s = true -> noLF (trimStart s) = true.
Proof.
  intros Hs. destruct (trimStart_suffix s) as [pre E]. rewrite E in Hs.
  rewrite noLF_app in Hs. by apply andb_true_iff in Hs as [_ ?].
Qed.

Lemma noLF_rev s : noLF (rev s) = noLF s.
Proof.
  induction s as [|c t IH]; [done|]. simpl rev. rewrite noLF_app, IH.
  unfold noLF. simpl. rewrite andb_true_r. apply andb_comm.
Qed.

Lemma noLF_trim s : noLF s = true -> noLF (trim s) = true.
Proof.
  intros Hs. unfold trim, trimEnd. rewrite noLF_rev.
  apply noLF_trimStart. rewrite noLF_rev. by apply noLF_trimStart.
Qed.

Lemma split_lf_lines s : Forall (fun l => noLF l = true) (split_lf s).
Proof.
  induction s as [|c t IH]; [by repeat constructor|]. simpl.
  destruct (c =? LF)%N eqn:E; [by constructor|].
  destruct (split_lf t) as [|l ls]; [repeat constructor; simpl; by rewrite E|].
  inversion IH; subst. constructor; [|done]. unfold noLF in *. simpl. by rewrite E.
Qed.

Lemma headerMatch_shape line d :
  headerMatch line = Some d ->
  nonEmpty d = true /\ noLineTerminator d = true.
Proof.
  unfold headerMatch. destruct (endsWith _ _); [|done].
  cbv zeta. destruct (nonEmpty _ && _) eqn:E; [|done].
  intros [= <-]. by apply andb_true_iff in E.
Qed.

Lemma dotPlusEnd_shape s v :
  dotPlusEnd s = Some v -> nonEmpty v = true /\ noLineTerminator v = true.
Proof.
  unfold dotPlusEnd. destruct (nonEmpty s && _) eqn:E; [|done].
  intros [= <-]. by apply andb_true_iff in E.
Qed.

Lemma spacesThenDotPlusEnd_shape s v :
  spacesThenDotPlusEnd s = Some v ->
  nonEmpty v = true /\ noLineTerminator v = true.
Proof.
  induction s as [|c t IH]; [done|]. cbn [spacesThenDotPlusEnd].
  destruct (isSpace c); [|apply dotPlusEnd_shape].
  destruct (spacesThenDotPlusEnd t) as [w|]; [|apply dotPlusEnd_shape].
  intros [= <-]. by apply IH.
Qed.

Lemma fieldMatch_shape line k v :
  fieldMatch line = Some (k, v) ->
  nonEmpty k = true /\ nonEmpty v = true /\ noLineTerminator v = true.
Proof.
  unfold fieldMatch. destruct (splitColon line) as [[k' r]|]; [|done].
  destruct (nonEmpty k') eqn:Ek; [|done].
  destruct (spacesThenDotPlusEnd r) as [w|] eqn:Er; [|done].
  intros [= <- <-]. split; [done|]. by apply spacesThenDotPlusEnd_shape in Er.
Qed.

Lemma noLF_drop n s : noLF s = true -> noLF (drop n s) = true.
Proof.
  intros Hs. rewrite <- (take_drop n s) in Hs. rewrite noLF_app in Hs.
  by apply andb_true_iff in Hs as [_ ?].
Qed.

Lemma fieldStep_ok st line :
  fieldsOk st -> noLF line = true -> fieldsOk (fieldStep st line).
Proof.
  intros [Hf Hc] Hl. unfold fieldStep.
  destruct (streq line _); [done|].
  destruct (inResources st && _).
  { split; [done|]. cbn. apply Forall_app. split; [done|].
    constructor; [|done]. by apply noLF_drop. }
  destruct (fieldMatch line) as [[k v]|] eqn:Em; [|done].
  apply fieldMatch_shape in Em as (_ & ? & ?).
  split; [|done]. cbn. by apply map_Forall_insert_2.
Qed.

Lemma parseFields_ok ls : forall st,
  fieldsOk st -> Forall (fun l => noLF l = true) ls ->
  fieldsOk (fold_left fieldStep ls st).
Proof.
  induction ls as [|l ls IH]; intros st Hst Hls; [done|].
  inversion Hls; subst. cbn. apply IH; [|done]. by apply fieldStep_ok.
Qed.

Lemma scanStatement_statement ls : forall s0,
  Forall (fun l => noLF l = true) ls -> statementFound s0 ->
  statementFound (fst (scanStatement ls s0)).
Proof.
  induction ls as [|l ls IH]; intros s0 Hls Hs0; [done|].
  inversion Hls; subst. cbn [scanStatement].
  destruct (startsWith _ l); [done|].
  destruct (nonEmpty (trim l) && _) eqn:E; [|by apply IH].
  apply IH; [done|]. intros s [= <-]. apply andb_true_iff in E as [E _].
  split; [done|]. split; [apply trim_idempotent|by apply noLF_trim].
Qed.

Lemma scanStatement_found ls : forall s0 rest,
  snd (scanStatement ls s0) = Some rest -> exists pre, ls = pre ++ rest.
Proof.
  induction ls as [|l ls IH]; intros s0 rest; [done|]. cbn [scanStatement].
  destruct (startsWith _ l); [intros [= <-]; by exists []|].
  destruct (nonEmpty (trim l) && _); intros Hr; apply IH in Hr as [pre ->];
    by exists (l :: pre).
Qed.

Lemma checkRequired_present fs req :
  checkRequired fs req = Val tt ->
  Forall (fun k => exists v, fs !! k = Some v /\ getField fs k = v) req.
Proof.
  induction req as [|k req IH]; [done|]. cbn [checkRequired].
  destruct (truthy (fs !! k)) eqn:E; [|done]. intros Hr.
  constructor; [|by apply IH]. unfold getField.
  destruct (fs !! k) as [v|]; [|done]. by exists v.
Qed.

(** Whatever text it is given, the message [parseMessage] returns has a
    non-empty domain on one line, a non-empty address without surrounding
    white space, a statement that is absent or the trimmed text of a
    non-blank line, non-empty one-line values in all five required fields and
    in each optional field that is present, and resources that are absent or
    a non-empty list: no field is ever the empty string and [resources] is
    never the empty list. *)
Theorem parseMessage_result_shape text m :
  parseMessage text = Val m ->
  oneLine (domain m)
  /\ (nonEmpty (address m) = true /\ trim (address m) = address m
      /\ noLF (address m) = true)
  /\ statementFound (statement m)
  /\ Forall oneLine [uri m; version m; chainId m; nonce m; issuedAt m]
  /\ (forall v, In (Some v) [expirationTime m; notBefore m; requestId m] ->
        oneLine v)
  /\ (forall rs, resources m = Some rs ->
        rs <> [] /\ Forall (fun r => noLF r = true) rs).
Proof.
  unfold parseMessage.
  pose proof (split_lf_lines text) as Hlines.
  destruct (headerMatch _) as [d|] eqn:Eh; [|done].
  destruct (split_lf text !! 1%nat) as [a|] eqn:Ea; [|done].
  cbn [fmap option_fmap option_map truthy].
  destruct (nonEmpty (trim a)) eqn:Ene; [|done]. cbn [negb].
  destruct (scanStatement _ None) as [stmt found] eqn:Es.
  assert (Hrest : Forall (fun l => noLF l = true) (drop 2 (split_lf text))).
  { by apply Forall_drop. }
  assert (Hfl : Forall (fun l => noLF l = true)
                  (default (drop 2 (split_lf text)) found)).
  { destruct found as [rest|]; [|done]. cbn.
    pose proof (scanStatement_found (drop 2 (split_lf text)) None rest) as Hf.
    rewrite Es in Hf. destruct (Hf eq_refl) as [pre E]. rewrite E in Hrest.
    by apply Forall_app in Hrest as [_ ?]. }
  pose proof (parseFields_ok _ (mkFieldState ∅ [] false)
                (conj (map_Forall_empty _) (Forall_nil_2 _)) Hfl) as [Hf Hc].
  fold (parseFields (default (drop 2 (split_lf text)) found)) in Hf, Hc.
  destruct (checkRequired _ required) as [[]|] eqn:Er; [|done].
  cbn [mbind Exc_bind]. intros [= <-].
  cbn [domain address statement uri version chainId nonce issuedAt
       expirationTime notBefore requestId resources from_option id].
  apply checkRequired_present in Er.
  split; [by apply headerMatch_shape in Eh|].
  split.
  { split; [done|]. split; [apply trim_idempotent|].
    apply noLF_trim. eapply Forall_lookup_1 in Hlines; [|exact Ea]. done. }
  split.
  { pose proof (scanStatement_statement (drop 2 (split_lf text)) None Hrest) as Hs.
    rewrite Es in Hs. apply Hs. by intros s. }
  split.
  { unfold required in Er.
    repeat match goal with
    | H : Forall _ (_ :: _) |- _ =>
        let v := fresh "v" in let E := fresh "E" in let G := fresh "G" in
        apply Forall_cons in H as [(v & E & G) H]; rewrite G;
        apply Hf in E
    end.
    repeat (apply List.Forall_cons; [assumption|]). apply List.Forall_nil. }
  split.
  { intros v [E|[E|[E|[]]]]; by apply Hf in E. }
  intros rs Hrs. destruct (collected _) as [|r rs'] eqn:Ec; [done|].
  injection Hrs as <-. done.
Qed.

End ParserProps.

Lemma parseMessage_result_shape_witness :
  oneLine (domain Demo.fullMessage)
  /\ (nonEmpty (address Demo.fullMessage) = true
      /\ trim (address Demo.fullMessage) = address Demo.fullMessage
      /\ noLF (address Demo.fullMessage) = true)
  /\ statementFound (statement Demo.fullMessage)
  /\ Forall oneLine
       [uri Demo.fullMessage; version Demo.fullMessage; chainId Demo.fullMessage;
        nonce Demo.fullMessage; issuedAt Demo.fullMessage]
  /\ (forall v, In (Some v)
                  [expirationTime Demo.fullMessage; notBefore Demo.fullMessage;
                   requestId Demo.fullMessage] -> oneLine v)
  /\ (forall rs, resources Demo.fullMessage = Some rs ->
        rs <> [] /\ Forall (fun r => noLF r = true) rs).
Proof.
  apply (parseMessage_result_shape (Codec.serializeMessage Demo.fullMessage)
           Demo.fullMessage).
  vm_compute. reflexivity.
Defined.

Section DuplicateFields.
Import Codec.

Lemma split_lf_nonempty s : split_lf s <> [].
Proof.
  destruct s as [|c t]; [done|]. simpl.
  destruct (c =? LF)%N; [done|]. by destruct (split_lf t).
Qed.

Lemma split_lf_append a b : split_lf (a ++ LF :: b) = split_lf a ++ split_lf b.
Proof.
  induction a as [|c t IH]; [done|]. simpl.
  destruct (c =? LF)%N; [by rewrite IH|]. rewrite IH.
  pose proof (split_lf_nonempty t). by destruct (split_lf t).
Qed.

Lemma splitColon_inv l k r : splitColon l = Some (k, r) -> l = k ++ 58%N :: r.
Proof.
  revert k r. induction l as [|c t IH]; intros k r; [done|]. simpl.
  destruct (c =? 58)%N eqn:E.
  - intros [= <- <-]. apply N.eqb_eq in E. by subst.
  - destruct (splitColon t) as [[k' r']|]; [|done].
    intros [= <- <-]. simpl. by rewrite <- (IH k' r').
Qed.

Lemma fieldMatch_startsWith l k v :
  fieldMatch l = Some (k, v) -> startsWith (k ++ [58%N]) l = true.
Proof.
  unfold fieldMatch. destruct (splitColon l) as [[k' r]|] eqn:E; [|done].
  destruct (nonEmpty k'); [|done].
  destruct (spacesThenDotPlusEnd r); [|done]. intros [= <- _].
  apply splitColon_inv in E as ->.
  rewrite (app_assoc k' [58%N] r : k' ++ 58%N :: r = (k' ++ [58%N]) ++ r).
  apply startsWith_app.
Qed.

(** The field loop records ["URI"] only from a line that starts with
    ["URI:"]. *)
Lemma parseFields_no_uri ls : forall st,
  Forall (fun l => startsWith (js "URI:") l = false) ls ->
  fields (fold_left fieldStep ls st) !! js "URI" = fields st !! js "URI".
Proof.
  induction ls as [|l ls IH]; intros st Hls; [done|].
  inversion Hls as [|? ? Hl Hrest]; subst. cbn [fold_left]. rewrite IH by done.
  unfold fieldStep. destruct (streq l _); [done|].
  destruct (inResources st && _); [done|].
  destruct (fieldMatch l) as [[k v]|] eqn:E; [|done]. cbn [fields].
  apply lookup_insert_ne. intros ->.
  apply fieldMatch_startsWith in E. change (js "URI" ++ [58%N]) with (js "URI:") in E.
  congruence.
Qed.

Lemma scanStatement_not_found ls : forall s0,
  snd (scanStatement ls s0) = None ->
  Forall (fun l => startsWith (js "URI:") l = false) ls.
Proof.
  induction ls as [|l ls IH]; intros s0; [done|]. cbn [scanStatement].
  destruct (startsWith _ l) eqn:E; [done|].
  destruct (nonEmpty (trim l) && _); intros Hn; constructor; eauto.
Qed.

Lemma scanStatement_snoc ls x : forall s0 rest,
  snd (scanStatement ls s0) = Some rest ->
  scanStatement (ls ++ [x]) s0
  = (fst (scanStatement ls s0), Some (rest ++ [x])).
Proof.
  induction ls as [|l ls IH]; intros s0 rest; [done|]. cbn [scanStatement app].
  destruct (startsWith _ l); [by intros [= <-]|].
  destruct (nonEmpty (trim l) && _); apply IH.
Qed.

Lemma checkRequired_insert fs req (k v : str) :
  nonEmpty v = true ->
  checkRequired fs req = Val tt -> checkRequired (<[k := v]> fs) req = Val tt.
Proof.
  intros Hv. induction req as [|key req IH]; [done|]. cbn [checkRequired].
  destruct (truthy (fs !! key)) eqn:E; [|done]. intros Hr.
  destruct (decide (k = key)) as [->|Hne].
  - rewrite lookup_insert_eq. cbn [truthy]. rewrite Hv. by apply IH.
  - rewrite lookup_insert_ne by done. rewrite E. by apply IH.
Qed.

Lemma getField_insert (fs : gmap str str) (k v key : str) :
  getField (<[k := v]> fs) key = if streq k key then v else getField fs key.
Proof.
  unfold getField, streq. destruct (decide (k = key)) as [->|Hne].
  - by rewrite lookup_insert_eq, bool_decide_eq_true_2.
  - by rewrite lookup_insert_ne, bool_decide_eq_false_2.
Qed.

Lemma lookup_insert_pick (fs : gmap str str) (k v key : str) :
  <[k := v]> fs !! key = if streq k key then Some v else fs !! key.
Proof.
  unfold streq. destruct (decide (k = key)) as [->|Hne].
  - by rewrite lookup_insert_eq, bool_decide_eq_true_2.
  - by rewrite lookup_insert_ne, bool_decide_eq_false_2.
Qed.

Lemma fieldStep_line st (k v : str) :
  nonEmpty k = true -> noColon k = true -> startsWith (js "- ") k = false ->
  valueOk v = true ->
  fieldStep st (k ++ 58%N :: 32%N :: v)
  = mkFieldState (<[k := v]> (fields st)) (collected st) false.
Proof.
  intros Hk Hc Hd Hv. unfold fieldStep, streq.
  rewrite bool_decide_eq_false_2 by apply line_not_Resources.
  assert (startsWith (js "- ") (k ++ 58%N :: 32%N :: v) = false) as ->.
  { destruct k as [|a [|b k]]; [done| |exact Hd].
    cbn. by rewrite andb_false_r. }
  rewrite andb_false_r. by rewrite fieldMatch_line.
Qed.

(** A line ["k: v"] added at the end of a message that parses overrides
    whatever the message said about [k] before: of two lines for the same
    field the last one wins, and a key the parser does not know changes
    nothing. *)
Theorem parseMessage_last_field_wins text m (k v : str) :
  parseMessage text = Val m ->
  nonEmpty k = true -> noColon k = true -> noLF k = true ->
  startsWith (js "- ") k = false ->
  valueOk v = true ->
  parseMessage (text ++ LF :: k ++ js ": " ++ v) = Val (setField k v m).
Proof.
  intros Hp Hk Hc Hlf Hd Hv. revert Hp. unfold parseMessage.
  assert (Hline : split_lf (k ++ js ": " ++ v) = [k ++ js ": " ++ v]).
  { apply split_lf_noLF. rewrite !noLF_app, Hlf, (valueOk_noLF _ Hv). reflexivity. }
  rewrite split_lf_append, Hline.
  set (L := split_lf text). set (line := k ++ js ": " ++ v).
  destruct (L !! 0%nat) as [h|] eqn:E0;
    [|by pose proof (split_lf_nonempty text); destruct L].
  destruct (L !! 1%nat) as [a|] eqn:E1;
    [|intros Hp; exfalso; cbn [from_option id] in Hp;
      by destruct (headerMatch h)].
  rewrite (lookup_app_l_Some _ _ _ _ E0), (lookup_app_l_Some _ _ _ _ E1).
  cbn [from_option id].
  destruct (headerMatch h) as [d|]; [|done].
  cbn [fmap option_fmap option_map truthy].
  destruct (nonEmpty (trim a)); [|done]. cbn [negb].
  assert (Hlen : (2 <= length L)%nat) by (apply lookup_lt_Some in E1; lia).
  rewrite drop_app_le by done.
  destruct (scanStatement (drop 2 L) None) as [stmt found] eqn:Es.
  destruct found as [rest|].
  - rewrite (scanStatement_snoc _ line None rest) by (by rewrite Es).
    rewrite Es. cbn [fst from_option id].
    unfold parseFields. rewrite fold_left_app. cbn [fold_left].
    set (st := fold_left fieldStep rest _).
    unfold line. change (js ": " ++ v) with (58%N :: 32%N :: v).
    rewrite fieldStep_line by done. cbn [fields collected].
    destruct (checkRequired (fields st) required) as [[]|] eqn:Er; [|done].
    cbn [mbind Exc_bind]. intros [= <-].
    rewrite checkRequired_insert by (done || by apply valueOk_nonEmpty).
    cbn [mbind Exc_bind]. unfold setField.
    cbn [domain address statement uri version chainId nonce issuedAt
         expirationTime notBefore requestId resources].
    by rewrite !getField_insert, !lookup_insert_pick.
  - cbn [from_option id].
    pose proof (scanStatement_not_found (drop 2 L) None) as Hno.
    rewrite Es in Hno. specialize (Hno eq_refl).
    destruct (checkRequired _ required) as [[]|] eqn:Er; [|done].
    exfalso. unfold required in Er. cbn [checkRequired] in Er.
    unfold parseFields in Er. rewrite parseFields_no_uri in Er by done.
    cbn [fields] in Er. by rewrite lookup_empty in Er.
Qed.

End DuplicateFields.

Lemma parseMessage_last_field_wins_witness :
  Codec.parseMessage
    (Codec.serializeMessage Demo.fullMessage ++ LF :: js "Nonce" ++ js ": " ++ js "zzz999")
  = Val (setField (js "Nonce") (js "zzz999") Demo.fullMessage).
Proof.
  apply (parseMessage_last_field_wins (Codec.serializeMessage Demo.fullMessage)
           Demo.fullMessage (js "Nonce") (js "zzz999")); vm_compute; reflexivity.
Defined.

Section DomainProps.
Import Codec.

Lemma forallb_rev' {A} (f : A -> bool) l : forallb f (rev l) = forallb f l.
Proof.
  induction l as [|x l IH]; [done|]. cbn [rev forallb].
  rewrite forallb_app, IH. cbn [forallb]. rewrite andb_true_r. apply andb_comm.
Qed.

Lemma domainPattern_spec d :
  domainPattern d = true
  <-> (2 <= length d)%nat
      /\ (exists c, head d = Some c /\ isAlnum c = true)
      /\ (exists c, last d = Some c /\ isAlnum c = true)
      /\ forallb isDomainChar d = true.
Proof.
  destruct d as [|c t]; [cbn; split; [done|intros (? & _); lia]|].
  cbn [domainPattern head length].
  destruct (rev t) as [|l mid] eqn:Er;
    apply (f_equal (@rev _)) in Er; rewrite rev_involutive in Er; subst t.
  { cbn. rewrite andb_false_r. split; [done|intros (? & _); lia]. }
  cbn [rev]. rewrite last_cons, last_snoc, length_app. cbn [length].
  fold isDomainChar.
  change (fun x => isAlnum x || (x =? 46)%N || (x =? 45)%N) with isDomainChar.
  split.
  - rewrite !andb_true_iff. intros (Hc & Hl & Hm).
    split; [lia|]. split; [by exists c|]. split; [by exists l|].
    cbn [forallb]. rewrite forallb_app, forallb_rev', Hm. cbn [forallb].
    unfold isDomainChar. by rewrite Hc, Hl.
  - intros (_ & (c' & [= <-] & Hc) & (l' & [= <-] & Hl) & Hall).
    cbn [forallb] in Hall. rewrite forallb_app, forallb_rev' in Hall.
    apply andb_true_iff in Hall as [_ Hall].
    apply andb_true_iff in Hall as [Hm _].
    by rewrite Hc, Hl, Hm.
Qed.

Lemma isValidDomain_shape d :
  isValidDomain d = true
  <-> (2 <= length d <= 253)%nat
      /\ (exists c, head d = Some c /\ isAlnum c = true)
      /\ (exists c, last d = Some c /\ isAlnum c = true)
      /\ forallb isDomainChar d = true.
Proof.
  unfold isValidDomain.
  destruct (253 <? length d)%nat eqn:Elen.
  { rewrite orb_true_r. apply Nat.ltb_lt in Elen. split; [done|]. lia. }
  apply Nat.ltb_ge in Elen. rewrite orb_false_r.
  destruct (nonEmpty d) eqn:Ene; cbn [negb].
  2: { destruct d; [|done]. cbn. split; [done|]. lia. }
  unfold streq. destruct (decide (d = js "localhost")) as [->|Hne].
  - rewrite bool_decide_eq_true_2 by done. split; [intros _|done].
    split; [cbn; lia|]. split; [by eexists|]. split; [by eexists|]. reflexivity.
  - rewrite bool_decide_eq_false_2 by done. rewrite domainPattern_spec.
    split; intros (? & ? & ? & ?); repeat split; (lia || done).
Qed.

(** [isValidDomain] accepts exactly the names of 2 to 253 characters that
    begin and end with an ASCII letter or digit and consist of ASCII letters,
    digits, dots and hyphens.  So a one-character name, a name with a port
    (["localhost:3000"]), an underscore or a non-ASCII letter is refused, and
    the special case for ["localhost"] admits nothing that the pattern does
    not admit already. *)
Theorem isValidDomain_spec d :
  isValidDomain d = true
  <-> (2 <= length d <= 253)%nat
      /\ (exists c, head d = Some c /\ isAlnum c = true)
      /\ (exists c, last d = Some c /\ isAlnum c = true)
      /\ forallb isDomainChar d = true.
Proof. apply isValidDomain_shape. Qed.

End DomainProps.

(** ** The timing validator: the instants at which a message is valid *)

Section TimingWindow.
Context `{Platform}.
Import Timing.

Lemma validateTiming_bounds now m :
  valid (validateTiming now m) = true
  <-> (forall t, instant (expirationTime m) = Some t -> (now <= t)%Z)
      /\ (forall t, instant (notBefore m) = Some t -> (t <= now)%Z)
      /\ (forall t, Date_parse (issuedAt m) = Some t -> (t <= now + 300000)%Z).
Proof.
  unfold validateTiming, instant, isAfter, isBefore, isBeyondSkew, maxSkew.
  destruct (expirationTime m) as [e|]; [destruct (nonEmpty e)|];
  destruct (notBefore m) as [nb|]; try destruct (nonEmpty nb);
  cbn [andb].
  all: repeat match goal with
       | |- context [Date_parse ?x] =>
           let t := fresh "t" in let E := fresh "E" in
           destruct (Date_parse x) as [t|] eqn:E
       end.
  all: repeat match goal with
       | |- context [(?a <? ?b)%Z] =>
           let E := fresh "E" in destruct (Z.ltb_spec a b) as [E|E]
       end.
  all: cbn [valid].
  all: split;
    [ try discriminate; intros _;
      repeat split; intros ? [= <-] || intros ? [=]; lia
    | intros (H1 & H2 & H3); try reflexivity; exfalso;
      try (specialize (H1 _ eq_refl)); try (specialize (H2 _ eq_refl));
      try (specialize (H3 _ eq_refl)); lia ].
Qed.

(** [validateTiming] accepts a message exactly at the instants that are
    not after its expiration time, not before its not-before time, and not
    more than five minutes before its issue time; the bounds are inclusive,
    and a bound whose field is absent, empty or not a date is no bound at
    all: a message whose expiration time does not parse never expires. *)
Theorem validateTiming_valid_iff now m :
  valid (validateTiming now m) = true
  <-> (forall t, instant (expirationTime m) = Some t -> (now <= t)%Z)
      /\ (forall t, instant (notBefore m) = Some t -> (t <= now)%Z)
      /\ (forall t, Date_parse (issuedAt m) = Some t -> (t <= now + 300000)%Z).
Proof. apply validateTiming_bounds. Qed.

(** A message made by [createMessage] at [now] is valid from five minutes
    before [now] up to and including the instant it expires,
    [expirationMinutes] (5 by default) after [now], and at no other instant;
    this for a platform whose [Date] reads back the two ISO strings it
    printed. *)
Theorem createMessage_valid_until_expiry now params m t :
  createMessage now params = Val m ->
  let expiry := (now + default 5 (p_expirationMinutes params) * 60 * 1000)%Z in
  Date_parse (Date_toISOString now) = Some now ->
  Date_parse (Date_toISOString expiry) = Some expiry ->
  Date_toISOString expiry <> [] ->
  valid (validateTiming t m) = true <-> (now - 300000 <= t <= expiry)%Z.
Proof.
  intros Hc expiry Hnow Hexp Hne. unfold createMessage in Hc.
  destruct (negb (Codec.isValidDomain _)); [done|].
  destruct (negb (URL_parses _)); [done|].
  destruct (negb (Codec.isValidSolanaAddress _)); [done|].
  injection Hc as <-. rewrite validateTiming_bounds.
  cbn [expirationTime notBefore issuedAt instant]. fold expiry.
  destruct (Date_toISOString expiry) as [|c s] eqn:E; [done|].
  cbn [nonEmpty]. rewrite Hnow, Hexp. split.
  - intros (H1 & _ & H3). specialize (H1 _ eq_refl). specialize (H3 _ eq_refl). lia.
  - intros Ht. repeat split; intros ? [= <-] || intros ? [=]; lia.
Qed.

End TimingWindow.

Lemma createMessage_valid_until_expiry_witness :
  Timing.valid (Timing.validateTiming (Demo.noon + 1000) Demo.challengeMessage) = true
  <-> (Demo.noon - 300000 <= Demo.noon + 1000 <= Demo.noon + 5 * 60 * 1000)%Z.
Proof.
  apply (createMessage_valid_until_expiry (H := Stub.platform) Demo.noon
           {| p_domain := js "example.com";
              p_address := Demo.pubkey;
              p_uri := js "https://example.com/auth";
              p_chainId := None;
              p_statement := Some (js "Sign in to Example App");
              p_nonce := Demo.nonceA;
              p_expirationMinutes := None;
              p_resources := None;
              p_requestId := None |}
           Demo.challengeMessage (Demo.noon + 1000));
    [reflexivity|reflexivity|reflexivity|discriminate].
Defined.

Section NonceUniform.
Import Nonce.

Lemma allBytes_complete b : In b allBytes.
Proof. destruct b; vm_compute; tauto. Qed.

Lemma allBytes_NoDup : NoDup allBytes.
Proof.
  apply (NoDup_fmap_1 Byte.to_N).
  apply (bool_decide_unpack _). vm_compute. reflexivity.
Qed.

(** Rejection sampling leaves no modulo bias: the bytes are the 256 values,
    each listed once, and every character of the 62-symbol alphabet is the
    image of exactly four of the bytes that [generateNonce] keeps (those
    below 248), so a uniform random byte that is kept gives a uniform random
    character. *)
Theorem generateNonce_no_modulo_bias c :
  In c chars ->
  (forall b, In b allBytes) /\ NoDup allBytes
  /\ length (preimages c) = 4%nat
  /\ (forall b, In b (preimages c) <-> accepted b = true /\ charOf b = c).
Proof.
  intros Hc. split; [apply allBytes_complete|]. split; [apply allBytes_NoDup|].
  split.
  - unfold chars in Hc.
    repeat (destruct Hc as [<-|Hc]; [vm_compute; reflexivity|]). destruct Hc.
  - intros b. unfold preimages. rewrite filter_In, andb_true_iff, N.eqb_eq.
    pose proof (allBytes_complete b). tauto.
Qed.

End NonceUniform.

Lemma generateNonce_no_modulo_bias_witness :
  (forall b, In b allBytes) /\ NoDup allBytes
  /\ length (preimages 65%N) = 4%nat
  /\ (forall b, In b (preimages 65%N)
       <-> Nonce.accepted b = true /\ Nonce.charOf b = 65%N).
Proof.
  apply (generateNonce_no_modulo_bias 65%N). vm_compute. tauto.
Defined.

(** ** The signature verifier: what success means *)

Section VerifySuccess.
Context `{Platform}.
Import Verify.

Lemma truthy_Some (o : option str) :
  truthy o = true <-> exists c s, o = Some (c :: s).
Proof.
  destruct o as [[|c s]|]; cbn; split; try done; try (by intros (? & ? & ?)).
  by exists c, s.
Qed.

Lemma verify_success_inv now messageText signature publicKey options r :
  verify now messageText signature publicKey options = Val r ->
  success r = true ->
  exists m, r = mkResult true (Some m) None
            /\ Verified now messageText signature publicKey options m.
Proof.
  unfold verify, catch.
  destruct (Codec.parseMessage messageText) as [m|e] eqn:Ep;
    [|by intros [= <-]].
  destruct (isValidSolanaAddress publicKey) eqn:Ek; cbn [negb];
    [|by intros [= <-]].
  destruct (streq (address m) publicKey) eqn:Ea; cbn [negb];
    [|by intros [= <-]].
  apply bool_decide_eq_true in Ea.
  destruct (truthy (option_domain options) && _) eqn:Ed; [by intros [= <-]|].
  destruct (truthy (option_nonce options) && _) eqn:En; [by intros [= <-]|].
  destruct (negb (Timing.valid _)) eqn:Et; [by intros [= <-]|].
  apply negb_false_iff in Et.
  assert (Hdom : forall d, option_domain options = Some d -> d <> [] -> domain m = d).
  { intros d Hd Hne. rewrite Hd in Ed. destruct d as [|c d]; [done|].
    cbn in Ed. apply negb_false_iff in Ed. by apply bool_decide_eq_true in Ed. }
  assert (Hnon : forall n, option_nonce options = Some n -> n <> [] -> nonce m = n).
  { intros n Hn Hne. rewrite Hn in En. destruct n as [|c n]; [done|].
    cbn in En. apply negb_false_iff in En. by apply bool_decide_eq_true in En. }
  assert (Htim : option_skipTimeCheck options = false ->
                 Timing.valid (Timing.validateTiming now m) = true).
  { intros Hs. by rewrite Hs in Et. }
  assert (Hsig : forall sb,
    decoded signature sb ->
    catch
      (if negb (length sb =? 64)%nat
       then Val (failure (js "Invalid signature length: "
                          ++ js (pretty (N.of_nat (length sb)))
                          ++ js " (expected 64)"))
       else publicKeyBytes ← bs58_decode publicKey;
            (if negb (verifyEd25519Signature (TextEncoder_encode messageText)
                        sb publicKeyBytes)
             then Val (failure (js "Signature verification failed"))
             else Val (mkResult true (Some m) None)))
      (fun e => Val (failure (js "Verification error: " ++ e))) = Val r ->
    success r = true ->
    exists m0, r = mkResult true (Some m0) None
               /\ Verified now messageText signature publicKey options m0).
  { intros sb Hdec.
    destruct (length sb =? 64)%nat eqn:El; cbn [negb]; [|by intros [= <-]].
    apply Nat.eqb_eq in El.
    destruct (bs58_decode publicKey) as [pk|e] eqn:Epk; [|by intros [= <-]].
    cbn [mbind Exc_bind].
    destruct (verifyEd25519Signature _ sb pk) eqn:Ev; cbn [negb];
      [|by intros [= <-]].
    intros [= <-] _. exists m. split; [done|].
    constructor; try done. exists sb, pk. repeat split; try done.
    unfold verifyEd25519Signature in Ev.
    destruct (nacl_sign_detached_verify _ _ _) as [[]|]; done. }
  cbv zeta. destruct (bs58_decode signature) as [sb|e1] eqn:E58.
  - apply Hsig. by left.
  - destruct (Buffer_from_base64 signature) as [sb|e2] eqn:E64;
      [|by intros [= <-]].
    apply Hsig. right. split; [by exists e1|done].
Qed.

Lemma verify_success_intro now messageText signature publicKey options m :
  Verified now messageText signature publicKey options m ->
  verify now messageText signature publicKey options
  = Val (mkResult true (Some m) None).
Proof.
  intros [Hp Hk Ha Hd Hn Ht (sb & pk & Hdec & Hlen & Hpk & Hv)].
  unfold verify, catch. rewrite Hp, Hk. cbn [negb].
  unfold streq. rewrite bool_decide_eq_true_2 by done. cbn [negb].
  assert (truthy (option_domain options)
          && negb (bool_decide (domain m = default [] (option_domain options)))
          = false) as ->.
  { destruct (option_domain options) as [[|c d]|] eqn:E; try done.
    cbn. by rewrite bool_decide_eq_true_2 by (by apply Hd). }
  assert (truthy (option_nonce options)
          && negb (bool_decide (nonce m = default [] (option_nonce options)))
          = false) as ->.
  { destruct (option_nonce options) as [[|c n]|] eqn:E; try done.
    cbn. by rewrite bool_decide_eq_true_2 by (by apply Hn). }
  assert (negb (Timing.valid
            (if negb (option_skipTimeCheck options)
             then Timing.validateTiming now m else Timing.mkTiming true None))
          = false) as ->.
  { destruct (option_skipTimeCheck options); [done|]. cbn [negb].
    by rewrite Ht. }
  assert (Hrun :
    catch
      (if negb (length sb =? 64)%nat
       then Val (failure (js "Invalid signature length: "
                          ++ js (pretty (N.of_nat (length sb)))
                          ++ js " (expected 64)"))
       else publicKeyBytes ← bs58_decode publicKey;
            (if negb (verifyEd25519Signature (TextEncoder_encode messageText)
                        sb publicKeyBytes)
             then Val (failure (js "Signature verification failed"))
             else Val (mkResult true (Some m) None)))
      (fun e => Val (failure (js "Verification error: " ++ e)))
    = Val (mkResult true (Some m) None)).
  { assert ((length sb =? 64)%nat = true) as -> by (by apply Nat.eqb_eq).
    cbn [negb]. rewrite Hpk. cbn [mbind Exc_bind]. unfold verifyEd25519Signature.
    by rewrite Hv. }
  cbv zeta. destruct Hdec as [E58|[[e E58] E64]]; rewrite E58; [exact Hrun|].
  rewrite E64. exact Hrun.
Qed.

(** [verify] answers [{success: true, message}] exactly when the text
    parses to [message], the public key is a valid address and is the
    message's address, the domain and the nonce equal the options that are
    given and non-empty, the timing check passes unless it is skipped, and
    the signature (base58, or base64 when base58 throws) decodes to 64 bytes
    that the Ed25519 primitive accepts for the UTF-8 bytes of the text under
    the decoded public key. *)
Theorem verify_success_iff now messageText signature publicKey options m :
  verify now messageText signature publicKey options
  = Val (mkResult true (Some m) None)
  <-> Verified now messageText signature publicKey options m.
Proof.
  split; [|apply verify_success_intro].
  intros Hv. destruct (verify_success_inv _ _ _ _ _ _ Hv eq_refl) as (m' & E & V).
  by injection E as <-.
Qed.

(** Whenever [verify] reports success, [verifySignatureOnly] accepts the
    same text, signature and public key. *)
Theorem verify_implies_verifySignatureOnly
    now messageText signature publicKey options r :
  verify now messageText signature publicKey options = Val r ->
  success r = true ->
  SignatureOnly.verifySignatureOnly (inl messageText) (inl signature)
    (inl publicKey) = true.
Proof.
  intros Hv Hs.
  destruct (verify_success_inv _ _ _ _ _ _ Hv Hs) as (m & _ & V).
  destruct (v_signature _ _ _ _ _ _ V) as (sb & pk & Hdec & _ & Hpk & Hn).
  unfold SignatureOnly.verifySignatureOnly, catch.
  assert (match bs58_decode signature with
          | Val a => Val a
          | Throw _ => Buffer_from_base64 signature
          end = Val sb) as ->.
  { destruct Hdec as [->|[[e ->] ->]]; done. }
  cbn [mbind Exc_bind]. rewrite Hpk. cbn [mbind Exc_bind].
  unfold verifyEd25519Signature. by rewrite Hn.
Qed.

End VerifySuccess.

Lemma verify_implies_verifySignatureOnly_witness :
  SignatureOnly.verifySignatureOnly (inl Demo.challengeText) (inl Demo.signature)
    (inl Demo.pubkey) = true.
Proof.
  apply (verify_implies_verifySignatureOnly (H := Stub.platform)
           (Demo.noon + 1000) Demo.challengeText Demo.signature Demo.pubkey
           (Some (mkOptions (Some (js "example.com")) None false))
           (mkResult true (Some Demo.challengeMessage) None));
    [vm_compute; reflexivity|reflexivity].
Defined.

Section MemoryProps.

(** What a turn of the event loop leaves of the [Map]. *)
Lemma runTimers_lookup {V} (now : Z) (s : Memory.Store V) (key : str) :
  Memory.entries (Memory.runTimers now s) !! key
  = if existsb (dueFor key now) (Memory.timers s) then None
    else Memory.entries s !! key.
Proof.
  unfold Memory.runTimers. cbn [Memory.entries].
  generalize (Memory.entries s).
  induction (Memory.timers s) as [|t ts IH]; intros m; [done|].
  cbn [fold_left existsb]. rewrite IH. unfold dueFor at 2.
  destruct (existsb _ ts); [by rewrite orb_true_r|]. rewrite orb_false_r.
  destruct (fst t <=? now)%Z; [|done]. cbn [andb]. unfold streq.
  destruct (decide (snd t = key)) as [->|Hne].
  - rewrite bool_decide_eq_true_2 by done. apply lookup_delete_eq.
  - rewrite bool_decide_eq_false_2 by done. by apply lookup_delete_ne.
Qed.

Lemma existsb_dueFor_false key now (timers : list (Z * str)) :
  Forall (fun timer => snd timer = key -> (now < fst timer)%Z) timers ->
  existsb (dueFor key now) timers = false.
Proof.
  induction 1 as [|t ts Ht _ IH]; [done|]. cbn [existsb]. rewrite IH, orb_false_r.
  unfold dueFor, streq. destruct (decide (snd t = key)) as [E|Hne].
  - specialize (Ht E). apply andb_false_iff. left. apply Z.leb_gt. lia.
  - rewrite bool_decide_eq_false_2 by done. apply andb_false_r.
Qed.

(** The in-memory stores of the server module with rate limiting, [set]
    then [get]: a record that has not expired when it is stored, and whose
    lifetime fits a timer delay (at most 2^31-1 ms), is read back unchanged
    at every instant up to and including [expiresAt], also after turns of
    the event loop that ran before [expiresAt], provided no older clean-up
    callback for the same key was still waiting to run in those turns. *)
Theorem memory_set_get {V} `{Expiring V} (key : str) (data : V)
    (now turn readAt : Z) (s : Memory.Store V) :
  (now < expiresAt data)%Z ->
  (expiresAt data - now <= 2147483647)%Z ->
  Forall (fun timer => snd timer = key -> (turn < fst timer)%Z) (Memory.timers s) ->
  (turn < expiresAt data)%Z ->
  (readAt <= expiresAt data)%Z ->
  fst (Memory.get key readAt (Memory.runTimers turn (Memory.set key data now s)))
  = Some data.
Proof.
  intros Hfresh Hfit Hold Hturn Hread.
  unfold Memory.get. rewrite runTimers_lookup.
  unfold Memory.set. destruct (Z.leb_spec (expiresAt data - now) 0); [lia|].
  cbn [Memory.setTimeout_delete Memory.timers Memory.entries].
  rewrite existsb_dueFor_false.
  - rewrite lookup_insert_eq. destruct (Z.ltb_spec (expiresAt data) readAt); [lia|done].
  - apply Forall_app. split; [done|]. constructor; [|done]. cbn. intros _.
    unfold Memory.timeoutDelay.
    destruct (Z.leb_spec 1 (expiresAt data - now)); [|lia].
    destruct (Z.leb_spec (expiresAt data - now) 2147483647); [|lia].
    cbn [andb]. lia.
Qed.

(** A record whose lifetime exceeds the largest timer delay (2^31-1 ms,
    about 24.8 days) is stored with a clean-up callback due one millisecond
    later: after the next turn of the event loop it is gone, long before it
    expires. *)
Theorem memory_set_long_lived_is_dropped {V} `{Expiring V} (key : str) (data : V)
    (now turn : Z) (s : Memory.Store V) :
  (2147483647 < expiresAt data - now)%Z ->
  (now + 1 <= turn)%Z ->
  Memory.entries (Memory.runTimers turn (Memory.set key data now s)) !! key = None
  /\ Memory.entries (Memory.runTimers turn (Memory.Legacy.set key data now s)) !! key
     = None.
Proof.
  intros Hlong Hturn.
  assert (Hdue : forall timers : list (Z * str),
            existsb (dueFor key turn)
              (timers ++ [((now + Memory.timeoutDelay (expiresAt data - now))%Z, key)])
            = true).
  { intros timers. rewrite existsb_app. apply orb_true_iff. right.
    cbn [existsb]. rewrite orb_false_r. unfold dueFor, streq. cbn [fst snd].
    rewrite bool_decide_eq_true_2 by done. rewrite andb_true_r.
    unfold Memory.timeoutDelay.
    destruct (Z.leb_spec (expiresAt data - now) 2147483647); [lia|].
    rewrite andb_false_r. apply Z.leb_le. lia. }
  split; rewrite runTimers_lookup.
  - unfold Memory.set. destruct (Z.leb_spec (expiresAt data - now) 0); [lia|].
    cbn [Memory.setTimeout_delete Memory.timers]. by rewrite Hdue.
  - unfold Memory.Legacy.set.
    cbn [Memory.setTimeout_delete Memory.timers]. by rewrite Hdue.
Qed.

End MemoryProps.

Lemma memory_set_get_witness :
  fst (Memory.get Demo.nonceA (Demo.noon + 300000)
         (Memory.runTimers (Demo.noon + 299999)
            (Memory.set Demo.nonceA
               (mkNonceData Demo.pubkey Demo.challengeText (Demo.noon + 300000))
               Demo.noon Memory.empty)))
  = Some (mkNonceData Demo.pubkey Demo.challengeText (Demo.noon + 300000)).
Proof.
  apply (memory_set_get Demo.nonceA
           (mkNonceData Demo.pubkey Demo.challengeText (Demo.noon + 300000))
           Demo.noon (Demo.noon + 299999) (Demo.noon + 300000) Memory.empty);
    try (unfold Demo.noon; cbn; lia).
  constructor.
Defined.

Lemma memory_set_long_lived_is_dropped_witness :
  let session :=
    mkSessionData Demo.pubkey (Demo.noon + 43200 * 60 * 1000) None None in
  Memory.entries
    (Memory.runTimers (Demo.noon + 1)
       (Memory.set (js "siwa_token") session Demo.noon Memory.empty))
    !! js "siwa_token" = None
  /\ Memory.entries
       (Memory.runTimers (Demo.noon + 1)
          (Memory.Legacy.set (js "siwa_token") session Demo.noon Memory.empty))
       !! js "siwa_token" = None.
Proof.
  apply (memory_set_long_lived_is_dropped (js "siwa_token")
           (mkSessionData Demo.pubkey (Demo.noon + 43200 * 60 * 1000) None None)
           Demo.noon (Demo.noon + 1) Memory.empty);
    unfold Demo.noon; cbn; lia.
Defined.

Section MemoryDrain.

(** *** Every record has a clean-up callback pending *)

Lemma covered_empty {V} : covered (@Memory.empty V).
Proof. intros key [v Hv]. cbn in Hv. by rewrite lookup_empty in Hv. Qed.

Lemma covered_insert {V} (key : str) (data : V) (due : Z) (s : Memory.Store V) :
  covered s ->
  covered (Memory.mkStore (<[key := data]> (Memory.entries s))
             (Memory.timers s ++ [(due, key)])).
Proof.
  intros Hs k Hk. cbn in *. destruct (decide (key = k)) as [->|Hne].
  - exists due. apply in_or_app. right. by left.
  - rewrite lookup_insert_ne in Hk by done. destruct (Hs k Hk) as [d Hd].
    exists d. apply in_or_app. by left.
Qed.

Lemma covered_legacy_set {V} `{Expiring V} key (data : V) now (s : Memory.Store V) :
  covered s -> covered (Memory.Legacy.set key data now s).
Proof. intros Hs. by apply (covered_insert key data _ s). Qed.

Lemma covered_set {V} `{Expiring V} key (data : V) now (s : Memory.Store V) :
  covered s -> covered (Memory.set key data now s).
Proof.
  intros Hs. unfold Memory.set. destruct (_ <=? 0)%Z; [done|].
  by apply (covered_insert key data _ s).
Qed.

Lemma covered_delete {V} key (s : Memory.Store V) :
  covered s -> covered (Memory.delete_ key s).
Proof.
  intros Hs k Hk. cbn in *. apply Hs.
  destruct (decide (key = k)) as [->|Hne].
  - rewrite lookup_delete_eq in Hk. by destruct Hk.
  - by rewrite lookup_delete_ne in Hk.
Qed.

Lemma covered_get {V} `{Expiring V} key now (s : Memory.Store V) :
  covered s -> covered (snd (Memory.get key now s)).
Proof.
  intros Hs. unfold Memory.get. destruct (Memory.entries s !! key); [|done].
  destruct (_ <? _)%Z; [by apply covered_delete|done].
Qed.

Lemma covered_session_get key now (s : Memory.Store SessionData) :
  covered s -> covered (snd (Memory.Legacy.session_get key now s)).
Proof.
  intros Hs. unfold Memory.Legacy.session_get.
  destruct (Memory.entries s !! key); [|done].
  destruct (_ <? _)%Z; [by apply covered_delete|done].
Qed.

Lemma covered_deleteAndGet key now (s : Memory.Store NonceData) :
  covered s -> covered (snd (Memory.deleteAndGet key now s)).
Proof.
  intros Hs. unfold Memory.deleteAndGet.
  destruct (Memory.entries s !! key); [|done].
  destruct (_ <? _)%Z; by apply covered_delete.
Qed.

Lemma covered_runTimers {V} now (s : Memory.Store V) :
  covered s -> covered (Memory.runTimers now s).
Proof.
  intros Hs k Hk. rewrite runTimers_lookup in Hk.
  destruct (existsb (dueFor k now) (Memory.timers s)) eqn:Ex;
    [by destruct Hk|].
  destruct (Hs k Hk) as [due Hin]. exists due.
  cbn [Memory.runTimers Memory.timers]. apply filter_In. split; [done|].
  cbn [fst]. destruct (Z.leb_spec due now) as [Hle|]; [|done].
  exfalso. assert (existsb (dueFor k now) (Memory.timers s) = true); [|congruence].
  apply existsb_exists. exists (due, k). split; [done|].
  unfold dueFor, streq. cbn. rewrite bool_decide_eq_true_2 by done.
  rewrite andb_true_r. by apply Z.leb_le.
Qed.

Lemma latest_bound (timers : list (Z * str)) due key :
  In (due, key) timers -> (due <= latest timers)%Z.
Proof.
  unfold latest. induction timers as [|t ts IH]; intros Hin; [done|].
  cbn [fmap list_fmap fold_right]. destruct Hin as [->|Hin].
  - cbn. lia.
  - specialize (IH Hin). change (list_fmap _ _ fst ts) with (fst <$> ts). lia.
Qed.

(** Once every pending callback has run, a store whose records all have a
    callback pending is empty. *)
Lemma covered_drains {V} now (s : Memory.Store V) :
  covered s -> (latest (Memory.timers s) <= now)%Z ->
  Memory.entries (Memory.runTimers now s) = ∅.
Proof.
  intros Hs Hnow. apply map_empty. intros k. rewrite runTimers_lookup.
  destruct (existsb (dueFor k now) (Memory.timers s)) eqn:Ex; [done|].
  destruct (Memory.entries s !! k) eqn:Ek; [|done].
  destruct (Hs k (mk_is_Some _ _ Ek)) as [due Hin].
  assert (existsb (dueFor k now) (Memory.timers s) = true); [|congruence].
  apply existsb_exists. exists (due, k). split; [done|].
  unfold dueFor, streq. cbn. rewrite bool_decide_eq_true_2 by done.
  rewrite andb_true_r. apply Z.leb_le.
  pose proof (latest_bound _ _ _ Hin). lia.
Qed.

End MemoryDrain.

Section ServerDrains.
Context `{Platform}.
Variable server : ServerOptions.

Local Ltac covered_parts :=
  unfold coveredState, revokeSession, runTimers;
  cbn [snd fst nonceStore sessionStore rateLimitStore];
  auto using covered_set, covered_legacy_set, covered_delete, covered_runTimers.

Lemma covered_issueChallenge setNonce now nonce pubkey st :
  (forall k d t s, covered s -> covered (setNonce k d t s)) ->
  coveredState st ->
  coveredState (snd (issueChallenge server setNonce now nonce pubkey st)).
Proof.
  intros Hset (Hn & Hs & Hr). unfold issueChallenge.
  destruct (createMessage _ _); [|done].
  cbn [snd]. unfold coveredState. cbn [nonceStore sessionStore rateLimitStore].
  auto.
Qed.

Lemma covered_openSession setSession now rb pubkey m st :
  (forall k d t s, covered s -> covered (setSession k d t s)) ->
  coveredState st ->
  coveredState (snd (openSession server setSession now rb pubkey m st)).
Proof.
  intros Hset (Hn & Hs & Hr). unfold openSession, coveredState.
  cbn [snd nonceStore sessionStore rateLimitStore]. auto.
Qed.

Lemma covered_checkRateLimit now identifier st :
  coveredState st ->
  coveredState (snd (Server.checkRateLimit server now identifier st)).
Proof.
  intros (Hn & Hs & Hr). unfold Server.checkRateLimit.
  destruct (negb _); [done|].
  pose proof (covered_get identifier now _ Hr) as Hg.
  destruct (Memory.get identifier now (rateLimitStore st)) as [[ex|] rl];
    cbn [snd] in Hg.
  - destruct (_ <=? _)%Z; [destruct (_ <=? _)%Z|]; covered_parts.
  - covered_parts.
Qed.

Lemma covered_legacyStep st op :
  coveredState st -> coveredState (legacyStep server st op).
Proof.
  intros Hst. pose proof Hst as (Hn & Hs & Hr).
  destruct op as [now fuel rnd pubkey clientIdentifier
                 |now rb messageText pubkey signature|now tok|tok|now];
    cbn [legacyStep].
  - unfold LegacyServer.createChallenge.
    destruct (negb _); [done|].
    destruct (Nonce.generateNonce _ _ _) as [[[n r]|]|]; [|done|done].
    pose proof (covered_issueChallenge Memory.Legacy.set now n pubkey st
                  (fun k d t s => covered_legacy_set k d t s) Hst) as Hi.
    by destruct (issueChallenge _ _ _ _ _ _).
  - unfold LegacyServer.verifySignature.
    destruct (verified _ _ _ _ _); [|done].
    destruct (Memory.Legacy.nonce_get _ _); [|done].
    destruct (negb _); [done|].
    apply covered_openSession; [intros; by apply covered_legacy_set|].
    covered_parts.
  - unfold LegacyServer.validateSession.
    pose proof (covered_session_get tok now _ Hs) as Hg.
    destruct (Memory.Legacy.session_get _ _ _). covered_parts.
  - covered_parts.
  - covered_parts.
Qed.

Lemma covered_serverStep st op :
  coveredState st -> coveredState (serverStep server st op).
Proof.
  intros Hst. pose proof Hst as (Hn & Hs & Hr).
  destruct op as [now fuel rnd pubkey clientIdentifier
                 |now rb messageText pubkey signature|now tok|tok|now];
    cbn [serverStep].
  - unfold Server.createChallenge.
    assert (Hc : coveredState
              (snd (match clientIdentifier with
                    | Some (c :: id) =>
                        if rateLimit server
                        then Server.checkRateLimit server now (c :: id) st
                        else (true, st)
                    | _ => (true, st)
                    end))).
    { destruct clientIdentifier as [[|c id]|]; try done.
      destruct (rateLimit server); [|done]. by apply covered_checkRateLimit. }
    destruct (match clientIdentifier with Some _ => _ | None => _ end)
      as [allowed st0]. cbn [snd] in Hc.
    destruct (negb allowed); [done|]. destruct (negb _); [done|].
    destruct (Nonce.generateNonce _ _ _) as [[[n r]|]|]; [|done|done].
    pose proof (covered_issueChallenge Memory.set now n pubkey st0
                  (fun k d t s => covered_set k d t s) Hc) as Hi.
    by destruct (issueChallenge _ _ _ _ _ _).
  - unfold Server.verifySignature.
    destruct (verified _ _ _ _ _) as [m|]; [|done].
    pose proof (covered_deleteAndGet (nonce m) now _ Hn) as Hd.
    destruct (Memory.deleteAndGet _ _ _) as [[nd|] ns]; cbn [snd] in Hd; [|done].
    destruct (negb _); [done|].
    apply covered_openSession; [intros; by apply covered_set|]. covered_parts.
  - unfold Server.validateSession.
    pose proof (covered_get tok now _ Hs) as Hg.
    destruct (Memory.get _ _ _). covered_parts.
  - covered_parts.
  - covered_parts.
Qed.

Lemma covered_run step (ops : list Op) : forall st,
  (forall st op, coveredState st -> coveredState (step st op)) ->
  coveredState st -> coveredState (fold_left step ops st).
Proof.
  induction ops as [|op ops IH]; intros st Hstep Hst; [done|].
  cbn. apply IH; auto.
Qed.

Lemma coveredState_drains now st :
  coveredState st ->
  (latest (Memory.timers (nonceStore st)) <= now)%Z ->
  (latest (Memory.timers (sessionStore st)) <= now)%Z ->
  (latest (Memory.timers (rateLimitStore st)) <= now)%Z ->
  drained (runTimers now st).
Proof.
  intros (Hn & Hs & Hr) ? ? ?. unfold drained, runTimers. cbn.
  repeat split; by apply covered_drains.
Qed.

(** No record is left behind: whatever calls and turns of the event loop a
    server on the in-memory stores has gone through (either build), every
    record in its three [Map]s still has a clean-up callback pending, so
    there is an instant from which a turn of the event loop leaves the three
    [Map]s empty. *)
Theorem server_stores_drain (ops : list Op) :
  (let st := fold_left (legacyStep server) ops initialState in
   coveredState st
   /\ exists T, forall now, (T <= now)%Z -> drained (runTimers now st))
  /\ (let st := fold_left (serverStep server) ops initialState in
      coveredState st
      /\ exists T, forall now, (T <= now)%Z -> drained (runTimers now st)).
Proof.
  assert (Hinit : coveredState initialState).
  { repeat split; apply covered_empty. }
  assert (Hdrain : forall st, coveredState st ->
            exists T, forall now, (T <= now)%Z -> drained (runTimers now st)).
  { intros st Hst.
    exists (Z.max (latest (Memory.timers (nonceStore st)))
              (Z.max (latest (Memory.timers (sessionStore st)))
                 (latest (Memory.timers (rateLimitStore st))))).
    intros now Hnow. apply coveredState_drains; [done|lia..]. }
  split; cbv zeta.
  - pose proof (covered_run (legacyStep server) ops initialState
                  covered_legacyStep Hinit). auto.
  - pose proof (covered_run (serverStep server) ops initialState
                  covered_serverStep Hinit). auto.
Qed.

End ServerDrains.

Section Turns.

(** *** Records across turns of the event loop *)

Lemma noTimerBefore_runTimers {V} key deadline t (s : Memory.Store V) :
  noTimerBefore key deadline s ->
  noTimerBefore key deadline (Memory.runTimers t s).
Proof.
  unfold noTimerBefore, Memory.runTimers. cbn [Memory.timers].
  rewrite !List.Forall_forall. intros Hs timer [Hin _]%filter_In. by apply Hs.
Qed.

(** Turns that run before [deadline] leave alone a record whose callbacks
    are all due at [deadline] or later. *)
Lemma turnsOf_lookup_kept {V} key deadline times : forall s : Memory.Store V,
  noTimerBefore key deadline s ->
  Forall (fun t => (t < deadline)%Z) times ->
  Memory.entries (turnsOf times s) !! key = Memory.entries s !! key.
Proof.
  induction times as [|t times IH]; intros s Hs Ht; [done|].
  inversion Ht as [|? ? Hlt Hrest]; subst. cbn [turnsOf fold_left].
  change (fold_left _ times ?x) with (turnsOf times x).
  rewrite IH by (by try apply noTimerBefore_runTimers).
  rewrite runTimers_lookup, existsb_dueFor_false; [done|].
  eapply Forall_impl; [exact Hs|]. cbn. intros timer Hd E. specialize (Hd E). lia.
Qed.

(** Turns only delete. *)
Lemma turnsOf_lookup_Some {V} times : forall (s : Memory.Store V) key v,
  Memory.entries (turnsOf times s) !! key = Some v ->
  Memory.entries s !! key = Some v.
Proof.
  induction times as [|t times IH]; intros s key v; [done|].
  cbn [turnsOf fold_left]. change (fold_left _ times ?x) with (turnsOf times x).
  intros Hk%IH. rewrite runTimers_lookup in Hk. by destruct (existsb _ _).
Qed.

Lemma turnsOf_lookup_None {V} times (s : Memory.Store V) key :
  Memory.entries s !! key = None ->
  Memory.entries (turnsOf times s) !! key = None.
Proof.
  intros Hk. destruct (Memory.entries (turnsOf times s) !! key) as [v|] eqn:E;
    [|done].
  apply turnsOf_lookup_Some in E. congruence.
Qed.

Lemma serverTurns_stores times : forall st,
  nonceStore (serverTurns times st) = turnsOf times (nonceStore st)
  /\ sessionStore (serverTurns times st) = turnsOf times (sessionStore st)
  /\ rateLimitStore (serverTurns times st) = turnsOf times (rateLimitStore st).
Proof.
  induction times as [|t times IH]; intros st; [done|].
  cbn [serverTurns turnsOf fold_left].
  change (fold_left _ times (runTimers t st)) with (serverTurns times (runTimers t st)).
  apply (IH (runTimers t st)).
Qed.

(** The callback that [set] schedules for a record whose lifetime fits a
    timer delay is due when the record expires. *)
Lemma set_timer_due {V} `{Expiring V} (data : V) now :
  (0 < expiresAt data - now <= 2147483647)%Z ->
  (now + Memory.timeoutDelay (expiresAt data - now) = expiresAt data)%Z.
Proof.
  intros Hfit. unfold Memory.timeoutDelay.
  destruct (Z.leb_spec 1 (expiresAt data - now)); [|lia].
  destruct (Z.leb_spec (expiresAt data - now) 2147483647); [|lia].
  cbn [andb]. lia.
Qed.

Lemma memory_set_stored {V} `{Expiring V} key (data : V) now (s : Memory.Store V) :
  (0 < expiresAt data - now <= 2147483647)%Z ->
  noTimerBefore key (expiresAt data) s ->
  Memory.entries (Memory.set key data now s) !! key = Some data
  /\ noTimerBefore key (expiresAt data) (Memory.set key data now s).
Proof.
  intros Hfit Hs. unfold Memory.set.
  destruct (Z.leb_spec (expiresAt data - now) 0); [lia|].
  cbn [Memory.setTimeout_delete Memory.entries]. rewrite lookup_insert_eq.
  split; [done|]. unfold noTimerBefore. cbn [Memory.timers].
  apply Forall_app. split; [done|]. constructor; [|done]. cbn [fst snd].
  intros _. rewrite (set_timer_due data now Hfit). lia.
Qed.

Lemma legacy_set_stored {V} `{Expiring V} key (data : V) now (s : Memory.Store V) :
  (0 < expiresAt data - now <= 2147483647)%Z ->
  noTimerBefore key (expiresAt data) s ->
  Memory.entries (Memory.Legacy.set key data now s) !! key = Some data
  /\ noTimerBefore key (expiresAt data) (Memory.Legacy.set key data now s).
Proof.
  intros Hfit Hs. unfold Memory.Legacy.set.
  cbn [Memory.setTimeout_delete Memory.entries]. rewrite lookup_insert_eq.
  split; [done|]. unfold noTimerBefore. cbn [Memory.timers].
  apply Forall_app. split; [done|]. constructor; [|done]. cbn [fst snd].
  intros _. rewrite (set_timer_due data now Hfit). lia.
Qed.

End Turns.

(** ** The stores: records read back *)

Section StoreReads.

(** In the server module with rate limiting, no in-memory store hands out
    a record whose [expiresAt] has passed: neither [get] (nonce, session and
    rate-limit store alike) nor [deleteAndGet]; the session store of
    [packages/server/dist/index.js] does not either. *)
Theorem memory_stores_return_unexpired :
  (forall V (E : Expiring V) (key : str) (now : Z) (s s' : Memory.Store V) (data : V),
     Memory.get key now s = (Some data, s') -> (now <= expiresAt data)%Z)
  /\ (forall (nonce : str) (now : Z) (s s' : Memory.Store NonceData) data,
        Memory.deleteAndGet nonce now s = (Some data, s') ->
        (now <= nd_expiresAt data)%Z)
  /\ (forall (token : str) (now : Z) (s s' : Memory.Store SessionData) data,
        Memory.Legacy.session_get token now s = (Some data, s') ->
        (now <= sd_expiresAt data)%Z).
Proof.
  split; [|split].
  - intros V E key now s s' data. unfold Memory.get.
    destruct (Memory.entries s !! key) as [d|]; [|discriminate].
    destruct (Z.ltb_spec (expiresAt d) now); [discriminate|]. by intros [= <- _].
  - intros nonce now s s' data. unfold Memory.deleteAndGet.
    destruct (Memory.entries s !! nonce) as [d|]; [|discriminate].
    destruct (Z.ltb_spec (nd_expiresAt d) now); [discriminate|]. by intros [= <- _].
  - intros token now s s' data. unfold Memory.Legacy.session_get.
    destruct (Memory.entries s !! token) as [d|]; [|discriminate].
    destruct (Z.ltb_spec (sd_expiresAt d) now); [discriminate|]. by intros [= <- _].
Qed.

(** With every instant of a call equal, the awaited stores are the ones
    above. *)
Lemma awaited_set_same_instant {V} `{Expiring V} (prefix token : str) (data : V)
    (now : Z) (db : Redis.Db V) :
  Awaited.set prefix token data now now db = Redis.set prefix token data now db.
Proof. reflexivity. Qed.

Lemma awaited_increment_same_instant (fuel : nat) (prefix identifier : str)
    (windowMinutes maxRequests now : Z) (db : Redis.Db RateLimitData) :
  Awaited.increment prefix identifier windowMinutes maxRequests
    (repeat (Awaited.mkIncrementClock now now now now now) (S fuel)) db
  = Redis.increment fuel prefix identifier windowMinutes maxRequests now db.
Proof.
  induction fuel as [|fuel IH].
  - cbn [repeat Awaited.increment Redis.increment Awaited.at_now
         Awaited.at_exists Awaited.at_get Awaited.at_setNow Awaited.at_setex].
    destruct (negb _); [reflexivity|].
    by destruct (Redis.get prefix identifier now db).
  - change (repeat ?c (S (S fuel))) with (c :: repeat c (S fuel)).
    cbn [Awaited.increment Redis.increment Awaited.at_now
         Awaited.at_exists Awaited.at_get Awaited.at_setNow Awaited.at_setex].
    rewrite IH. reflexivity.
Qed.

Lemma written_timedWithin {V} `{Expiring V} (latency : Z) (db : Redis.Db V) :
  written latency db -> timedWithin latency db.
Proof.
  induction 1 as [|prefix token data now sent db _ IH Hsent|prefix token db _ IH].
  - intros key v expiry Hk. by rewrite lookup_empty in Hk.
  - intros key v expiry. unfold Awaited.set.
    destruct (Redis.ttlSeconds data now <=? 0)%Z; [apply IH|].
    unfold Redis.SETEX.
    destruct (decide (Redis.getKey prefix token = key)) as [->|Hne].
    + rewrite lookup_insert_eq. intros [= <- <-]. unfold Redis.ttlSeconds.
      pose proof (Z.mod_pos_bound (expiresAt data - now) 1000).
      pose proof (Z.div_mod (expiresAt data - now) 1000). lia.
    + rewrite lookup_insert_ne by done. apply IH.
  - intros key v expiry. unfold Redis.delete_, Redis.DEL.
    destruct (decide (Redis.getKey prefix token = key)) as [->|Hne].
    + by rewrite lookup_delete_eq.
    + rewrite lookup_delete_ne by done. apply IH.
Qed.

(** A Redis-backed store and expired records.  [get] does not look at
    [expiresAt]: it returns what the key holds for as long as the key lives.
    The key's time to live is the record's remaining lifetime in whole
    seconds, rounded down, as [set] computes it from [Date.now()], and it is
    counted from the instant at which Redis executes the awaited SETEX.  So a
    key can outlive its record, but by no more than the delay between the two
    instants: when every SETEX was executed at most [latency] ms after [set]
    read the clock, a record that [get] returns expired at most [latency] ms
    ago, if at all. *)
Theorem redis_store_read_within_latency {V} `{Expiring V}
    (prefix token : str) (readAt latency : Z) (db : Redis.Db V) (data : V) :
  written latency db ->
  Redis.get prefix token readAt db = Some data ->
  (readAt <= expiresAt data + latency)%Z.
Proof.
  intros Hdb%written_timedWithin. unfold Redis.get, Redis.GET.
  destruct (db !! Redis.getKey prefix token) as [[v expiry]|] eqn:Hk; [|discriminate].
  destruct (Z.ltb_spec readAt expiry); [|discriminate].
  intros [= <-]. specialize (Hdb _ _ _ Hk). lia.
Qed.

Lemma awaited_set_read {V} `{Expiring V} (prefix token : str) (data : V)
    (now sent : Z) (db : Redis.Db V) :
  ((expiresAt data - now < 1000)%Z ->
   Awaited.set prefix token data now sent db = db)
  /\ ((1000 <= expiresAt data - now)%Z ->
      exists ttlSeconds,
        (expiresAt data - now - 1000 < ttlSeconds * 1000 <= expiresAt data - now)%Z
        /\ forall readAt,
             (sent <= readAt)%Z ->
             Redis.get prefix token readAt
               (Awaited.set prefix token data now sent db)
             = if (readAt <? sent + ttlSeconds * 1000)%Z then Some data else None).
Proof.
  unfold Awaited.set, Redis.ttlSeconds.
  pose proof (Z.mod_pos_bound (expiresAt data - now) 1000).
  pose proof (Z.div_mod (expiresAt data - now) 1000).
  split; intros Hlife.
  - destruct (Z.leb_spec ((expiresAt data - now) / 1000) 0); [done|].
    assert ((expiresAt data - now) / 1000 < 1)%Z; [|lia].
    apply Z.div_lt_upper_bound; lia.
  - destruct (Z.leb_spec ((expiresAt data - now) / 1000) 0) as [Hle|Hgt].
    { assert (1 <= (expiresAt data - now) / 1000)%Z; [|lia].
      apply Z.div_le_lower_bound; lia. }
    exists ((expiresAt data - now) / 1000)%Z. split; [lia|].
    intros readAt _. unfold Redis.get, Redis.GET, Redis.SETEX.
    by rewrite lookup_insert_eq.
Qed.

(** [set] then [get] on a Redis-backed store.  [set] reads the clock at
    [now] and its SETEX is executed at [sent].  A record with less than a
    second to live at [now] is not written at all.  Any other record is
    written with a time to live of whole seconds that is at most its remaining
    lifetime at [now] and falls short of it by less than a second; the key
    lives that long from [sent]: [get] returns the record before the end and
    [null] after it.  The record is thus readable until some instant between
    [expiresAt - 1000 + (sent - now)] (excluded) and
    [expiresAt + (sent - now)]. *)
Theorem redis_set_get {V} `{Expiring V} (prefix token : str) (data : V)
    (now sent : Z) (db : Redis.Db V) :
  ((expiresAt data - now < 1000)%Z ->
   Awaited.set prefix token data now sent db = db)
  /\ ((1000 <= expiresAt data - now)%Z ->
      exists ttlSeconds,
        (expiresAt data - now - 1000 < ttlSeconds * 1000 <= expiresAt data - now)%Z
        /\ forall readAt,
             (sent <= readAt)%Z ->
             let read :=
               Redis.get prefix token readAt
                 (Awaited.set prefix token data now sent db) in
             ((readAt < sent + ttlSeconds * 1000)%Z -> read = Some data)
             /\ ((sent + ttlSeconds * 1000 < readAt)%Z -> read = None)).
Proof.
  destruct (awaited_set_read prefix token data now sent db) as [Hshort Hlong].
  split; [exact Hshort|]. intros Hlife.
  destruct (Hlong Hlife) as (ttl & Httl & Hread).
  exists ttl. split; [exact Httl|]. intros readAt Hafter read.
  unfold read. rewrite (Hread readAt Hafter).
  split; intros Hcmp.
  - by destruct (Z.ltb_spec readAt (sent + ttl * 1000)); [|lia].
  - by destruct (Z.ltb_spec readAt (sent + ttl * 1000)); [lia|].
Qed.


(** With the default key prefixes, the keys of the three Redis stores that
    [createRedisStores] builds on one client never collide: two keys are
    equal only within one store, and only for the same token. *)
Theorem createRedisStores_keys_apart (a b : str) :
  let stores := createRedisStores None in
  Redis.getKey (sessionStorePrefix stores) a <> Redis.getKey (nonceStorePrefix stores) b
  /\ Redis.getKey (sessionStorePrefix stores) a
     <> Redis.getKey (rateLimitStorePrefix stores) b
  /\ Redis.getKey (nonceStorePrefix stores) a
     <> Redis.getKey (rateLimitStorePrefix stores) b
  /\ forall prefix, Redis.getKey prefix a = Redis.getKey prefix b -> a = b.
Proof.
  cbv zeta. unfold Redis.getKey.
  repeat split; try (cbn; intros [=]).
  intros prefix. apply app_inv_head.
Qed.

End StoreReads.

Lemma redis_store_read_within_latency_witness :
  let data := mkNonceData Demo.pubkey Demo.challengeText (Demo.noon + 300000) in
  let db :=
    Awaited.set (js "siwa:nonce:") Demo.nonceA data Demo.noon (Demo.noon + 40) ∅ in
  Redis.get (js "siwa:nonce:") Demo.nonceA (Demo.noon + 300039) db = Some data
  /\ (Demo.noon + 300039 <= Demo.noon + 300000 + 50)%Z.
Proof.
  intros data db.
  assert (Hget : Redis.get (js "siwa:nonce:") Demo.nonceA (Demo.noon + 300039) db
                 = Some data) by (vm_compute; reflexivity).
  split; [exact Hget|].
  change (Demo.noon + 300039 <= expiresAt data + 50)%Z.
  apply (redis_store_read_within_latency (js "siwa:nonce:") Demo.nonceA
           (Demo.noon + 300039) 50 db data); [|exact Hget].
  apply written_set; [apply written_empty|unfold Demo.noon; lia].
Defined.


(** ** The in-memory rate limiter ([SIWAServer.checkRateLimit]) *)

Section LimiterProps.
Context `{Platform}.
Variable server : ServerOptions.
Variable identifier : str.
Variable start : Z.

Local Abbreviation windowMs := (windowMinutes server * 60 * 1000)%Z.
Local Abbreviation isOn := (windowOn server identifier start).
Local Abbreviation countedAfter := (countedSoFar server).

Hypothesis enabled : rateLimit server = true.
Hypothesis window_positive : (0 < windowMinutes server)%Z.
Hypothesis window_fits : (windowMs <= 2147483647)%Z.

Lemma timeoutDelay_fits delay :
  (0 < delay <= windowMs)%Z -> Memory.timeoutDelay delay = delay.
Proof.
  intros Hd. unfold Memory.timeoutDelay.
  destruct (Z.leb_spec 1 delay); [|lia].
  destruct (Z.leb_spec delay 2147483647); [done|lia].
Qed.

Lemma checkRateLimit_opens now st :
  Memory.entries (rateLimitStore st) !! identifier = None ->
  Forall (fun timer => snd timer = identifier -> (now + windowMs <= fst timer)%Z)
    (Memory.timers (rateLimitStore st)) ->
  now = start ->
  exists st', Server.checkRateLimit server now identifier st = (true, st')
              /\ isOn 1 st'.
Proof.
  intros Hnone Htimers ->. unfold Server.checkRateLimit. rewrite enabled.
  cbn [negb]. unfold Memory.get. rewrite Hnone.
  eexists. split; [reflexivity|]. unfold windowOn.
  cbn [rateLimitStore]. unfold Memory.set.
  cbn [expiresAt RateLimitData_expiring rl_expiresAt].
  destruct (Z.leb_spec (start + windowMs - start) 0); [lia|].
  cbn [Memory.setTimeout_delete Memory.entries Memory.timers].
  split; [by rewrite lookup_insert_eq|].
  apply Forall_app. split; [done|]. constructor; [|done]. cbn [fst]. intros _.
  rewrite timeoutDelay_fits by lia. lia.
Qed.

Lemma checkRateLimit_counts c now st :
  isOn c st -> (start <= now < start + windowMs)%Z ->
  exists st',
    Server.checkRateLimit server now identifier st
    = ((c <? maxRequests server)%Z, st')
    /\ isOn (if (c <? maxRequests server)%Z then c + 1 else c) st'.
Proof.
  intros [Hentry Htimers] Hnow. unfold Server.checkRateLimit. rewrite enabled.
  cbn [negb]. unfold Memory.get. rewrite Hentry.
  cbn [expiresAt RateLimitData_expiring rl_expiresAt rl_windowStart rl_count].
  destruct (Z.ltb_spec (start + windowMs) now); [lia|].
  cbn [rl_windowStart rl_count rl_expiresAt].
  destruct (Z.leb_spec (now - windowMs) start); [|lia].
  destruct (Z.leb_spec (maxRequests server) c) as [Hfull|Hroom].
  - destruct (Z.ltb_spec c (maxRequests server)); [lia|].
    eexists. split; [reflexivity|]. by split.
  - destruct (Z.ltb_spec c (maxRequests server)); [|lia].
    eexists. split; [reflexivity|]. unfold windowOn.
    cbn [rateLimitStore]. unfold Memory.set.
    cbn [expiresAt RateLimitData_expiring rl_expiresAt].
    destruct (Z.leb_spec (start + windowMs - now) 0); [lia|].
    cbn [Memory.setTimeout_delete Memory.entries Memory.timers].
    split; [by rewrite lookup_insert_eq|].
    apply Forall_app. split; [done|]. constructor; [|done]. cbn [fst]. intros _.
    rewrite timeoutDelay_fits by lia. lia.
Qed.

Lemma runTimers_windowOn c now st :
  isOn c st -> (now < start + windowMs)%Z -> isOn c (runTimers now st).
Proof.
  intros [Hentry Htimers] Hnow. unfold windowOn, runTimers. cbn [rateLimitStore].
  split.
  - rewrite runTimers_lookup, existsb_dueFor_false; [done|].
    eapply Forall_impl; [exact Htimers|]. cbn. intros t Ht E. specialize (Ht E). lia.
  - cbn [Memory.runTimers Memory.timers].
    apply List.Forall_forall. intros t Hin%filter_In.
    rewrite List.Forall_forall in Htimers. apply Htimers. tauto.
Qed.

Lemma limiterRun_in_window events : forall st c j,
  isOn c st -> countedAfter j c ->
  Forall (fun e => (start <= eventTime e < start + windowMs)%Z) events ->
  limiterRun server identifier events st
  = (fun i => (Z.of_nat i <? maxRequests server)%Z) <$> seq j (requests events).
Proof.
  induction events as [|[now|now] events IH]; intros st c j Hw Hc Hall; [done| |];
    inversion Hall as [|? ? Hnow Hrest]; subst; cbn [eventTime] in Hnow.
  - cbn [limiterRun requests seq fmap list_fmap].
    destruct (checkRateLimit_counts c now st Hw Hnow) as (st' & -> & Hw').
    destruct Hc as (Hj & Hlt & Hge). f_equal.
    + destruct (Z.ltb_spec (Z.of_nat j) (maxRequests server)) as [E|E].
      * rewrite (Hlt E). by apply Z.ltb_lt.
      * specialize (Hge E). apply Z.ltb_ge. lia.
    + apply (IH st' _ (S j) Hw'); [|done]. split; [lia|].
      destruct (Z.ltb_spec c (maxRequests server)); split; intros; lia.
  - cbn [limiterRun requests]. apply (IH _ c j); [|done|done].
    apply runTimers_windowOn; [done|lia].
Qed.

(** The in-memory limiter enforces a fixed window.  For an identifier
    that has no record and no clean-up callback pending, a request at [start]
    opens a window of [windowMinutes] and is always allowed; of the requests
    that follow before the window ends, whatever turns of the event loop come
    in between, the one that is the [i]-th after the first is allowed exactly
    when [i < maxRequests]: at most [max 1 maxRequests] requests pass.  This
    for a window that fits a timer delay (at most 2^31-1 ms). *)
Theorem checkRateLimit_fixed_window (events : list LimiterEvent) (st : ServerState) :
  Memory.entries (rateLimitStore st) !! identifier = None ->
  Forall (fun timer => snd timer <> identifier) (Memory.timers (rateLimitStore st)) ->
  Forall (fun e => (start <= eventTime e < start + windowMs)%Z) events ->
  limiterRun server identifier (Request start :: events) st
  = true :: ((fun i => (Z.of_nat i <? maxRequests server)%Z)
             <$> seq 1 (requests events)).
Proof.
  intros Hnone Htimers Hall. cbn [limiterRun].
  destruct (checkRateLimit_opens start st Hnone) as (st' & -> & Hw); [|done|].
  { eapply Forall_impl; [exact Htimers|]. by intros t Ht E. }
  f_equal. apply (limiterRun_in_window events st' 1 1%nat Hw); [|done].
  split; [lia|]. split; intros; lia.
Qed.


End LimiterProps.

Lemma checkRateLimit_fixed_window_witness :
  limiterRun Demo.server (js "203.0.113.7")
    (Request Demo.noon
     :: repeat (Request (Demo.noon + 60000)) 9
     ++ [Turn (Demo.noon + 120000);
         Request (Demo.noon + 899999); Request (Demo.noon + 899999)])
    initialState
  = repeat true 10 ++ [false; false].
Proof.
  apply (checkRateLimit_fixed_window Demo.server (js "203.0.113.7") Demo.noon);
    try reflexivity; try (unfold Demo.noon; cbn; lia).
  - constructor.
  - unfold Demo.noon.
    repeat (apply List.Forall_cons; [cbn; lia|]). apply List.Forall_nil.
Defined.


(** ** From the challenge to the session *)

Section Printable.
Import Codec.

(** Printable ASCII is neither white space nor a line terminator. *)
Lemma printable_not_space c :
  (33 <= c <= 126)%N -> isSpace c = false /\ isLineTerminator c = false.
Proof.
  intros Hc. unfold isSpace, isLineTerminator.
  repeat match goal with
  | |- context [(c =? ?k)%N] =>
      replace (c =? k)%N with false by (symmetry; apply N.eqb_neq; lia)
  end.
  replace (8192 <=? c)%N with false by (symmetry; apply N.leb_gt; lia).
  done.
Qed.

Lemma isAlnum_printable c : isAlnum c = true -> (33 <= c <= 126)%N.
Proof.
  unfold isAlnum. rewrite !orb_true_iff, !andb_true_iff, !N.leb_le. lia.
Qed.

Lemma isDomainChar_printable c : isDomainChar c = true -> (33 <= c <= 126)%N.
Proof.
  unfold isDomainChar. rewrite !orb_true_iff, !N.eqb_eq.
  intros [[Ha%isAlnum_printable| ->]| ->]; lia.
Qed.

Lemma isBase58Char_printable c : isBase58Char c = true -> (33 <= c <= 126)%N.
Proof.
  unfold isBase58Char. rewrite !orb_true_iff, !andb_true_iff, !N.leb_le. lia.
Qed.

Lemma chars_printable c : In c Nonce.chars -> (33 <= c <= 126)%N.
Proof.
  unfold Nonce.chars. intros Hc.
  repeat (destruct Hc as [<-|Hc]; [cbn; lia|]). destruct Hc.
Qed.

(** A non-empty string of printable ASCII is a value the layout carries
    unchanged. *)
Lemma printable_valueOk (v : str) :
  v <> [] -> Forall (fun c => (33 <= c <= 126)%N) v -> valueOk v = true.
Proof.
  destruct v as [|c v]; [done|]. intros _ Hall. unfold valueOk.
  inversion Hall as [|? ? Hc Hv]; subst.
  destruct (printable_not_space c Hc) as [-> _]. cbn [negb andb].
  unfold noLineTerminator. apply forallb_forall. intros x Hx.
  rewrite List.Forall_forall in Hall.
  destruct (printable_not_space x (Hall x Hx)) as [_ ->]. done.
Qed.

Lemma printable_trim (v : str) :
  Forall (fun c => (33 <= c <= 126)%N) v -> trim v = v.
Proof.
  intros Hall. apply trim_fix.
  - destruct v as [|c v]; [done|]. inversion Hall as [|? ? Hc Hrest]; subst. cbn.
    destruct (printable_not_space c Hc) as [E _]. by rewrite E.
  - assert (Hr : Forall (fun c => (33 <= c <= 126)%N) (@rev char v))
      by (by apply Forall_rev).
    destruct (@rev char v) as [|c r]; [done|].
    apply Forall_cons in Hr as [Hc _]. cbn.
    destruct (printable_not_space c Hc) as [E _]. by rewrite E.
Qed.

Lemma forallb_Forall_printable (f : char -> bool) (v : str) :
  (forall c, f c = true -> (33 <= c <= 126)%N) ->
  forallb f v = true -> Forall (fun c => (33 <= c <= 126)%N) v.
Proof.
  intros Hf Hv. apply List.Forall_forall. intros c Hc. apply Hf.
  rewrite forallb_forall in Hv. by apply Hv.
Qed.

Lemma address_printable a :
  isValidSolanaAddress a = true ->
  a <> [] /\ Forall (fun c => (33 <= c <= 126)%N) a.
Proof.
  unfold isValidSolanaAddress.
  destruct (nonEmpty a) eqn:Hne; [|done]. cbn [negb orb].
  destruct (_ || _); [done|]. intros Hall.
  split; [by destruct a|].
  by apply (forallb_Forall_printable isBase58Char); [apply isBase58Char_printable|].
Qed.

Lemma domain_printable d :
  isValidDomain d = true ->
  d <> [] /\ Forall (fun c => (33 <= c <= 126)%N) d.
Proof.
  intros (Hlen & _ & _ & Hall)%isValidDomain_shape.
  split; [destruct d; [cbn in Hlen; lia|done]|].
  by apply (forallb_Forall_printable isDomainChar); [apply isDomainChar_printable|].
Qed.

End Printable.

Section NonceShape.
Import Nonce.

Lemma pushAccepted_shape array : forall len result,
  (length result <= len)%nat -> Forall (fun c => In c chars) result ->
  (length (pushAccepted array len result) <= len)%nat
  /\ Forall (fun c => In c chars) (pushAccepted array len result).
Proof.
  induction array as [|b rest IH]; intros len result Hlen Hall; [done|].
  cbn [pushAccepted].
  destruct (Byte.to_N b <? maxValid)%N; cbn [andb]; [|by apply IH].
  destruct (Nat.ltb_spec (length result) len); [|by apply IH].
  apply IH.
  - rewrite length_app. cbn [length]. lia.
  - apply Forall_app. split; [done|]. constructor; [apply charOf_in_chars|done].
Qed.

(** Whatever the random source delivers, a nonce that [generateNonce]
    returns has the requested length and is made of the alphabet. *)
Lemma generateLoop_shape fuel : forall len result rnd out rnd',
  (length result <= len)%nat -> Forall (fun c => In c chars) result ->
  generateLoop fuel len result rnd = Some (Val (out, rnd')) ->
  length out = len /\ Forall (fun c => In c chars) out.
Proof.
  induction fuel as [|fuel IH]; intros len result rnd out rnd' Hlen Hall;
    cbn [generateLoop]; destruct (Nat.ltb_spec (length result) len);
    try discriminate.
  - intros [= <- _]. split; [lia|done].
  - destruct (getRandomValues _ _) as [[array rnd1]|e]; [|discriminate].
    destruct (pushAccepted_shape array len result Hlen Hall).
    by apply IH.
  - intros [= <- _]. split; [lia|done].
Qed.

End NonceShape.

Section ChallengeResponse.
Context `{Platform}.
Variable server : ServerOptions.

(** The server is configured with a URI, a statement and resources that
    the message layout carries unchanged. *)
Hypothesis uri_ok : valueOk (srv_uri server) = true.
Hypothesis statement_ok : statementOk (srv_statement server) = true.
Hypothesis resources_ok : resourcesOk (srv_resources server) = true.

Variables (now later : Z) (pubkey signature : str).
Local Abbreviation expiry := (now + challengeExpirationMinutes server * 60 * 1000)%Z.

(** [Date] prints the two instants of the challenge on one line and reads
    them back. *)
Hypothesis now_prints : valueOk (Date_toISOString now) = true.
Hypothesis now_reads : Date_parse (Date_toISOString now) = Some now.
Hypothesis expiry_prints : valueOk (Date_toISOString expiry) = true.
Hypothesis expiry_reads : Date_parse (Date_toISOString expiry) = Some expiry.

Hypothesis in_time : (now <= later <= expiry)%Z.

Lemma issueChallenge_inv setNonce issued st ch st' :
  issueChallenge server setNonce now issued pubkey st = (Val ch, st') ->
  Codec.isValidDomain (srv_domain server) = true
  /\ Codec.isValidSolanaAddress pubkey = true
  /\ ch_message ch = Codec.serializeMessage (challengeMessageOf server now issued pubkey)
  /\ st' = mkState
             (setNonce issued
                (mkNonceData pubkey
                   (Codec.serializeMessage (challengeMessageOf server now issued pubkey))
                   expiry) now (nonceStore st))
             (sessionStore st) (rateLimitStore st).
Proof.
  unfold issueChallenge, createMessage. cbn [p_domain p_uri p_address].
  destruct (Codec.isValidDomain _); [|done]. cbn [negb].
  destruct (URL_parses _); [|done]. cbn [negb].
  destruct (Codec.isValidSolanaAddress _); [|done]. cbn [negb].
  intros [= <- <-]. done.
Qed.

Lemma challengeMessage_canonical issued :
  Codec.isValidDomain (srv_domain server) = true ->
  Codec.isValidSolanaAddress pubkey = true ->
  length issued = 32%nat -> Forall (fun c => In c Nonce.chars) issued ->
  Canonical (challengeMessageOf server now issued pubkey).
Proof.
  intros [Hd1 Hd2]%domain_printable [Ha1 Ha2]%address_printable Hlen Hn.
  assert (Hnonce : valueOk issued = true).
  { apply printable_valueOk; [by destruct issued|].
    eapply Forall_impl; [exact Hn|]. apply chars_printable. }
  pose proof (printable_valueOk _ Hd1 Hd2) as Hdv.
  pose proof (printable_valueOk _ Ha1 Ha2) as Hav.
  constructor; cbn [challengeMessageOf domain address statement uri version
    chainId nonce issuedAt expirationTime notBefore requestId resources
    optValueOk]; try done.
  - by apply valueOk_nonEmpty.
  - unfold valueOk in Hdv. destruct (srv_domain server); [done|].
    by apply andb_true_iff in Hdv as [_ ?].
  - by apply valueOk_nonEmpty.
  - by apply valueOk_noLF.
  - by apply printable_trim.
Qed.

(** The checks of [verify] on the signed challenge. *)
Lemma challenge_verified issued signatureBytes publicKeyBytes :
  Codec.isValidDomain (srv_domain server) = true ->
  Codec.isValidSolanaAddress pubkey = true ->
  Verify.isValidSolanaAddress pubkey = true ->
  length issued = 32%nat -> Forall (fun c => In c Nonce.chars) issued ->
  decoded signature signatureBytes ->
  length signatureBytes = 64%nat ->
  bs58_decode pubkey = Val publicKeyBytes ->
  nacl_sign_detached_verify
    (TextEncoder_encode
       (Codec.serializeMessage (challengeMessageOf server now issued pubkey)))
    signatureBytes publicKeyBytes = Val true ->
  verified server later
    (Codec.serializeMessage (challengeMessageOf server now issued pubkey))
    pubkey signature
  = Val (challengeMessageOf server now issued pubkey).
Proof.
  intros Hd Ha Hk Hlen Hn Hs Hs64 Hp Hv.
  pose proof (challengeMessage_canonical issued Hd Ha Hlen Hn) as Hc.
  unfold verified.
  rewrite (verify_success_intro later _ signature pubkey _
             (challengeMessageOf server now issued pubkey)); [done|].
  constructor; cbn [Verify.option_domain Verify.option_nonce
    Verify.option_skipTimeCheck mbind option_bind opt_domain opt_nonce
    opt_skipTimeCheck from_option]; try done.
  - by apply parse_serialize.
  - by intros d [= <-].
  - intros _. apply validateTiming_bounds.
    cbn [challengeMessageOf expirationTime notBefore issuedAt instant].
    rewrite (valueOk_nonEmpty _ expiry_prints), now_reads, expiry_reads.
    repeat split; intros ? [= <-] || intros ? [=]; lia.
  - by exists signatureBytes, publicKeyBytes.
Qed.

Lemma generateNonce_shape fuel rnd issued rnd' :
  Nonce.generateNonce fuel 32 rnd = Some (Val (issued, rnd')) ->
  length issued = 32%nat /\ Forall (fun c => In c Nonce.chars) issued.
Proof. apply generateLoop_shape; [cbn; lia|done]. Qed.

(** An honest agent gets in (the server module with rate limiting).  A
    server whose URI, statement and resources are in canonical form issues
    at [now] a challenge for [pubkey] that lives for a positive time that
    fits a timer delay (at most 2^31-1 ms) and expires within the range of
    [Date]; [Date] prints [now] and the expiry on one line and reads them
    back; no older clean-up callback for the nonce drawn is due before the
    challenge expires.  The event loop takes any turns before the expiry.
    Then the agent returns the challenge text with a signature that decodes
    to 64 bytes which the Ed25519 primitive accepts for that text under the
    key, in a call made at [later], no later than the expiry, while the
    session to be opened expires within the range of [Date].  That call
    returns a session for [pubkey] that carries the server's resources as
    scopes and expires [sessionExpirationMinutes] after it. *)
Theorem challenge_response_completes
    fuel rnd rnd' issued clientIdentifier st st' ch turns random32
    signatureBytes publicKeyBytes :
  (0 < challengeExpirationMinutes server * 60 * 1000 <= 2147483647)%Z ->
  inDateRange expiry ->
  inDateRange (later + sessionExpirationMinutes server * 60 * 1000) ->
  Nonce.generateNonce fuel 32 rnd = Some (Val (issued, rnd')) ->
  noTimerBefore issued expiry (nonceStore st) ->
  Server.createChallenge server now fuel rnd pubkey clientIdentifier st
  = Some (Val ch, st', rnd') ->
  Forall (fun t => (t < expiry)%Z) turns ->
  decoded signature signatureBytes ->
  length signatureBytes = 64%nat ->
  bs58_decode pubkey = Val publicKeyBytes ->
  nacl_sign_detached_verify (TextEncoder_encode (ch_message ch))
    signatureBytes publicKeyBytes = Val true ->
  fst (Server.verifySignature server later random32 (ch_message ch) pubkey
         signature (serverTurns turns st'))
  = Val {| token := generateSessionToken random32;
           s_address := pubkey;
           s_expiresAt :=
             Date_toISOString (later + sessionExpirationMinutes server * 60 * 1000);
           scopes := srv_resources server |}.
Proof.
  intros Hlive _ _ Hg Hold Hc Hturns Hs Hs64 Hp Hv.
  unfold Server.createChallenge in Hc.
  assert (Hst0 : nonceStore
              (snd (match clientIdentifier with
                    | Some (c :: id) =>
                        if rateLimit server
                        then Server.checkRateLimit server now (c :: id) st
                        else (true, st)
                    | _ => (true, st)
                    end)) = nonceStore st).
  { destruct clientIdentifier as [[|c id]|]; try done.
    destruct (rateLimit server); [|done]. apply checkRateLimit_nonceStore. }
  destruct (match clientIdentifier with Some _ => _ | None => _ end)
    as [allowed st0]. cbn [snd] in Hst0.
  destruct (negb allowed); [done|].
  destruct (Verify.isValidSolanaAddress pubkey) eqn:Hk; [|done]. cbn [negb] in Hc.
  rewrite Hg in Hc.
  destruct (generateNonce_shape _ _ _ _ Hg) as [Hlen Hn].
  destruct (issueChallenge _ _ _ _ _ _) as [r st1] eqn:Hi.
  injection Hc as -> ->.
  apply issueChallenge_inv in Hi as (Hd & Ha & Hm & ->).
  rewrite Hm in *. unfold Server.verifySignature.
  rewrite (challenge_verified issued signatureBytes publicKeyBytes) by done.
  destruct (serverTurns_stores turns
              (mkState
                 (Memory.set issued
                    (mkNonceData pubkey
                       (Codec.serializeMessage
                          (challengeMessageOf server now issued pubkey)) expiry)
                    now (nonceStore st0))
                 (sessionStore st0) (rateLimitStore st0))) as (-> & _ & _).
  cbn [nonceStore challengeMessageOf nonce resources].
  destruct (memory_set_stored issued
              (mkNonceData pubkey
                 (Codec.serializeMessage
                    (challengeMessageOf server now issued pubkey)) expiry)
              now (nonceStore st0)) as [Hstored Htimers].
  { cbn [expiresAt NonceData_expiring nd_expiresAt]. lia. }
  { by rewrite Hst0. }
  cbn [expiresAt NonceData_expiring nd_expiresAt] in Htimers.
  unfold Memory.deleteAndGet.
  rewrite (turnsOf_lookup_kept issued expiry) by done.
  cbn [challengeMessageOf] in Hstored. rewrite Hstored.
  cbn [nd_expiresAt nd_pubkey].
  destruct (Z.ltb_spec expiry later); [lia|].
  unfold streq. rewrite bool_decide_eq_true_2 by done. reflexivity.
Qed.

(** An honest agent gets in ([packages/server/dist/index.js]): the same,
    for the server without rate limiting.  A server whose URI, statement and
    resources are in canonical form issues at [now] a challenge for [pubkey]
    that lives for a positive time that fits a timer delay and expires within
    the range of [Date]; [Date] prints [now] and the expiry on one line and
    reads them back; no older clean-up callback for the nonce drawn is due
    before the challenge expires; the event loop takes any turns before the
    expiry.  Then a call at [later], no later than the expiry, with the
    challenge text and a signature that decodes to 64 bytes which the Ed25519
    primitive accepts, made while the session to be opened expires within the
    range of [Date], returns a session for [pubkey] with the server's
    resources as scopes. *)
Theorem legacy_challenge_response_completes
    fuel rnd rnd' issued st st' ch turns random32 signatureBytes publicKeyBytes :
  (0 < challengeExpirationMinutes server * 60 * 1000 <= 2147483647)%Z ->
  inDateRange expiry ->
  inDateRange (later + sessionExpirationMinutes server * 60 * 1000) ->
  Nonce.generateNonce fuel 32 rnd = Some (Val (issued, rnd')) ->
  noTimerBefore issued expiry (nonceStore st) ->
  LegacyServer.createChallenge server now fuel rnd pubkey st
  = Some (Val ch, st', rnd') ->
  Forall (fun t => (t < expiry)%Z) turns ->
  decoded signature signatureBytes ->
  length signatureBytes = 64%nat ->
  bs58_decode pubkey = Val publicKeyBytes ->
  nacl_sign_detached_verify (TextEncoder_encode (ch_message ch))
    signatureBytes publicKeyBytes = Val true ->
  fst (LegacyServer.verifySignature server later random32 (ch_message ch) pubkey
         signature (serverTurns turns st'))
  = Val {| token := generateSessionToken random32;
           s_address := pubkey;
           s_expiresAt :=
             Date_toISOString (later + sessionExpirationMinutes server * 60 * 1000);
           scopes := srv_resources server |}.
Proof.
  intros Hlive _ _ Hg Hold Hc Hturns Hs Hs64 Hp Hv.
  unfold LegacyServer.createChallenge in Hc.
  destruct (Verify.isValidSolanaAddress pubkey) eqn:Hk; [|done]. cbn [negb] in Hc.
  rewrite Hg in Hc.
  destruct (generateNonce_shape _ _ _ _ Hg) as [Hlen Hn].
  destruct (issueChallenge _ _ _ _ _ _) as [r st1] eqn:Hi.
  injection Hc as -> ->.
  apply issueChallenge_inv in Hi as (Hd & Ha & Hm & ->).
  rewrite Hm in *. unfold LegacyServer.verifySignature.
  rewrite (challenge_verified issued signatureBytes publicKeyBytes) by done.
  destruct (serverTurns_stores turns
              (mkState
                 (Memory.Legacy.set issued
                    (mkNonceData pubkey
                       (Codec.serializeMessage
                          (challengeMessageOf server now issued pubkey)) expiry)
                    now (nonceStore st))
                 (sessionStore st) (rateLimitStore st))) as (-> & _ & _).
  cbn [nonceStore challengeMessageOf nonce resources].
  destruct (legacy_set_stored issued
              (mkNonceData pubkey
                 (Codec.serializeMessage
                    (challengeMessageOf server now issued pubkey)) expiry)
              now (nonceStore st)) as [Hstored Htimers].
  { cbn [expiresAt NonceData_expiring nd_expiresAt]. lia. }
  { done. }
  cbn [expiresAt NonceData_expiring nd_expiresAt] in Htimers.
  unfold Memory.Legacy.nonce_get.
  rewrite (turnsOf_lookup_kept issued expiry) by done.
  cbn [challengeMessageOf] in Hstored. rewrite Hstored.
  cbn [nd_pubkey].
  unfold streq. rewrite bool_decide_eq_true_2 by done. reflexivity.
Qed.

End ChallengeResponse.

Lemma challenge_response_completes_witness :
  let issued :=
    match Server.createChallenge Demo.server Demo.noon 1 Demo.zeros Demo.pubkey
            None initialState with
    | Some (_, st, _) => st
    | None => initialState
    end in
  fst (Server.verifySignature Demo.server (Demo.noon + 1000) Demo.random32
         Demo.challengeText Demo.pubkey Demo.signature
         (serverTurns [(Demo.noon + 400)%Z; (Demo.noon + 800)%Z] issued))
  = Val {| token := generateSessionToken Demo.random32;
           s_address := Demo.pubkey;
           s_expiresAt := js "2026-02-01T13:00:01.000Z";
           scopes := None |}.
Proof.
  eassert (Hc : Server.createChallenge Demo.server Demo.noon 1 Demo.zeros
                  Demo.pubkey None initialState = Some (Val _, _, _))
    by (vm_compute; reflexivity).
  refine (eq_trans _
    (eq_trans
       (challenge_response_completes (H := Stub.platform) Demo.server
          eq_refl eq_refl eq_refl Demo.noon (Demo.noon + 1000) Demo.pubkey
          Demo.signature eq_refl eq_refl eq_refl eq_refl _
          1%nat Demo.zeros _ Demo.nonceA None initialState _ _
          [(Demo.noon + 400)%Z; (Demo.noon + 800)%Z] Demo.random32
          (repeat x00 64) (repeat x00 32) _ _ _ eq_refl _ Hc _ _ eq_refl
          eq_refl eq_refl)
       _)).
  - vm_compute. reflexivity.
  - unfold Demo.noon. cbn. lia.
  - unfold Demo.server, Demo.noon. cbn. lia.
  - unfold inDateRange, Demo.server, Demo.noon. cbn. lia.
  - unfold inDateRange, Demo.server, Demo.noon. cbn. lia.
  - constructor.
  - unfold Demo.server, Demo.noon. cbn. repeat (constructor; [lia|]). constructor.
  - left. reflexivity.
  - vm_compute. reflexivity.
Defined.

Lemma legacy_challenge_response_completes_witness :
  fst (LegacyServer.verifySignature Demo.server (Demo.noon + 1000) Demo.random32
         Demo.challengeText Demo.pubkey Demo.signature
         (serverTurns [(Demo.noon + 400)%Z; (Demo.noon + 800)%Z] Demo.issued))
  = Val Demo.session.
Proof.
  eassert (Hc : LegacyServer.createChallenge Demo.server Demo.noon 1 Demo.zeros
                  Demo.pubkey initialState = Some (Val _, _, _))
    by (vm_compute; reflexivity).
  refine (eq_trans _
    (eq_trans
       (legacy_challenge_response_completes (H := Stub.platform) Demo.server
          eq_refl eq_refl eq_refl Demo.noon (Demo.noon + 1000) Demo.pubkey
          Demo.signature eq_refl eq_refl eq_refl eq_refl _
          1%nat Demo.zeros _ Demo.nonceA initialState _ _
          [(Demo.noon + 400)%Z; (Demo.noon + 800)%Z] Demo.random32
          (repeat x00 64) (repeat x00 32) _ _ _ eq_refl _ Hc _ _ eq_refl
          eq_refl eq_refl)
       _)).
  - vm_compute. reflexivity.
  - unfold Demo.noon. cbn. lia.
  - unfold Demo.server, Demo.noon. cbn. lia.
  - unfold inDateRange, Demo.server, Demo.noon. cbn. lia.
  - unfold inDateRange, Demo.server, Demo.noon. cbn. lia.
  - constructor.
  - unfold Demo.server, Demo.noon. cbn. repeat (constructor; [lia|]). constructor.
  - left. reflexivity.
  - vm_compute. reflexivity.
Defined.

(** ** Sessions *)

Section SessionProps.
Context `{Platform}.
Variable server : ServerOptions.

Lemma server_verifySignature_inv now rb messageText pubkey signature st session st1 :
  Server.verifySignature server now rb messageText pubkey signature st
  = (Val session, st1) ->
  exists m nonceData,
    verified server now messageText pubkey signature = Val m
    /\ Memory.deleteAndGet (nonce m) now (nonceStore st)
       = (Some nonceData, Memory.delete_ (nonce m) (nonceStore st))
    /\ nd_pubkey nonceData = pubkey
    /\ session = {| token := generateSessionToken rb;
                    s_address := pubkey;
                    s_expiresAt :=
                      Date_toISOString (now + sessionExpirationMinutes server * 60 * 1000);
                    scopes := resources m |}
    /\ st1 = mkState (Memory.delete_ (nonce m) (nonceStore st))
               (Memory.set (generateSessionToken rb)
                  (mkSessionData pubkey
                     (now + sessionExpirationMinutes server * 60 * 1000)
                     (resources m) (Some m)) now (sessionStore st))
               (rateLimitStore st).
Proof.
  unfold Server.verifySignature.
  destruct (verified _ _ _ _ _) as [m|e]; [|done].
  unfold Memory.deleteAndGet.
  destruct (Memory.entries (nonceStore st) !! nonce m) as [d|] eqn:Hd; [|done].
  destruct (nd_expiresAt d <? now)%Z eqn:Hx; [done|].
  destruct (streq (nd_pubkey d) pubkey) eqn:Hk; [|done]. cbn [negb].
  apply bool_decide_eq_true in Hk. unfold openSession.
  intros [= <- <-]. exists m, d. by rewrite Hd, Hx.
Qed.

Lemma legacy_verifySignature_inv now rb messageText pubkey signature st session st1 :
  LegacyServer.verifySignature server now rb messageText pubkey signature st
  = (Val session, st1) ->
  exists m nonceData,
    verified server now messageText pubkey signature = Val m
    /\ Memory.entries (nonceStore st) !! nonce m = Some nonceData
    /\ nd_pubkey nonceData = pubkey
    /\ session = {| token := generateSessionToken rb;
                    s_address := pubkey;
                    s_expiresAt :=
                      Date_toISOString (now + sessionExpirationMinutes server * 60 * 1000);
                    scopes := resources m |}
    /\ st1 = mkState (Memory.delete_ (nonce m) (nonceStore st))
               (Memory.Legacy.set (generateSessionToken rb)
                  (mkSessionData pubkey
                     (now + sessionExpirationMinutes server * 60 * 1000)
                     (resources m) (Some m)) now (sessionStore st))
               (rateLimitStore st).
Proof.
  unfold LegacyServer.verifySignature.
  destruct (verified _ _ _ _ _) as [m|e]; [|done].
  unfold Memory.Legacy.nonce_get.
  destruct (Memory.entries (nonceStore st) !! nonce m) as [d|] eqn:Hd; [|done].
  destruct (streq (nd_pubkey d) pubkey) eqn:Hk; [|done]. cbn [negb].
  apply bool_decide_eq_true in Hk. unfold openSession.
  intros [= <- <-]. by exists m, d.
Qed.

(** The life of a session (the server module with rate limiting).  The
    token that [verifySignature] returns, in a call whose session expires
    within the range of [Date], belongs to the verified key and carries the
    resources of the signed message as scopes.  With a positive session
    lifetime that fits a timer delay (at most 2^31-1 ms, about 24.8 days) and
    no older clean-up callback for the token due before the expiry,
    [validateSession] returns the session at every instant up to and including
    its expiry, [sessionExpirationMinutes] after the verification, whatever
    turns the event loop has taken before the expiry.  With a positive
    lifetime it returns [null] at every instant after the expiry, whatever the
    turns.  With [sessionExpirationMinutes <= 0] the token is returned but no
    session is stored.  After [revokeSession] the answer is [null] at once and
    for good. *)
Theorem session_lifecycle now rb messageText pubkey signature st session st1 :
  inDateRange (now + sessionExpirationMinutes server * 60 * 1000) ->
  Server.verifySignature server now rb messageText pubkey signature st
  = (Val session, st1) ->
  let lifetime := (sessionExpirationMinutes server * 60 * 1000)%Z in
  let expires := (now + lifetime)%Z in
  exists m,
    Codec.parseMessage messageText = Val m
    /\ s_address session = pubkey /\ scopes session = resources m
    /\ ((0 < lifetime <= 2147483647)%Z ->
        noTimerBefore (token session) expires (sessionStore st) ->
        forall turns at_,
          Forall (fun t => (t < expires)%Z) turns -> (at_ <= expires)%Z ->
          fst (Server.validateSession at_ (token session) (serverTurns turns st1))
          = Some (mkSessionData pubkey expires (resources m) (Some m)))
    /\ ((0 < lifetime)%Z ->
        forall turns at_,
          (expires < at_)%Z ->
          fst (Server.validateSession at_ (token session) (serverTurns turns st1))
          = None)
    /\ ((lifetime <= 0)%Z -> sessionStore st1 = sessionStore st)
    /\ (forall turns at_,
          fst (Server.validateSession at_ (token session)
                 (serverTurns turns (revokeSession (token session) st1))) = None).
Proof.
  intros _ (m & d & Hv & _ & _ & -> & ->)%server_verifySignature_inv
         lifetime expires.
  exists m. split; [by apply verified_parses in Hv|].
  split; [done|]. split; [done|].
  cbn [token]. fold lifetime. fold expires.
  set (data := mkSessionData pubkey expires (resources m) (Some m)).
  set (tok := generateSessionToken rb).
  assert (Hlife : (expiresAt data - now = lifetime)%Z).
  { cbn [expiresAt SessionData_expiring sd_expiresAt data]. unfold expires. lia. }
  assert (Hturned : forall turns (st0 : ServerState) at_,
            fst (Server.validateSession at_ tok (serverTurns turns st0))
            = fst (Memory.get tok at_ (turnsOf turns (sessionStore st0)))).
  { intros turns st0 at_. unfold Server.validateSession.
    destruct (serverTurns_stores turns st0) as (_ & -> & _).
    by destruct (Memory.get tok at_ _). }
  split; [|split; [|split]].
  - intros Hfit Hold turns at_ Hturns Hat. rewrite Hturned. cbn [sessionStore].
    destruct (memory_set_stored tok data now (sessionStore st)) as [Hs Ht];
      [lia|done|].
    unfold Memory.get.
    rewrite (turnsOf_lookup_kept tok (expiresAt data)) by done.
    rewrite Hs.
    cbn [expiresAt SessionData_expiring sd_expiresAt data].
    by destruct (Z.ltb_spec expires at_); [lia|].
  - intros Hpos turns at_ Hat. rewrite Hturned. cbn [sessionStore].
    unfold Memory.get.
    destruct (Memory.entries (turnsOf turns _) !! tok) as [d'|] eqn:Hk; [|done].
    apply turnsOf_lookup_Some in Hk. unfold Memory.set in Hk.
    destruct (Z.leb_spec (expiresAt data - now) 0); [lia|].
    cbn [Memory.setTimeout_delete Memory.entries] in Hk.
    rewrite lookup_insert_eq in Hk. injection Hk as <-.
    cbn [expiresAt SessionData_expiring sd_expiresAt data].
    by destruct (Z.ltb_spec expires at_); [|lia].
  - intros Hneg. cbn [sessionStore]. unfold Memory.set.
    by destruct (Z.leb_spec (expiresAt data - now) 0); [|lia].
  - intros turns at_. rewrite Hturned. unfold Memory.get.
    rewrite turnsOf_lookup_None; [done|].
    cbn [revokeSession sessionStore Memory.delete_ Memory.entries].
    apply lookup_delete_eq.
Qed.

(** A refused [verifySignature] and the state of the server, for a call
    whose session would expire within the range of [Date] (beyond it the call
    throws a [RangeError] after it has written).  The server of
    [packages/server/dist/index.js] is left exactly as it was by every call
    that throws.  The server module with rate limiting never writes a session
    in a call that throws, but consumes the nonce before it compares the keys:
    a call that passes [verify] and is then refused (with ['Invalid or expired
    nonce'] or ['Public key mismatch']) leaves the nonce of its message
    deleted. *)
Theorem verifySignature_refused now rb messageText pubkey signature st e :
  inDateRange (now + sessionExpirationMinutes server * 60 * 1000) ->
  (forall st', LegacyServer.verifySignature server now rb messageText pubkey
                 signature st = (Throw e, st') -> st' = st)
  /\ (forall st', Server.verifySignature server now rb messageText pubkey
                    signature st = (Throw e, st') ->
        sessionStore st' = sessionStore st
        /\ rateLimitStore st' = rateLimitStore st
        /\ ((verified server now messageText pubkey signature = Throw e /\ st' = st)
            \/ exists m,
                 verified server now messageText pubkey signature = Val m
                 /\ Memory.entries (nonceStore st') !! nonce m = None
                 /\ (e = js "Invalid or expired nonce"
                     \/ e = js "Public key mismatch"))).
Proof.
  intros _. split; intros st'.
  - unfold LegacyServer.verifySignature.
    destruct (verified _ _ _ _ _) as [m|e0]; [|by intros [= _ <-]].
    destruct (Memory.Legacy.nonce_get _ _) as [d|]; [|by intros [= _ <-]].
    destruct (negb _); [by intros [= _ <-]|]. unfold openSession. done.
  - unfold Server.verifySignature.
    destruct (verified _ _ _ _ _) as [m|e0]; [|intros [= <- <-]; auto].
    pose proof (deleteAndGet_consumes (nonce m) now (nonceStore st)) as Hgone.
    destruct (Memory.deleteAndGet _ _ _) as [[d|] ns]; cbn [snd] in Hgone.
    + destruct (negb _); [|unfold openSession; done].
      intros [= <- <-]. cbn. repeat split; try done. right. exists m. auto.
    + intros [= <- <-]. cbn. repeat split; try done. right. exists m. auto.
Qed.

End SessionProps.

Lemma session_lifecycle_witness :
  let '(r, st1) :=
    Server.verifySignature Demo.server (Demo.noon + 1000) Demo.random32
      Demo.challengeText Demo.pubkey Demo.signature Demo.issued in
  match r with
  | Throw _ => False
  | Val session =>
      let expires := (Demo.noon + 1000 + 60 * 60 * 1000)%Z in
      s_address session = Demo.pubkey
      /\ fst (Server.validateSession expires (token session)
                (serverTurns [(Demo.noon + 2000)%Z; (expires - 1)%Z] st1))
         = Some (mkSessionData Demo.pubkey expires None
                   (Some Demo.challengeMessage))
      /\ fst (Server.validateSession (expires + 1) (token session)
                (serverTurns [(expires + 1)%Z] st1)) = None
      /\ fst (Server.validateSession (Demo.noon + 2000) (token session)
                (serverTurns [] (revokeSession (token session) st1))) = None
  end.
Proof.
  destruct (Server.verifySignature Demo.server (Demo.noon + 1000) Demo.random32
              Demo.challengeText Demo.pubkey Demo.signature Demo.issued)
    as [[session|e] st1] eqn:Hv; [|vm_compute in Hv; discriminate Hv].
  assert (Hr : inDateRange
                 (Demo.noon + 1000 + sessionExpirationMinutes Demo.server * 60 * 1000))
    by (unfold inDateRange, Demo.server, Demo.noon; cbn; lia).
  destruct (session_lifecycle (H := Stub.platform) Demo.server (Demo.noon + 1000)
              Demo.random32 Demo.challengeText Demo.pubkey Demo.signature
              Demo.issued session st1 Hr Hv)
    as (m & Hm & Ha & _ & Hlive & Hdead & _ & Hrevoked).
  assert (m = Demo.challengeMessage) as ->
    by (vm_compute in Hm; by injection Hm as <-).
  split; [exact Ha|]. split; [|split].
  - apply Hlive.
    + unfold Demo.server, Demo.noon. cbn. lia.
    + assert (token session = generateSessionToken Demo.random32) as ->
        by (vm_compute in Hv; by injection Hv as <- _).
      vm_compute. constructor.
    + unfold Demo.server, Demo.noon. cbn. repeat (constructor; [lia|]). constructor.
    + unfold Demo.server, Demo.noon. cbn. lia.
  - apply Hdead; unfold Demo.server, Demo.noon; cbn; lia.
  - apply Hrevoked.
Defined.

Lemma verifySignature_refused_witness :
  snd (LegacyServer.verifySignature Demo.server (Demo.noon + 2000) Demo.random32
         Demo.challengeText Demo.pubkey Demo.signature Demo.afterVerify)
  = Demo.afterVerify.
Proof.
  destruct (LegacyServer.verifySignature Demo.server (Demo.noon + 2000)
              Demo.random32 Demo.challengeText Demo.pubkey Demo.signature
              Demo.afterVerify) as [[session|e] st'] eqn:Hv;
    [vm_compute in Hv; discriminate Hv|].
  cbn [snd].
  refine (proj1 (verifySignature_refused (H := Stub.platform) Demo.server
                   (Demo.noon + 2000) Demo.random32 Demo.challengeText
                   Demo.pubkey Demo.signature Demo.afterVerify e _) st' Hv).
  unfold inDateRange, Demo.server, Demo.noon. cbn. lia.
Defined.

(** ** The authentication middleware *)

Section MiddlewareProps.

Lemma split_on_nonempty sep s : split_on sep s <> [].
Proof.
  destruct s as [|c t]; [done|]. cbn [split_on].
  destruct (c =? sep)%N; [done|]. by destruct (split_on sep t).
Qed.

(** The first piece runs up to the first separator. *)
Lemma split_on_first sep s a l :
  split_on sep s = a :: l ->
  ~ In sep a
  /\ match l with
     | [] => s = a
     | b :: l' => exists t, s = a ++ sep :: t /\ split_on sep t = b :: l'
     end.
Proof.
  revert a l. induction s as [|c t IH]; intros a l.
  - intros [= <- <-]. by split; [intros []|].
  - cbn [split_on]. destruct (N.eqb_spec c sep) as [->|Hne].
    + intros [= <- <-]. split; [by intros []|].
      pose proof (split_on_nonempty sep t).
      destruct (split_on sep t) as [|b l'] eqn:E; [done|]. by exists t.
    + destruct (split_on sep t) as [|a' l'] eqn:E;
        [by pose proof (split_on_nonempty sep t)|].
      intros [= <- <-]. destruct (IH a' l' eq_refl) as [Hin Hl].
      split; [intros [->|?]; done|].
      destruct l' as [|b l'']; [by subst|].
      destruct Hl as (t' & -> & Ht). by exists t'.
Qed.

(** What the header is when its first two pieces are ["Bearer"] and a
    token. *)
Lemma bearer_header h token rest :
  split_on 32%N h = js "Bearer" :: token :: rest ->
  ~ In 32%N token
  /\ exists tail, h = js "Bearer " ++ token ++ tail
                  /\ (tail = [] \/ exists more, tail = 32%N :: more).
Proof.
  intros (_ & t & -> & Ht)%split_on_first.
  apply split_on_first in Ht as [Hin Hrest]. split; [done|].
  destruct rest as [|b rest'].
  - subst t. exists []. split; [by rewrite app_nil_r|by left].
  - destruct Hrest as (t' & -> & _). exists (32%N :: t'). split; [done|].
    right. by exists t'.
Qed.

(** The authentication middleware of both server builds.  It calls
    [next()] with a session attached only when the header is ["Bearer "],
    a non-empty token without a space, and then nothing or a space and more:
    the session is the one the session store holds for that token, and it has
    not expired.  It calls [next()] without a session only when
    authentication is optional.  And a header that is present but does not
    start with ["Bearer "] is answered 401 ['Invalid authorization header'],
    whether authentication is required or not. *)
Theorem middleware_admits_only_sessions
    (required : option bool) (now : Z) (authorization : option str)
    (st : ServerState) :
  (forall validateSession, validateSession = Server.validateSession
                           \/ validateSession = LegacyServer.validateSession ->
   forall r st',
     middleware validateSession required now authorization st = (Next r, st') ->
     match r with
     | Some session =>
         exists token tail,
           authorization = Some (js "Bearer " ++ token ++ tail)
           /\ token <> [] /\ ~ In 32%N token
           /\ (tail = [] \/ exists more, tail = 32%N :: more)
           /\ Memory.entries (sessionStore st) !! token = Some session
           /\ (now <= sd_expiresAt session)%Z
     | None => required = Some false
     end)
  /\ (forall validateSession h,
        authorization = Some h -> h <> [] ->
        startsWith (js "Bearer ") h = false ->
        middleware validateSession required now authorization st
        = (Respond 401 (js "Invalid authorization header"), st)).
Proof.
  split.
  - intros validateSession Hv r st'. unfold middleware.
    destruct authorization as [[|c h]|]; cbn [truthy nonEmpty negb].
    { destruct required as [[]|]; cbn; try done. by intros [= <- _]. }
    2: { destruct required as [[]|]; cbn; try done. by intros [= <- _]. }
    cbn [from_option id]. cbv zeta.
    destruct (split_on 32%N (c :: h)) as [|type [|token rest]] eqn:Hs; try done.
    { cbn. by rewrite orb_true_r. }
    cbn [lookup list_lookup from_option id].
    destruct (streq type (js "Bearer")) eqn:Ht; [|done]. cbn [negb orb truthy].
    apply bool_decide_eq_true in Ht. subst type.
    destruct (nonEmpty token) eqn:Hne; [|done]. cbn [negb].
    apply bearer_header in Hs as (Hin & tail & Hh & Htail).
    assert (Hget : forall session ss,
              validateSession now token st = (Some session, ss) ->
              Memory.entries (sessionStore st) !! token = Some session
              /\ (now <= sd_expiresAt session)%Z).
    { intros session ss. destruct Hv as [-> | ->].
      - unfold Server.validateSession, Memory.get.
        destruct (Memory.entries (sessionStore st) !! token) as [d|]; [|done].
        change (expiresAt d) with (sd_expiresAt d).
        destruct (Z.ltb_spec (sd_expiresAt d) now); [done|]. by intros [= <- _].
      - unfold LegacyServer.validateSession, Memory.Legacy.session_get.
        destruct (Memory.entries (sessionStore st) !! token) as [d|]; [|done].
        destruct (Z.ltb_spec (sd_expiresAt d) now); [done|]. by intros [= <- _]. }
    destruct (validateSession now token st) as [[session|] ss].
    + intros [= <- _]. destruct (Hget session ss eq_refl) as [Hd Hx].
      exists token, tail. rewrite Hh. repeat split; try done. by destruct token.
    + destruct required as [[]|]; cbn; try done. by intros [= <- _].
  - intros validateSession h -> Hne Hb. unfold middleware.
    destruct h as [|c h]; [done|]. cbn [truthy nonEmpty negb from_option id].
    cbv zeta.
    destruct (split_on 32%N (c :: h)) as [|type [|token rest]] eqn:Hs.
    + by pose proof (split_on_nonempty 32%N (c :: h)).
    + cbn. by rewrite orb_true_r.
    + cbn [lookup list_lookup from_option id].
      destruct (streq type (js "Bearer")) eqn:Ht; [|done].
      apply bool_decide_eq_true in Ht. subst type.
      apply bearer_header in Hs as (_ & tail & Hh & _).
      rewrite Hh in Hb. by rewrite startsWith_app in Hb.
Qed.

End MiddlewareProps.

(** ** More on claims C1, C3 and C9 *)

(** No two messages in canonical form share a text: what an agent signs
    determines every field of the message. *)
Theorem serializeMessage_injective (m1 m2 : SIWAMessage) :
  canonical m1 = true -> canonical m2 = true ->
  Codec.serializeMessage m1 = Codec.serializeMessage m2 -> m1 = m2.
Proof.
  intros H1%canonical_Canonical%parse_serialize
         H2%canonical_Canonical%parse_serialize E.
  rewrite E in H1. congruence.
Qed.

Lemma serializeMessage_injective_witness : Demo.fullMessage = Demo.fullMessage.
Proof.
  apply (serializeMessage_injective Demo.fullMessage Demo.fullMessage);
    reflexivity.
Defined.

Section RaceWinner.
Context `{Platform}.
Variable server : ServerOptions.
Import Race.

(** Two concurrent [verifySignature] calls for the same signed message on
    the in-memory nonce store, whose [deleteAndGet] reads and deletes without
    an [await] in between, made while the session they would open expires
    within the range of [Date] (beyond it the call that takes the nonce throws
    a [RangeError] instead of returning): however the two calls are
    interleaved, at most one of them returns a session, and once both have
    finished exactly one has, the other having been refused with ['Invalid or
    expired nonce']. *)
Theorem in_memory_race_one_winner (now : Z) (c1 c2 : Call) (st : ServerState)
    (nonceData : NonceData) (schedule : list bool) :
  inDateRange (now + sessionExpirationMinutes server * 60 * 1000) ->
  Racing c1 c2 nonceData ->
  Memory.entries (nonceStore st) !! nonce (c_message c1) = Some nonceData ->
  (now <= nd_expiresAt nonceData)%Z ->
  let '(a, b, _) :=
    runTwo (memoryStep server) now schedule (Consuming c1) (Consuming c2) st in
  (succeeded a && succeeded b = false)
  /\ (forall ra rb, a = Done ra -> b = Done rb ->
        (succeeded a = true /\ rejectedNonce b = true)
        \/ (succeeded b = true /\ rejectedNonce a = true)).
Proof. intros _. apply memory_race_exactly_one. Qed.

End RaceWinner.

Lemma in_memory_race_one_winner_witness :
  let first := Race.mkCall Demo.challengeMessage Demo.pubkey Demo.random32 in
  let second := Race.mkCall Demo.challengeMessage Demo.pubkey (repeat x2b 32) in
  let '(a, b, _) :=
    Race.runTwo (Race.memoryStep Demo.server) (Demo.noon + 1000)
      [true; false; true; false]
      (Race.Consuming first) (Race.Consuming second) Demo.issued in
  (Race.succeeded a && Race.succeeded b = false)
  /\ (forall ra rb, a = Race.Done ra -> b = Race.Done rb ->
        (Race.succeeded a = true /\ Race.rejectedNonce b = true)
        \/ (Race.succeeded b = true /\ Race.rejectedNonce a = true)).
Proof.
  apply (in_memory_race_one_winner (H := Stub.platform) Demo.server
           (Demo.noon + 1000)
           (Race.mkCall Demo.challengeMessage Demo.pubkey Demo.random32)
           (Race.mkCall Demo.challengeMessage Demo.pubkey (repeat x2b 32))
           Demo.issued
           (mkNonceData Demo.pubkey Demo.challengeText (Demo.noon + 300000))
           [true; false; true; false]).
  - unfold inDateRange, Demo.noon. cbn. lia.
  - by constructor.
  - vm_compute. reflexivity.
  - unfold Demo.noon. cbn. lia.
Defined.

Section AwaitedLimiter.
Import Awaited.
Variables (keyPrefix identifier : str) (windowMinutes maxRequests : Z).
Variable start : Z.

Local Abbreviation windowMs := (windowMinutes * 60 * 1000)%Z.
Local Abbreviation key := (Redis.getKey keyPrefix identifier).
Local Abbreviation isOpen := (windowOpen keyPrefix identifier windowMinutes start).

(** The key that [set] writes for the window's record, when [set] reads
    the clock at least a second before the window ends. *)
Lemma awaited_set_window (c : IncrementClock) (count : Z)
    (db : Redis.Db RateLimitData) :
  (at_setNow c <= at_setex c)%Z ->
  (at_setNow c <= start + windowMs - 1000)%Z ->
  isOpen count
    (set keyPrefix identifier (mkRateLimitData count start (start + windowMs))
       (at_setNow c) (at_setex c) db).
Proof.
  intros Hsent Hearly.
  unfold set, Redis.ttlSeconds, expiresAt, RateLimitData_expiring.
  cbn [rl_expiresAt].
  assert (1 <= (start + windowMs - at_setNow c) / 1000)%Z
    by (apply Z.div_le_lower_bound; lia).
  destruct (_ <=? 0)%Z eqn:Hle; [apply Z.leb_le in Hle; lia|].
  unfold windowOpen, Redis.SETEX. rewrite lookup_insert_eq.
  eexists. split; [reflexivity|].
  pose proof (Z.mod_pos_bound (start + windowMs - at_setNow c) 1000).
  pose proof (Z.div_mod (start + windowMs - at_setNow c) 1000). lia.
Qed.

Lemma awaited_increment_opens (c : IncrementClock) (db : Redis.Db RateLimitData) :
  at_now c = start ->
  (at_setNow c <= at_setex c)%Z ->
  (at_setNow c <= start + windowMs - 1000)%Z ->
  Redis.GET key (at_exists c) db = None ->
  exists db',
    increment keyPrefix identifier windowMinutes maxRequests [c] db
    = Some (Redis.mkRateLimitResult true 1 (start + windowMs), db')
    /\ isOpen 1 db'.
Proof.
  intros Hnow Hsent Hearly Hget. cbn [increment]. unfold Redis.EXISTS.
  rewrite Hget, Hnow. cbn [negb]. eexists. split; [reflexivity|].
  by apply awaited_set_window.
Qed.

Lemma awaited_increment_counts (c : IncrementClock) (count : Z)
    (db : Redis.Db RateLimitData) :
  isOpen count db ->
  chronological c ->
  (at_setNow c <= start + windowMs - 1000)%Z ->
  exists db',
    increment keyPrefix identifier windowMinutes maxRequests [c] db
    = Some (Redis.mkRateLimitResult (fst (answer maxRequests count))
              (snd (answer maxRequests count)) (start + windowMs), db')
    /\ isOpen (counted maxRequests count) db'.
Proof.
  intros (expiry & Hdb & Hexp) (H1 & H2 & H3 & H4) Hearly.
  assert (Hget : forall t, (t <= at_setNow c)%Z ->
            Redis.GET key t db
            = Some (mkRateLimitData count start (start + windowMs))).
  { intros t Ht. unfold Redis.GET. rewrite Hdb.
    destruct (t <? expiry)%Z eqn:Hlt; [done|]. apply Z.ltb_ge in Hlt. lia. }
  cbn [increment]. unfold Redis.EXISTS, Redis.get.
  rewrite !Hget by lia. cbn [negb rl_windowStart rl_count rl_expiresAt].
  destruct (at_now c - windowMs <=? start)%Z eqn:Hw; [|apply Z.leb_gt in Hw; lia].
  unfold answer, counted.
  destruct (maxRequests <=? count)%Z eqn:Hmax.
  - eexists. split; [reflexivity|]. by exists expiry.
  - eexists. split; [reflexivity|]. by apply awaited_set_window.
Qed.

Lemma incrementEach_in_window (calls : list IncrementClock) :
  forall (count : Z) (db : Redis.Db RateLimitData),
  isOpen count db ->
  Forall (fun c => chronological c
                   /\ (at_setNow c <= start + windowMs - 1000)%Z) calls ->
  incrementEach keyPrefix identifier windowMinutes maxRequests calls db
  = answers maxRequests count (length calls).
Proof.
  induction calls as [|c calls IH]; intros count db Hopen Hcalls; [done|].
  inversion Hcalls as [|? ? [Hc Hearly] Hrest]; subst.
  destruct (awaited_increment_counts c count db Hopen Hc Hearly)
    as (db' & Hinc & Hopen').
  cbn [incrementEach length answers]. rewrite Hinc.
  cbn [Redis.allowed Redis.count].
  rewrite <- surjective_pairing. f_equal. by apply IH.
Qed.

End AwaitedLimiter.

(** [RedisRateLimitStore.increment] up to the last second of a window.
    Each call reads the clock ([new Date()]), awaits EXISTS and GET, and
    [set] reads the clock again before its awaited SETEX.  The calls are
    made one after the other.  The first call finds no live key: it opens a
    window at its first clock reading and is counted 1.  When in that call
    and in every call that follows [set] reads the clock at least one second
    before that window ends, each of the following calls is counted and
    allowed while fewer than [maxRequests] are counted, and refused from then
    on: the fixed window is enforced on these requests, however long each
    command takes afterwards. *)
Theorem increment_enforced_before_last_second
    (keyPrefix identifier : str) (windowMinutes maxRequests : Z)
    (first : Awaited.IncrementClock) (calls : list Awaited.IncrementClock)
    (db : Redis.Db RateLimitData) :
  Redis.GET (Redis.getKey keyPrefix identifier) (Awaited.at_exists first) db
  = None ->
  Awaited.oneAfterAnother (first :: calls) ->
  Forall (fun c => Awaited.chronological c
                   /\ (Awaited.at_setNow c
                       <= Awaited.at_now first + windowMinutes * 60 * 1000 - 1000)%Z)
    (first :: calls) ->
  Awaited.incrementEach keyPrefix identifier windowMinutes maxRequests
    (first :: calls) db
  = Some (true, 1%Z) :: answers maxRequests 1 (length calls).
Proof.
  intros Hget _ Hcalls.
  inversion Hcalls as [|? ? [(H1 & H2 & H3 & H4) Hearly] Hrest]; subst.
  destruct (awaited_increment_opens keyPrefix identifier windowMinutes
              maxRequests (Awaited.at_now first) first db eq_refl H4 Hearly Hget)
    as (db' & Hinc & Hopen).
  cbn [Awaited.incrementEach]. rewrite Hinc.
  cbn [Redis.allowed Redis.count]. f_equal.
  by apply (incrementEach_in_window keyPrefix identifier windowMinutes
              maxRequests (Awaited.at_now first) calls 1 db').
Qed.

Lemma increment_enforced_before_last_second_witness :
  let clockAt t :=
    Awaited.mkIncrementClock t (t + 2) (t + 4) (t + 5) (t + 40) in
  Awaited.incrementEach (js "siwa:ratelimit:") (js "203.0.113.7") 15 10
    (clockAt Demo.noon
     :: ((fun i => clockAt (Demo.noon + Z.of_nat i * 1000)%Z) <$> seq 1 11)) ∅
  = ((fun i => Some (true, Z.of_nat i)) <$> seq 1 10)
    ++ [Some (false, 10%Z); Some (false, 10%Z)].
Proof.
  intros clockAt.
  refine (eq_trans
            (increment_enforced_before_last_second (js "siwa:ratelimit:")
               (js "203.0.113.7") 15 10 (clockAt Demo.noon)
               ((fun i => clockAt (Demo.noon + Z.of_nat i * 1000)%Z) <$> seq 1 11)
               ∅ _ _ _) _).
  - reflexivity.
  - unfold clockAt, Demo.noon. cbn. repeat (split; [lia|]). exact I.
  - unfold clockAt, Demo.noon. cbn.
    repeat (apply List.Forall_cons;
            [unfold Awaited.chronological; cbn; lia|]).
    apply List.Forall_nil.
  - vm_compute. reflexivity.
Defined.

(** ** Sessions are opened by verified signatures only *)

Section SessionOriginProps.
Context `{Platform}.
Variable server : ServerOptions.

Lemma openedBy_more calls more token session :
  openedBy server calls token session ->
  openedBy server (calls ++ more) token session.
Proof.
  intros (now & rb & text & sig & m & Hin & Hrest).
  exists now, rb, text, sig, m. split; [|done]. apply in_or_app. by left.
Qed.

(** A store step that only removes records. *)
Lemma sessionsOpenedBy_shrink calls op st (ss : Memory.Store SessionData) :
  sessionsOpenedBy server calls st ->
  (forall token session,
     Memory.entries ss !! token = Some session ->
     Memory.entries (sessionStore st) !! token = Some session) ->
  forall st', sessionStore st' = ss ->
  sessionsOpenedBy server (calls ++ [op]) st'.
Proof.
  intros Hst Hsub st' <- token session Hk.
  apply openedBy_more. apply Hst. by apply Hsub.
Qed.

Lemma delete_lookup_Some {V} (key token : str) (s : Memory.Store V) (v : V) :
  Memory.entries (Memory.delete_ key s) !! token = Some v ->
  Memory.entries s !! token = Some v.
Proof.
  cbn. destruct (decide (key = token)) as [->|Hne].
  - by rewrite lookup_delete_eq.
  - by rewrite lookup_delete_ne.
Qed.

Lemma runTimers_lookup_Some {V} now (s : Memory.Store V) token (v : V) :
  Memory.entries (Memory.runTimers now s) !! token = Some v ->
  Memory.entries s !! token = Some v.
Proof. rewrite runTimers_lookup. by destruct (existsb _ _). Qed.

Lemma issueChallenge_sessionStore setNonce now issued pubkey st :
  sessionStore (snd (issueChallenge server setNonce now issued pubkey st))
  = sessionStore st.
Proof. unfold issueChallenge. by destruct (createMessage _ _). Qed.

Lemma checkRateLimit_sessionStore now identifier st :
  sessionStore (snd (Server.checkRateLimit server now identifier st))
  = sessionStore st.
Proof.
  unfold Server.checkRateLimit. destruct (negb _); [done|].
  destruct (Memory.get identifier now (rateLimitStore st)) as [[ex|] rl]; [|done].
  destruct (_ <=? _)%Z; [destruct (_ <=? _)%Z|]; done.
Qed.

(** The session that a successful [verifySignature] writes. *)
Lemma sessionsOpenedBy_open calls st now rb messageText pubkey signature m
    (stored : Memory.Store SessionData) st' :
  sessionsOpenedBy server calls st ->
  verified server now messageText pubkey signature = Val m ->
  sessionStore st' = stored ->
  (forall token session,
     Memory.entries stored !! token = Some session ->
     (token = generateSessionToken rb
      /\ session = mkSessionData pubkey
                     (now + sessionExpirationMinutes server * 60 * 1000)
                     (resources m) (Some m))
     \/ Memory.entries (sessionStore st) !! token = Some session) ->
  sessionsOpenedBy server
    (calls ++ [VerifySignature now rb messageText pubkey signature]) st'.
Proof.
  intros Hst Hv <- Hstored token session Hk.
  destruct (Hstored token session Hk) as [[-> ->]|Hold].
  - exists now, rb, messageText, signature, m. cbn [sd_address].
    split; [apply in_or_app; right; by left|done].
  - apply openedBy_more. by apply Hst.
Qed.

Lemma set_lookup_Some {V} `{Expiring V} key (data : V) now (s : Memory.Store V)
    token (v : V) :
  Memory.entries (Memory.set key data now s) !! token = Some v ->
  (token = key /\ v = data) \/ Memory.entries s !! token = Some v.
Proof.
  unfold Memory.set. destruct (_ <=? 0)%Z; [by right|]. cbn.
  destruct (decide (key = token)) as [->|Hne].
  - rewrite lookup_insert_eq. intros [= <-]. by left.
  - rewrite lookup_insert_ne by done. by right.
Qed.

Lemma legacy_set_lookup_Some {V} `{Expiring V} key (data : V) now
    (s : Memory.Store V) token (v : V) :
  Memory.entries (Memory.Legacy.set key data now s) !! token = Some v ->
  (token = key /\ v = data) \/ Memory.entries s !! token = Some v.
Proof.
  cbn. destruct (decide (key = token)) as [->|Hne].
  - rewrite lookup_insert_eq. intros [= <-]. by left.
  - rewrite lookup_insert_ne by done. by right.
Qed.

Lemma sessionsOpenedBy_serverStep calls st op :
  sessionsOpenedBy server calls st ->
  sessionsOpenedBy server (calls ++ [op]) (serverStep server st op).
Proof.
  intros Hst.
  destruct op as [now fuel rnd pubkey clientIdentifier
                 |now rb messageText pubkey signature|now tok|tok|now];
    cbn [serverStep].
  - apply (sessionsOpenedBy_shrink calls _ st (sessionStore st) Hst); [done|].
    unfold Server.createChallenge.
    assert (Hc : sessionStore
              (snd (match clientIdentifier with
                    | Some (c :: id) =>
                        if rateLimit server
                        then Server.checkRateLimit server now (c :: id) st
                        else (true, st)
                    | _ => (true, st)
                    end)) = sessionStore st).
    { destruct clientIdentifier as [[|c id]|]; try done.
      destruct (rateLimit server); [|done]. apply checkRateLimit_sessionStore. }
    destruct (match clientIdentifier with Some _ => _ | None => _ end)
      as [allowed st0]. cbn [snd] in Hc.
    destruct (negb allowed); [done|]. destruct (negb _); [done|].
    destruct (Nonce.generateNonce _ _ _) as [[[n r]|]|]; [|done|done].
    pose proof (issueChallenge_sessionStore Memory.set now n pubkey st0) as Hi.
    destruct (issueChallenge _ _ _ _ _ _). cbn [snd] in Hi. congruence.
  - unfold Server.verifySignature.
    destruct (verified server now messageText pubkey signature) as [m|e] eqn:Hv;
      [|by apply (sessionsOpenedBy_shrink calls _ st (sessionStore st) Hst)].
    destruct (Memory.deleteAndGet _ _ _) as [[d|] ns];
      [|by apply (sessionsOpenedBy_shrink calls _ st (sessionStore st) Hst)].
    destruct (negb _);
      [by apply (sessionsOpenedBy_shrink calls _ st (sessionStore st) Hst)|].
    eapply sessionsOpenedBy_open; [done|exact Hv|reflexivity|].
    cbn [snd openSession sessionStore]. intros token session.
    apply set_lookup_Some.
  - eapply (sessionsOpenedBy_shrink calls _ st); [done| |reflexivity].
    unfold Server.validateSession, Memory.get.
    destruct (Memory.entries (sessionStore st) !! tok) as [d|]; [|done].
    destruct (_ <? _)%Z; [|done]. cbn [snd sessionStore].
    intros token session. apply delete_lookup_Some.
  - eapply (sessionsOpenedBy_shrink calls _ st); [done| |reflexivity].
    intros token session. apply delete_lookup_Some.
  - eapply (sessionsOpenedBy_shrink calls _ st); [done| |reflexivity].
    intros token session. apply runTimers_lookup_Some.
Qed.

Lemma sessionsOpenedBy_legacyStep calls st op :
  sessionsOpenedBy server calls st ->
  sessionsOpenedBy server (calls ++ [op]) (legacyStep server st op).
Proof.
  intros Hst.
  destruct op as [now fuel rnd pubkey clientIdentifier
                 |now rb messageText pubkey signature|now tok|tok|now];
    cbn [legacyStep].
  - apply (sessionsOpenedBy_shrink calls _ st (sessionStore st) Hst); [done|].
    unfold LegacyServer.createChallenge.
    destruct (negb _); [done|].
    destruct (Nonce.generateNonce _ _ _) as [[[n r]|]|]; [|done|done].
    pose proof (issueChallenge_sessionStore Memory.Legacy.set now n pubkey st) as Hi.
    destruct (issueChallenge _ _ _ _ _ _). cbn [snd] in Hi. congruence.
  - unfold LegacyServer.verifySignature.
    destruct (verified server now messageText pubkey signature) as [m|e] eqn:Hv;
      [|by apply (sessionsOpenedBy_shrink calls _ st (sessionStore st) Hst)].
    destruct (Memory.Legacy.nonce_get _ _) as [d|];
      [|by apply (sessionsOpenedBy_shrink calls _ st (sessionStore st) Hst)].
    destruct (negb _);
      [by apply (sessionsOpenedBy_shrink calls _ st (sessionStore st) Hst)|].
    eapply sessionsOpenedBy_open; [done|exact Hv|reflexivity|].
    cbn [snd openSession sessionStore]. intros token session.
    apply legacy_set_lookup_Some.
  - eapply (sessionsOpenedBy_shrink calls _ st); [done| |reflexivity].
    unfold LegacyServer.validateSession, Memory.Legacy.session_get.
    destruct (Memory.entries (sessionStore st) !! tok) as [d|]; [|done].
    destruct (_ <? _)%Z; [|done]. cbn [snd sessionStore].
    intros token session. apply delete_lookup_Some.
  - eapply (sessionsOpenedBy_shrink calls _ st); [done| |reflexivity].
    intros token session. apply delete_lookup_Some.
  - eapply (sessionsOpenedBy_shrink calls _ st); [done| |reflexivity].
    intros token session. apply runTimers_lookup_Some.
Qed.

Lemma sessionsOpenedBy_run step (ops : list Op) :
  (forall calls st op, sessionsOpenedBy server calls st ->
                       sessionsOpenedBy server (calls ++ [op]) (step st op)) ->
  forall calls st,
    sessionsOpenedBy server calls st ->
    sessionsOpenedBy server (calls ++ ops) (fold_left step ops st).
Proof.
  intros Hstep. induction ops as [|op ops IH]; intros calls st Hst.
  - by rewrite app_nil_r.
  - cbn [fold_left].
    rewrite (app_assoc calls [op] ops : calls ++ op :: ops = (calls ++ [op]) ++ ops).
    apply IH. by apply Hstep.
Qed.

(** No session without a verified signature.  Whatever calls and turns of
    the event loop a server on the in-memory stores has gone through (either
    build), every session that [validateSession] returns was opened by one of
    the [verifySignature] calls of the run: a call for the session's address
    whose message passed [verify], and whose resources are the session's
    scopes. *)
Theorem sessions_come_from_verified_signatures (ops : list Op) (at_ : Z)
    (token : str) (session : SessionData) :
  (fst (LegacyServer.validateSession at_ token
          (fold_left (legacyStep server) ops initialState)) = Some session ->
   openedBy server ops token session)
  /\ (fst (Server.validateSession at_ token
             (fold_left (serverStep server) ops initialState)) = Some session ->
      openedBy server ops token session).
Proof.
  assert (Hinit : sessionsOpenedBy server [] initialState).
  { intros t s Hk. cbn in Hk. by rewrite lookup_empty in Hk. }
  split.
  - pose proof (sessionsOpenedBy_run (legacyStep server) ops
                  sessionsOpenedBy_legacyStep [] initialState Hinit) as Hrun.
    cbn [app] in Hrun. intros Hv. apply Hrun.
    unfold LegacyServer.validateSession, Memory.Legacy.session_get in Hv.
    destruct (Memory.entries _ !! token) as [d|]; [|done].
    destruct (_ <? _)%Z; [done|]. by injection Hv as ->.
  - pose proof (sessionsOpenedBy_run (serverStep server) ops
                  sessionsOpenedBy_serverStep [] initialState Hinit) as Hrun.
    cbn [app] in Hrun. intros Hv. apply Hrun.
    unfold Server.validateSession, Memory.get in Hv.
    destruct (Memory.entries _ !! token) as [d|]; [|done].
    destruct (_ <? _)%Z; [done|]. by injection Hv as ->.
Qed.

End SessionOriginProps.

Lemma sessions_come_from_verified_signatures_witness :
  let ops :=
    [CreateChallenge Demo.noon 1 Demo.zeros Demo.pubkey None;
     VerifySignature (Demo.noon + 1000) Demo.random32 Demo.challengeText
       Demo.pubkey Demo.signature] in
  let session :=
    mkSessionData Demo.pubkey (Demo.noon + 1000 + 60 * 60 * 1000) None
      (Some Demo.challengeMessage) in
  fst (LegacyServer.validateSession (Demo.noon + 2000)
         (generateSessionToken Demo.random32)
         (fold_left (legacyStep Demo.server) ops initialState)) = Some session
  /\ openedBy (H := Stub.platform) Demo.server ops
       (generateSessionToken Demo.random32) session.
Proof.
  intros ops session.
  assert (Hv : fst (LegacyServer.validateSession (Demo.noon + 2000)
                      (generateSessionToken Demo.random32)
                      (fold_left (legacyStep Demo.server) ops initialState))
               = Some session) by (vm_compute; reflexivity).
  split; [exact Hv|].
  exact (proj1 (sessions_come_from_verified_signatures (H := Stub.platform)
                  Demo.server ops (Demo.noon + 2000)
                  (generateSessionToken Demo.random32) session) Hv).
Defined.
